(** * SimpleVector: a shallow embedding of [array_ptr.h] and [simple_vector.h]

    The element type [Type] of the two class templates is an arbitrary Rocq
    type [T] with a value [dflt] standing for [Type{}].  A [size_t] is an
    integer in [0, 2^64) and its arithmetic wraps.  A raw pointer [Type*] is
    either [nullptr] or the address of an array obtained from [new Type[n]];
    since [ArrayPtr] can be moved but not copied, a block has one owner at a
    time and the pointer is represented by the block it points to.

    The element type decides what a move leaves behind: [moved_from x] is
    the value left in an object that held [x] after [y = std::move(x)], and
    [self_moved x] the value left by [x = std::move(x)] (for [int] both are
    [x]; for [std::string] [moved_from] is typically the empty string).  The
    code moves elements out of slots that a reference argument may still
    refer to, so the loops of [std::move] and [std::move_backward] update
    their source as well as their destination. *)

From Stdlib Require Import ZArith Lia String.
From stdpp Require Import base list gmap.

Local Open Scope Z_scope.

(** ** Outcomes of a call *)

Inductive exn : Type :=
| out_of_range (what : string)
| bad_alloc.

(** A call returns normally, leaves with a C++ exception, ends the program
    through [std::terminate] (an exception that reaches the boundary of a
    [noexcept] function), stops at a failed [assert], or has no defined
    behaviour (an access outside the allocated block). *)
Inductive outcome (A : Type) : Type :=
| Ok (a : A)
| Throw (e : exn)
| Terminate
| AssertFail
| Undefined.

Arguments Ok {A} a.
Arguments Throw {A} e.
Arguments Terminate {A}.
Arguments AssertFail {A}.
Arguments Undefined {A}.

Definition bind {A B : Type} (m : outcome A) (k : A -> outcome B) : outcome B :=
  match m with
  | Ok a => k a
  | Throw e => Throw e
  | Terminate => Terminate
  | AssertFail => AssertFail
  | Undefined => Undefined
  end.

Notation "'let*' x ':=' e 'in' k" := (bind e (fun x => k))
  (at level 10, x name, e at level 100, k at level 200).

(** [assert(c)] of <cassert>, in a build that keeps assertions (no
    [NDEBUG]). *)
Definition assert (c : bool) : outcome unit :=
  if c then Ok tt else AssertFail.

(** A function declared [noexcept]: an exception leaving its body calls
    [std::terminate]. *)
Definition noexcept {A : Type} (body : outcome A) : outcome A :=
  match body with
  | Throw _ => Terminate
  | r => r
  end.

(** ** [size_t] *)

Definition SIZE_MAX : Z := 2 ^ 64 - 1.
Definition PTRDIFF_MAX : Z := 2 ^ 63 - 1.

Definition size_t (z : Z) : Z := z mod 2 ^ 64.

(** ** Raw arrays *)

Section Memory.
Context {T : Type}.
Variable dflt : T.
(** What a move leaves in its source, and what a self-move leaves. *)
Variable moved_from : T -> T.
Variable self_moved : T -> T.
(** The number of elements the host allocator is able to serve. *)
Variable heap_limit : Z.

(** [Type*]: [None] is [nullptr], [Some b] points to the first element
    of the array [b]. *)
Definition raw_ptr : Type := option (list T).

(** The elements behind a pointer, none behind [nullptr]. *)
Definition blk (p : raw_ptr) : list T :=
  match p with Some b => b | None => [] end.

(** [new Type[n]{}]: [n] value-initialised elements.  No array object is
    larger than [PTRDIFF_MAX] bytes and an element takes at least one, so a
    request above [PTRDIFF_MAX] elements fails like one the heap cannot
    serve. *)
Definition new_array (n : Z) : outcome raw_ptr :=
  if (n <=? PTRDIFF_MAX) && (n <=? heap_limit)
  then Ok (Some (replicate (Z.to_nat n) dflt))
  else Throw bad_alloc.

(** [p[i]] read. *)
Definition load (p : raw_ptr) (i : Z) : outcome T :=
  match p with
  | Some b =>
      if 0 <=? i then
        match b !! Z.to_nat i with
        | Some x => Ok x
        | None => Undefined
        end
      else Undefined
  | None => Undefined
  end.

(** [p[i] = x]. *)
Definition store (p : raw_ptr) (i : Z) (x : T) : outcome raw_ptr :=
  match p with
  | Some b =>
      if (0 <=? i) && (i <? Z.of_nat (length b))
      then Ok (Some (<[Z.to_nat i := x]> b))
      else Undefined
  | None => Undefined
  end.

(** *** The <algorithm> loops, over offsets into a block *)

(** [for (; n > 0; --n) *d_first++ = *first++;] between two blocks. *)
Fixpoint copy_loop (n : nat) (src : raw_ptr) (first : Z)
         (dst : raw_ptr) (d_first : Z) : outcome raw_ptr :=
  match n with
  | O => Ok dst
  | S n' =>
      let* x := load src first in
      let* dst' := store dst d_first x in
      copy_loop n' src (first + 1) dst' (d_first + 1)
  end.

(** [std::copy(first, last, d_first)] from one block into another. *)
Definition std_copy (src : raw_ptr) (first last : Z)
           (dst : raw_ptr) (d_first : Z) : outcome raw_ptr :=
  if last <? first then Undefined
  else copy_loop (Z.to_nat (last - first)) src first dst d_first.

(** [for (; n > 0; --n) *d_first++ = std::move( *first++ );] between two
    blocks: the source block and the destination block afterwards. *)
Fixpoint move_loop (n : nat) (src : raw_ptr) (first : Z)
         (dst : raw_ptr) (d_first : Z) : outcome (raw_ptr * raw_ptr) :=
  match n with
  | O => Ok (src, dst)
  | S n' =>
      let* x := load src first in
      let* dst' := store dst d_first x in
      let* src' := store src first (moved_from x) in
      move_loop n' src' (first + 1) dst' (d_first + 1)
  end.

(** [std::move(first, last, d_first)] from one block into another. *)
Definition std_move (src : raw_ptr) (first last : Z)
           (dst : raw_ptr) (d_first : Z) : outcome (raw_ptr * raw_ptr) :=
  if last <? first then Undefined
  else move_loop (Z.to_nat (last - first)) src first dst d_first.

(** [buf[d] = std::move(buf[s])] on two slots of one block. *)
Definition move_assign_slot (buf : raw_ptr) (d s : Z) : outcome raw_ptr :=
  let* x := load buf s in
  if d =? s then store buf d (self_moved x)
  else
    let* buf' := store buf d x in
    store buf' s (moved_from x).

(** The loop of [std::move] when source and destination lie in one block:
    every assignment reads the block as the earlier ones left it. *)
Fixpoint shift_down_loop (n : nat) (buf : raw_ptr) (first d_first : Z)
  : outcome raw_ptr :=
  match n with
  | O => Ok buf
  | S n' =>
      let* buf' := move_assign_slot buf d_first first in
      shift_down_loop n' buf' (first + 1) (d_first + 1)
  end.

(** [std::move(first, last, d_first)] inside one block. *)
Definition std_move_within (buf : raw_ptr) (first last d_first : Z)
  : outcome raw_ptr :=
  if last <? first then Undefined
  else shift_down_loop (Z.to_nat (last - first)) buf first d_first.

(** [while (first != last) *(--d_last) = *(--last);] inside one block. *)
Fixpoint shift_up_loop (n : nat) (buf : raw_ptr) (last d_last : Z)
  : outcome raw_ptr :=
  match n with
  | O => Ok buf
  | S n' =>
      let* x := load buf (last - 1) in
      let* buf' := store buf (d_last - 1) x in
      shift_up_loop n' buf' (last - 1) (d_last - 1)
  end.

(** [std::copy_backward(first, last, d_last)] inside one block. *)
Definition std_copy_backward (buf : raw_ptr) (first last d_last : Z)
  : outcome raw_ptr :=
  if last <? first then Undefined
  else shift_up_loop (Z.to_nat (last - first)) buf last d_last.

(** [while (first != last) *(--d_last) = std::move( *(--last) );] inside one
    block. *)
Fixpoint move_up_loop (n : nat) (buf : raw_ptr) (last d_last : Z)
  : outcome raw_ptr :=
  match n with
  | O => Ok buf
  | S n' =>
      let* buf' := move_assign_slot buf (d_last - 1) (last - 1) in
      move_up_loop n' buf' (last - 1) (d_last - 1)
  end.

(** [std::move_backward(first, last, d_last)] inside one block. *)
Definition std_move_backward (buf : raw_ptr) (first last d_last : Z)
  : outcome raw_ptr :=
  if last <? first then Undefined
  else move_up_loop (Z.to_nat (last - first)) buf last d_last.

(** [for (; n > 0; --n) *first++ = value;] *)
Fixpoint fill_loop (n : nat) (buf : raw_ptr) (first : Z) (value : T)
  : outcome raw_ptr :=
  match n with
  | O => Ok buf
  | S n' =>
      let* buf' := store buf first value in
      fill_loop n' buf' (first + 1) value
  end.

(** [std::fill(first, last, value)]. *)
Definition std_fill (buf : raw_ptr) (first last : Z) (value : T)
  : outcome raw_ptr :=
  if last <? first then Undefined
  else fill_loop (Z.to_nat (last - first)) buf first value.

End Memory.

(** ** [ArrayPtr<Type>] (array_ptr.h) *)

Section ArrayPtr.
Context {T : Type}.
Variable dflt : T.
Variable heap_limit : Z.

Record ArrayPtr : Type := mkArrayPtr { _rawPtr : @raw_ptr T }.

(** [ArrayPtr() noexcept = default]. *)
Definition ArrayPtr_default : ArrayPtr := mkArrayPtr None.

(** [explicit ArrayPtr(size_t size)]. *)
Definition ArrayPtr_sized (size : Z) : outcome ArrayPtr :=
  if negb (size =? 0) then
    let* p := new_array dflt heap_limit size in Ok (mkArrayPtr p)
  else Ok (mkArrayPtr None).

(** [explicit ArrayPtr(Type* raw_ptr) noexcept]. *)
Definition ArrayPtr_adopt (raw : raw_ptr) : ArrayPtr := mkArrayPtr raw.

(** [ArrayPtr(ArrayPtr&& other) noexcept]: the new object and [other]
    afterwards. *)
Definition ArrayPtr_move (other : ArrayPtr) : ArrayPtr * ArrayPtr :=
  (mkArrayPtr (_rawPtr other), mkArrayPtr None).

(** [Release()]: the returned pointer and the object afterwards. *)
Definition Release (p : ArrayPtr) : raw_ptr * ArrayPtr :=
  (_rawPtr p, mkArrayPtr None).

(** [operator[](size_t index)]. *)
Definition ArrayPtr_index (p : ArrayPtr) (index : Z) : outcome T :=
  load (_rawPtr p) index.

(** [explicit operator bool()]. *)
Definition ArrayPtr_bool (p : ArrayPtr) : bool :=
  match _rawPtr p with Some _ => true | None => false end.

Definition Get (p : ArrayPtr) : raw_ptr := _rawPtr p.

(** [swap(ArrayPtr& other)] and [operator=(ArrayPtr&& other)] on two
    distinct objects, both [std::swap(_rawPtr, other._rawPtr)]: the
    object and [other] afterwards. *)
Definition ArrayPtr_swap (this other : ArrayPtr) : ArrayPtr * ArrayPtr :=
  (mkArrayPtr (_rawPtr other), mkArrayPtr (_rawPtr this)).

(** The elements of the block a handle owns, none for [nullptr]. *)
Definition block (p : ArrayPtr) : list T := blk (_rawPtr p).

End ArrayPtr.

Arguments ArrayPtr T : clear implicits.

(** ** [SimpleVector<Type>] (simple_vector.h) *)

Record ReserveProxyObj : Type := mkReserveProxyObj { capacity : Z }.

(** The free function [Reserve(size_t capacity_to_reserve)]. *)
Definition ReserveProxy (capacity_to_reserve : Z) : ReserveProxyObj :=
  mkReserveProxyObj capacity_to_reserve.

Section SimpleVector.
Context {T : Type}.
Variable dflt : T.
Variable moved_from : T -> T.
Variable self_moved : T -> T.
Variable heap_limit : Z.

Record SimpleVector : Type := mkSimpleVector {
  items_ : ArrayPtr T;
  size_ : Z;
  capacity_ : Z
}.

(** An [Iterator] or [ConstIterator] of a vector is a pointer into its
    block: it is kept as its offset from [items_.Get()]. *)
Definition begin (v : SimpleVector) : Z := 0.
Definition end_ (v : SimpleVector) : Z := size_ v.
Definition cbegin (v : SimpleVector) : Z := 0.
Definition cend (v : SimpleVector) : Z := size_ v.

(** *** Constructors *)

(** [SimpleVector() noexcept = default]. *)
Definition SimpleVector_default : SimpleVector :=
  mkSimpleVector ArrayPtr_default 0 0.

(** [SimpleVector(size_t size, const Type& value)]. *)
Definition SimpleVector_fill (size : Z) (value : T) : outcome SimpleVector :=
  let* items := ArrayPtr_sized dflt heap_limit size in
  let* filled := std_fill (Get items) 0 (0 + size) value in
  Ok (mkSimpleVector (mkArrayPtr filled) size size).

(** [explicit SimpleVector(size_t size)]. *)
Definition SimpleVector_sized (size : Z) : outcome SimpleVector :=
  SimpleVector_fill size dflt.

(** [SimpleVector(std::initializer_list<Type> init)]. *)
Definition SimpleVector_init (init : list T) : outcome SimpleVector :=
  let n := Z.of_nat (length init) in
  let* items := ArrayPtr_sized dflt heap_limit n in
  let* copied := std_copy (Some init) 0 n (Get items) 0 in
  Ok (mkSimpleVector (mkArrayPtr copied) n n).

(** [SimpleVector(const SimpleVector& other)]. *)
Definition SimpleVector_copy (other : SimpleVector) : outcome SimpleVector :=
  let* items := ArrayPtr_sized dflt heap_limit (size_ other) in
  let* copied :=
    std_copy (Get (items_ other)) 0 (0 + size_ other) (Get items) 0 in
  Ok (mkSimpleVector (mkArrayPtr copied) (size_ other) (size_ other)).

(** [SimpleVector(ReserveProxyObj reserved)]. *)
Definition SimpleVector_reserved (reserved : ReserveProxyObj)
  : outcome SimpleVector :=
  let* items := ArrayPtr_sized dflt heap_limit (capacity reserved) in
  Ok (mkSimpleVector items 0 (capacity reserved)).

(** [SimpleVector(SimpleVector&& other) noexcept]: the new object and
    [other] afterwards.  [std::exchange(other.size_, 0)] yields the old
    value and stores 0. *)
Definition SimpleVector_move (other : SimpleVector)
  : SimpleVector * SimpleVector :=
  let '(items, other_items) := ArrayPtr_move (items_ other) in
  (mkSimpleVector items (size_ other) (capacity_ other),
   mkSimpleVector other_items 0 0).

(** *** Observers *)

Definition GetSize (v : SimpleVector) : Z := size_ v.
Definition GetCapacity (v : SimpleVector) : Z := capacity_ v.
Definition IsEmpty (v : SimpleVector) : bool := size_ v =? 0.

Definition range_msg : string := "Item index is out of range".

(** [Type& operator[](size_t index) noexcept]. *)
Definition index (v : SimpleVector) (index : Z) : outcome T :=
  noexcept (
    let* _ := assert (index <? size_ v) in
    ArrayPtr_index (items_ v) index).

(** [const Type& operator[](size_t index) const noexcept]. *)
Definition index_const (v : SimpleVector) (index : Z) : outcome T :=
  noexcept (
    if size_ v <=? index then Throw (out_of_range range_msg)
    else ArrayPtr_index (items_ v) index).

(** [Type& At(size_t index)]. *)
Definition At (v : SimpleVector) (index : Z) : outcome T :=
  if size_ v <=? index then Throw (out_of_range range_msg)
  else ArrayPtr_index (items_ v) index.

(** [const Type& At(size_t index) const]. *)
Definition At_const (v : SimpleVector) (index : Z) : outcome T :=
  if size_ v <=? index then Throw (out_of_range range_msg)
  else ArrayPtr_index (items_ v) index.

(** *** Reference arguments *)

(** What a parameter [const Type&] or [Type&&] is bound to: an object that
    is not an element of the vector the member is called on, given by its
    value, or the slot [items_.Get()[i]] of the block of that vector, which
    the member may move from or overwrite before it reads the parameter. *)
Inductive ref : Type :=
| outside (x : T)
| element (i : Z).

(** Reading through a reference into the block [buf]. *)
Definition read_ref (buf : raw_ptr) (r : ref) : outcome T :=
  match r with
  | outside x => Ok x
  | element i => load buf i
  end.

(** [std::move(r)] assigned to a slot of another block: the value that
    arrives and [buf] afterwards.  An object outside the vector is not part
    of the state. *)
Definition move_from_ref (buf : raw_ptr) (r : ref) : outcome (T * raw_ptr) :=
  match r with
  | outside x => Ok (x, buf)
  | element i =>
      let* x := load buf i in
      let* buf' := store buf i (moved_from x) in
      Ok (x, buf')
  end.

(** [buf[d] = std::move(r)] for a reference into [buf] itself. *)
Definition move_into (buf : raw_ptr) (d : Z) (r : ref) : outcome raw_ptr :=
  match r with
  | outside x => store buf d x
  | element i => move_assign_slot moved_from self_moved buf d i
  end.

(** *** Private helpers *)

(** [ItemsPtr ReallocateMove(size_t new_capacity) const]: the handle it
    returns and [items_] afterwards.  The member is [const], but it moves
    the elements out of the block behind [items_]. *)
Definition ReallocateMove (v : SimpleVector) (new_capacity : Z)
  : outcome (ArrayPtr T * ArrayPtr T) :=
  let* new_items := ArrayPtr_sized dflt heap_limit new_capacity in
  let copy_size := Z.min new_capacity (size_ v) in
  let* moved :=
    std_move moved_from (Get (items_ v)) 0 (0 + copy_size) (Get new_items) 0 in
  let items := mkArrayPtr (fst moved) in
  let new_items := mkArrayPtr (snd moved) in
  Ok (ArrayPtr_adopt (fst (Release new_items)), items).

(** [static void FillWithDefaultValue(Type* from, Type* to)], the two
    pointers being offsets into [buf]. *)
Definition FillWithDefaultValue (buf : raw_ptr) (from to : Z)
  : outcome raw_ptr :=
  if to <? from then Undefined
  else fill_loop (Z.to_nat (to - from)) buf from dflt.

(** *** Mutators of one object *)

(** [void Clear() noexcept]. *)
Definition Clear (v : SimpleVector) : SimpleVector :=
  mkSimpleVector (items_ v) 0 (capacity_ v).

(** [void Reserve(size_t new_capacity)]. *)
Definition Reserve (v : SimpleVector) (new_capacity : Z)
  : outcome SimpleVector :=
  if capacity_ v <? new_capacity then
    let* r := ReallocateMove v new_capacity in
    let new_items := fst r in
    let items := snd r in
    let '(items, new_items) := ArrayPtr_swap items new_items in
    Ok (mkSimpleVector items (size_ v) new_capacity)
  else Ok v.

(** [void Resize(size_t new_size)]. *)
Definition Resize (v : SimpleVector) (new_size : Z) : outcome SimpleVector :=
  if capacity_ v <? new_size then
    let new_capacity := Z.max (size_t (capacity_ v * 2)) new_size in
    let* r := ReallocateMove v new_capacity in
    let new_items := fst r in
    let items := snd r in
    let* filled :=
      FillWithDefaultValue (Get new_items) (size_ v) new_size in
    let new_items := mkArrayPtr filled in
    let '(items, new_items) := ArrayPtr_swap items new_items in
    Ok (mkSimpleVector items new_size new_capacity)
  else if size_ v <? new_size then
    let* _ := assert (new_size <=? capacity_ v) in
    let* filled :=
      FillWithDefaultValue (Get (items_ v)) (size_ v) new_size in
    Ok (mkSimpleVector (mkArrayPtr filled) new_size (capacity_ v))
  else Ok (mkSimpleVector (items_ v) new_size (capacity_ v)).

(** [void PushBack(const Type& item)].  In the first branch [item] is read
    after [ReallocateMove] has moved the elements out of the old block. *)
Definition PushBack (v : SimpleVector) (item : ref) : outcome SimpleVector :=
  let new_size := size_t (size_ v + 1) in
  if capacity_ v <? new_size then
    let new_capacity := Z.max (size_t (capacity_ v * 2)) new_size in
    let* r := ReallocateMove v new_capacity in
    let new_items := fst r in
    let items := snd r in
    let* x := read_ref (Get items) item in
    let* written := store (Get new_items) (size_ v) x in
    let new_items := mkArrayPtr written in
    let '(items, new_items) := ArrayPtr_swap items new_items in
    Ok (mkSimpleVector items new_size new_capacity)
  else
    let* x := read_ref (Get (items_ v)) item in
    let* written := store (Get (items_ v)) (size_ v) x in
    Ok (mkSimpleVector (mkArrayPtr written) new_size (capacity_ v)).

(** [void PushBack(Type&& item)]. *)
Definition PushBack_rvalue (v : SimpleVector) (item : ref)
  : outcome SimpleVector :=
  let new_size := size_t (size_ v + 1) in
  if capacity_ v <? new_size then
    let new_capacity := Z.max (size_t (capacity_ v * 2)) new_size in
    let* r := ReallocateMove v new_capacity in
    let new_items := fst r in
    let items := snd r in
    let* m := move_from_ref (Get items) item in
    let items := mkArrayPtr (snd m) in
    let* written := store (Get new_items) (size_ v) (fst m) in
    let new_items := mkArrayPtr written in
    let '(items, new_items) := ArrayPtr_swap items new_items in
    Ok (mkSimpleVector items new_size new_capacity)
  else
    let* written := move_into (Get (items_ v)) (size_ v) item in
    Ok (mkSimpleVector (mkArrayPtr written) new_size (capacity_ v)).

(** [void PopBack() noexcept]. *)
Definition PopBack (v : SimpleVector) : outcome SimpleVector :=
  noexcept (
    let* _ := assert (negb (IsEmpty v)) in
    Ok (mkSimpleVector (items_ v) (size_t (size_ v - 1)) (capacity_ v))).

(** [Iterator Insert(ConstIterator pos, const Type& value)]: the returned
    iterator and the object afterwards.  In the first branch [value] is read
    after [std::copy_backward] has shifted the block. *)
Definition Insert (v : SimpleVector) (pos : Z) (value : ref)
  : outcome (Z * SimpleVector) :=
  let* _ := assert ((begin v <=? pos) && (pos <=? end_ v)) in
  let new_size := size_t (size_ v + 1) in
  let new_item_offset := size_t (pos - cbegin v) in
  if new_size <=? capacity_ v then
    let mutable_pos := begin v + new_item_offset in
    let* shifted :=
      std_copy_backward (Get (items_ v)) pos (cend v) (end_ v + 1) in
    let* x := read_ref shifted value in
    let* written := store shifted mutable_pos x in
    let v' := mkSimpleVector (mkArrayPtr written) new_size (capacity_ v) in
    Ok (begin v' + new_item_offset, v')
  else
    let new_capacity := Z.max (size_t (capacity_ v * 2)) new_size in
    let* new_items := ArrayPtr_sized dflt heap_limit new_capacity in
    let new_items_pos := 0 + new_item_offset in
    let* head :=
      std_copy (Get (items_ v)) (cbegin v) pos (Get new_items) 0 in
    let* x := read_ref (Get (items_ v)) value in
    let* written := store head new_items_pos x in
    let* tail :=
      std_copy (Get (items_ v)) pos (cend v) written (new_items_pos + 1) in
    let new_items := mkArrayPtr tail in
    let '(items, new_items) := ArrayPtr_swap (items_ v) new_items in
    let v' := mkSimpleVector items new_size new_capacity in
    Ok (begin v' + new_item_offset, v').

(** [Iterator Insert(ConstIterator pos, Type&& value)]. *)
Definition Insert_rvalue (v : SimpleVector) (pos : Z) (value : ref)
  : outcome (Z * SimpleVector) :=
  let* _ := assert ((begin v <=? pos) && (pos <=? end_ v)) in
  let new_size := size_t (size_ v + 1) in
  let new_item_offset := size_t (pos - cbegin v) in
  let mutable_pos := begin v + new_item_offset in
  if new_size <=? capacity_ v then
    let* shifted :=
      std_move_backward moved_from self_moved (Get (items_ v))
                        mutable_pos (end_ v) (end_ v + 1) in
    let* written := move_into shifted mutable_pos value in
    let v' := mkSimpleVector (mkArrayPtr written) new_size (capacity_ v) in
    Ok (begin v' + new_item_offset, v')
  else
    let new_capacity := Z.max (size_t (capacity_ v * 2)) new_size in
    let* new_items := ArrayPtr_sized dflt heap_limit new_capacity in
    let new_items_pos := 0 + new_item_offset in
    let* head :=
      std_move moved_from (Get (items_ v)) (begin v) mutable_pos
               (Get new_items) 0 in
    let* m := move_from_ref (fst head) value in
    let* written := store (snd head) new_items_pos (fst m) in
    let* tail :=
      std_move moved_from (snd m) mutable_pos (end_ v) written
               (new_items_pos + 1) in
    let items := mkArrayPtr (fst tail) in
    let new_items := mkArrayPtr (snd tail) in
    let '(items, new_items) := ArrayPtr_swap items new_items in
    let v' := mkSimpleVector items new_size new_capacity in
    Ok (begin v' + new_item_offset, v').

(** [Iterator Erase(ConstIterator pos)]. *)
Definition Erase (v : SimpleVector) (pos : Z) : outcome (Z * SimpleVector) :=
  let* _ := assert ((begin v <=? pos) && (pos <? end_ v)) in
  let mutable_pos := begin v + (pos - cbegin v) in
  let* moved :=
    std_move_within moved_from self_moved (Get (items_ v))
                    (mutable_pos + 1) (end_ v) mutable_pos in
  Ok (mutable_pos,
      mkSimpleVector (mkArrayPtr moved) (size_t (size_ v - 1)) (capacity_ v)).

(** The logical content: the elements of [begin(), end())]. *)
Definition to_list (v : SimpleVector) : list T :=
  take (Z.to_nat (size_ v)) (block (items_ v)).

End SimpleVector.

Arguments SimpleVector T : clear implicits.
Arguments ref T : clear implicits.


(** ** Operations on two objects

    Copy assignment, move assignment and [swap] receive a reference to a
    second vector, which may be the object itself.  Objects live in a store
    keyed by their address and the members read and write the fields of the
    objects at [this] and at the other address one statement at a time. *)

Section Objects.
Context {T : Type}.
Variable dflt : T.
Variable heap_limit : Z.

(** The object a reference denotes; a reference to no object is dangling. *)
Definition deref (σ : gmap nat (SimpleVector T)) (a : nat)
  : outcome (SimpleVector T) :=
  match σ !! a with
  | Some v => Ok v
  | None => Undefined
  end.

Definition set_items (a : nat) (p : ArrayPtr T) (σ : gmap nat (SimpleVector T))
  : outcome (gmap nat (SimpleVector T)) :=
  let* v := deref σ a in
  Ok (<[a := mkSimpleVector p (size_ v) (capacity_ v)]> σ).

Definition set_size (a : nat) (n : Z) (σ : gmap nat (SimpleVector T))
  : outcome (gmap nat (SimpleVector T)) :=
  let* v := deref σ a in
  Ok (<[a := mkSimpleVector (items_ v) n (capacity_ v)]> σ).

Definition set_capacity (a : nat) (n : Z) (σ : gmap nat (SimpleVector T))
  : outcome (gmap nat (SimpleVector T)) :=
  let* v := deref σ a in
  Ok (<[a := mkSimpleVector (items_ v) (size_ v) n]> σ).

(** [std::swap(_rawPtr, other._rawPtr)] on the handles of the objects at
    [this] and [other]: the body of [ArrayPtr::swap] and of
    [ArrayPtr::operator=(ArrayPtr&&)]. *)
Definition swap_items (this other : nat) (σ : gmap nat (SimpleVector T))
  : outcome (gmap nat (SimpleVector T)) :=
  let* t := deref σ this in
  let tmp := items_ t in
  let* o := deref σ other in
  let* σ := set_items this (items_ o) σ in
  set_items other tmp σ.

(** [std::swap(size_, other.size_)]. *)
Definition swap_size (this other : nat) (σ : gmap nat (SimpleVector T))
  : outcome (gmap nat (SimpleVector T)) :=
  let* t := deref σ this in
  let tmp := size_ t in
  let* o := deref σ other in
  let* σ := set_size this (size_ o) σ in
  set_size other tmp σ.

(** [std::swap(capacity_, other.capacity_)]. *)
Definition swap_capacity (this other : nat) (σ : gmap nat (SimpleVector T))
  : outcome (gmap nat (SimpleVector T)) :=
  let* t := deref σ this in
  let tmp := capacity_ t in
  let* o := deref σ other in
  let* σ := set_capacity this (capacity_ o) σ in
  set_capacity other tmp σ.

(** [void swap(SimpleVector& other) noexcept]. *)
Definition swap (this other : nat) (σ : gmap nat (SimpleVector T))
  : outcome (gmap nat (SimpleVector T)) :=
  noexcept (
    let* σ := swap_items this other σ in
    let* σ := swap_size this other σ in
    swap_capacity this other σ).

(** [SimpleVector& operator=(const SimpleVector& rhs)].  The local
    [rhs_copy] is an object at an address that no object has and that is not
    [this]; it is destroyed on return. *)
Definition copy_assign (this rhs : nat) (σ : gmap nat (SimpleVector T))
  : outcome (gmap nat (SimpleVector T)) :=
  if negb (rhs =? this)%nat then
    let* r := deref σ rhs in
    if IsEmpty r then
      let* t := deref σ this in
      Ok (<[this := Clear t]> σ)
    else
      let* rhs_copy := SimpleVector_copy dflt heap_limit r in
      let tmp := fresh ({[this]} ∪ dom σ) in
      let σ := <[tmp := rhs_copy]> σ in
      let* σ := swap this tmp σ in
      Ok (delete tmp σ)
  else Ok σ.

(** [SimpleVector& operator=(SimpleVector&& other)]. *)
Definition move_assign (this other : nat) (σ : gmap nat (SimpleVector T))
  : outcome (gmap nat (SimpleVector T)) :=
  let* σ := swap_items this other σ in
  let* o := deref σ other in
  let old_size := size_ o in
  let* σ := set_size other 0 σ in
  let* σ := set_size this old_size σ in
  let* o := deref σ other in
  let old_capacity := capacity_ o in
  let* σ := set_capacity other 0 σ in
  set_capacity this old_capacity σ.

(** [SimpleVector(SimpleVector&& other) noexcept] building a new object at
    the unused address [this]. *)
Definition move_construct (this other : nat) (σ : gmap nat (SimpleVector T))
  : outcome (gmap nat (SimpleVector T)) :=
  let* o := deref σ other in
  let '(new, o') := SimpleVector_move o in
  Ok (<[this := new]> (<[other := o']> σ)).

End Objects.

(** ** Comparison operators *)

Section Compare.
Context {T : Type}.
(** [operator==] and [operator<] of the element type. *)
Variable eqb : T -> T -> bool.
Variable ltb : T -> T -> bool.

(** [for (; first1 != last1; ++first1, ++first2)
       if (!( *first1 == *first2 )) return false;
     return true;] *)
Fixpoint equal_loop (n : nat) (a : @raw_ptr T) (first1 : Z)
         (b : @raw_ptr T) (first2 : Z) : outcome bool :=
  match n with
  | O => Ok true
  | S n' =>
      let* x := load a first1 in
      let* y := load b first2 in
      if negb (eqb x y) then Ok false
      else equal_loop n' a (first1 + 1) b (first2 + 1)
  end.

(** [std::equal(first1, last1, first2)]. *)
Definition std_equal (a : @raw_ptr T) (first1 last1 : Z)
           (b : @raw_ptr T) (first2 : Z) : outcome bool :=
  if last1 <? first1 then Undefined
  else equal_loop (Z.to_nat (last1 - first1)) a first1 b first2.

(** [for (; first1 != last1 && first2 != last2; ++first1, ++first2) {
       if ( *first1 < *first2 ) return true;
       if ( *first2 < *first1 ) return false;
     }
     return first1 == last1 && first2 != last2;] *)
Fixpoint lexicographical_loop (n1 n2 : nat) (a : @raw_ptr T) (first1 : Z)
         (b : @raw_ptr T) (first2 : Z) : outcome bool :=
  match n1, n2 with
  | S n1', S n2' =>
      let* x := load a first1 in
      let* y := load b first2 in
      if ltb x y then Ok true
      else if ltb y x then Ok false
      else lexicographical_loop n1' n2' a (first1 + 1) b (first2 + 1)
  | O, S _ => Ok true
  | _, O => Ok false
  end.

(** [std::lexicographical_compare(first1, last1, first2, last2)]. *)
Definition std_lexicographical_compare (a : @raw_ptr T) (first1 last1 : Z)
           (b : @raw_ptr T) (first2 last2 : Z) : outcome bool :=
  if (last1 <? first1) || (last2 <? first2) then Undefined
  else lexicographical_loop (Z.to_nat (last1 - first1))
         (Z.to_nat (last2 - first2)) a first1 b first2.

Definition operator_eq (lhs rhs : SimpleVector T) : outcome bool :=
  if GetSize lhs =? GetSize rhs then
    std_equal (Get (items_ lhs)) (begin lhs) (end_ lhs)
              (Get (items_ rhs)) (begin rhs)
  else Ok false.

Definition operator_ne (lhs rhs : SimpleVector T) : outcome bool :=
  let* r := operator_eq lhs rhs in Ok (negb r).

Definition operator_lt (lhs rhs : SimpleVector T) : outcome bool :=
  std_lexicographical_compare (Get (items_ lhs)) (begin lhs) (end_ lhs)
                              (Get (items_ rhs)) (begin rhs) (end_ rhs).

Definition operator_gt (lhs rhs : SimpleVector T) : outcome bool :=
  operator_lt rhs lhs.

Definition operator_le (lhs rhs : SimpleVector T) : outcome bool :=
  let* r := operator_lt rhs lhs in Ok (negb r).

Definition operator_ge (lhs rhs : SimpleVector T) : outcome bool :=
  operator_le rhs lhs.

(** The order the specification names: the lexicographic order of two
    element sequences, where two elements tie when neither is less than the
    other. *)
Inductive lexicographic : list T -> list T -> Prop :=
| lex_shorter : forall y ys, lexicographic [] (y :: ys)
| lex_less : forall x xs y ys, ltb x y = true -> lexicographic (x :: xs) (y :: ys)
| lex_tie : forall x xs y ys,
    ltb x y = false -> ltb y x = false -> lexicographic xs ys ->
    lexicographic (x :: xs) (y :: ys).

End Compare.

(** ** The class invariant *)

(** [size_ <= capacity_], the block behind [items_] has room for
    [capacity_] elements, and it is an array [new] could return. *)
Definition wf {T : Type} (v : SimpleVector T) : Prop :=
  0 <= size_ v <= capacity_ v /\
  capacity_ v <= Z.of_nat (length (block (items_ v))) <= PTRDIFF_MAX.

(** The allocator can serve an array of [n] elements. *)
Definition room (heap_limit n : Z) : Prop :=
  n <= PTRDIFF_MAX /\ n <= heap_limit.

(** The growth policy in the specification's words: the capacity after an
    operation that needs [required] slots and has fewer. *)
Definition growth_policy {T : Type} (v : SimpleVector T) (required : Z) : Z :=
  Z.max (2 * capacity_ v) required.

(** A [size_t] argument. *)
Definition is_size_t (n : Z) : Prop := 0 <= n <= SIZE_MAX.

(** ** Sequences in the specification's words *)

Section Contents.
Context {T : Type}.
Variable dflt : T.

(** The [k]-th element after [Resize(new_size)]: the old elements up to the
    new size, then default values. *)
Definition resized (v : SimpleVector T) (new_size : Z) (k : nat) : option T :=
  if decide (Z.of_nat k < Z.min (size_ v) new_size) then block (items_ v) !! k
  else if decide (Z.of_nat k < new_size) then Some dflt
  else None.

(** The [k]-th element after inserting [x] at offset [pos]. *)
Definition inserted (v : SimpleVector T) (pos : Z) (x : T) (k : nat)
  : option T :=
  if decide (Z.of_nat k < pos) then block (items_ v) !! k
  else if decide (Z.of_nat k = pos) then Some x
  else if decide (Z.of_nat k < size_ v + 1)
       then block (items_ v) !! (k - 1)%nat
  else None.

(** The [k]-th element after erasing the element at offset [pos]. *)
Definition erased (v : SimpleVector T) (pos : Z) (k : nat) : option T :=
  if decide (Z.of_nat k < pos) then block (items_ v) !! k
  else if decide (Z.of_nat k < size_ v - 1)
       then block (items_ v) !! (k + 1)%nat
  else None.

End Contents.

(** ** Calls on the objects of a store *)

Section Calls.
Context {T : Type}.
Variable dflt : T.
Variable moved_from : T -> T.
Variable self_moved : T -> T.
Variable heap_limit : Z.

(** A constructor call that builds the object at [this], or a call on the
    object at [this] of an assignment operator or of a member function that
    changes the vector.  A reference argument of [PushBack] or [Insert] is
    bound to an element of the object at [this] or to an object that is no
    element of a vector of the store. *)
Inductive call : Type :=
| New_default (this : nat)
| New_sized (this : nat) (size : Z)
| New_fill (this : nat) (size : Z) (value : T)
| New_init (this : nat) (init : list T)
| New_copy (this other : nat)
| New_reserved (this : nat) (reserved : ReserveProxyObj)
| New_move (this other : nat)
| Assign_copy (this rhs : nat)
| Assign_move (this other : nat)
| Call_Clear (this : nat)
| Call_Reserve (this : nat) (new_capacity : Z)
| Call_Resize (this : nat) (new_size : Z)
| Call_PushBack (this : nat) (item : ref T)
| Call_PushBack_rvalue (this : nat) (item : ref T)
| Call_PopBack (this : nat)
| Call_swap (this other : nat)
| Call_Insert (this : nat) (pos : Z) (value : ref T)
| Call_Insert_rvalue (this : nat) (pos : Z) (value : ref T)
| Call_Erase (this : nat) (pos : Z).

(** The [size_t] arguments of a call are in range. *)
Definition call_args_ok (c : call) : Prop :=
  match c with
  | New_sized _ n | New_fill _ n _ | Call_Reserve _ n | Call_Resize _ n =>
      is_size_t n
  | New_reserved _ r => is_size_t (capacity r)
  | _ => True
  end.

Definition construct (this : nat) (ctor : outcome (SimpleVector T))
           (σ : gmap nat (SimpleVector T))
  : outcome (gmap nat (SimpleVector T)) :=
  let* v := ctor in Ok (<[this := v]> σ).

Definition on_object (this : nat)
           (member : SimpleVector T -> outcome (SimpleVector T))
           (σ : gmap nat (SimpleVector T))
  : outcome (gmap nat (SimpleVector T)) :=
  let* v := deref σ this in
  let* v' := member v in
  Ok (<[this := v']> σ).

Definition exec (c : call) (σ : gmap nat (SimpleVector T))
  : outcome (gmap nat (SimpleVector T)) :=
  match c with
  | New_default this => construct this (Ok SimpleVector_default) σ
  | New_sized this n => construct this (SimpleVector_sized dflt heap_limit n) σ
  | New_fill this n x =>
      construct this (SimpleVector_fill dflt heap_limit n x) σ
  | New_init this init =>
      construct this (SimpleVector_init dflt heap_limit init) σ
  | New_copy this other =>
      let* o := deref σ other in
      construct this (SimpleVector_copy dflt heap_limit o) σ
  | New_reserved this r =>
      construct this (SimpleVector_reserved dflt heap_limit r) σ
  | New_move this other => move_construct this other σ
  | Assign_copy this rhs => copy_assign dflt heap_limit this rhs σ
  | Assign_move this other => move_assign this other σ
  | Call_Clear this => on_object this (fun v => Ok (Clear v)) σ
  | Call_Reserve this n =>
      on_object this (fun v => Reserve dflt moved_from heap_limit v n) σ
  | Call_Resize this n =>
      on_object this (fun v => Resize dflt moved_from heap_limit v n) σ
  | Call_PushBack this x =>
      on_object this (fun v => PushBack dflt moved_from heap_limit v x) σ
  | Call_PushBack_rvalue this x =>
      on_object this
        (fun v => PushBack_rvalue dflt moved_from self_moved heap_limit v x) σ
  | Call_PopBack this => on_object this PopBack σ
  | Call_swap this other => swap this other σ
  | Call_Insert this pos x =>
      on_object this
        (fun v => let* r := Insert dflt heap_limit v pos x in Ok (snd r)) σ
  | Call_Insert_rvalue this pos x =>
      on_object this
        (fun v =>
           let* r :=
             Insert_rvalue dflt moved_from self_moved heap_limit v pos x in
           Ok (snd r)) σ
  | Call_Erase this pos =>
      on_object this
        (fun v => let* r := Erase moved_from self_moved v pos in Ok (snd r)) σ
  end.

(** The calls whose effect on the object they are called on the growth
    invariant speaks of: every member function except the assignment
    operators and [swap]. *)
Definition own_mutator (c : call) : option nat :=
  match c with
  | Call_Clear this | Call_Reserve this _ | Call_Resize this _
  | Call_PushBack this _ | Call_PushBack_rvalue this _ | Call_PopBack this
  | Call_Insert this _ _ | Call_Insert_rvalue this _ _ | Call_Erase this _ =>
      Some this
  | _ => None
  end.

(** One argument of [PushBack] that is an object outside the vector: an
    lvalue (copied) or an rvalue (moved). *)
Inductive pushed : Type :=
| by_copy (item : T)
| by_move (item : T).

Definition pushed_item (p : pushed) : T :=
  match p with by_copy item | by_move item => item end.

(** A sequence of [PushBack] calls on one vector. *)
Fixpoint PushBack_all (v : SimpleVector T) (items : list pushed)
  : outcome (SimpleVector T) :=
  match items with
  | [] => Ok v
  | by_copy item :: rest =>
      let* v' := PushBack dflt moved_from heap_limit v (outside item) in
      PushBack_all v' rest
  | by_move item :: rest =>
      let* v' :=
        PushBack_rvalue dflt moved_from self_moved heap_limit v (outside item)
      in PushBack_all v' rest
  end.

End Calls.

(** Every object of the store satisfies the class invariant. *)
Definition store_wf {T : Type} (σ : gmap nat (SimpleVector T)) : Prop :=
  forall a v, σ !! a = Some v -> wf v.

(** The call returns a value that satisfies [P], or leaves with
    [std::bad_alloc]; it has no other outcome. *)
Definition returns {A : Type} (r : outcome A) (P : A -> Prop) : Prop :=
  match r with
  | Ok a => P a
  | Throw bad_alloc => True
  | _ => False
  end.

(** A sequence of calls, run until one of them does not return. *)
Fixpoint run {T : Type} (dflt : T) (moved_from self_moved : T -> T)
         (heap_limit : Z) (cs : list (@call T))
         (σ : gmap nat (SimpleVector T))
  : outcome (gmap nat (SimpleVector T)) :=
  match cs with
  | [] => Ok σ
  | c :: rest =>
      let* σ' := exec dflt moved_from self_moved heap_limit c σ in
      run dflt moved_from self_moved heap_limit rest σ'
  end.

(** The call stays within defined behaviour: it returns, leaves with
    [std::bad_alloc], or stops at an assertion; it neither reads or writes
    outside a block nor ends in [std::terminate]. *)
Definition defined {A : Type} (r : outcome A) : Prop :=
  match r with
  | Ok _ | Throw bad_alloc | AssertFail => True
  | _ => False
  end.

(** The objects a call refers to, the one a constructor builds apart. *)
Definition call_refs {T : Type} (c : @call T) : list nat :=
  match c with
  | New_default _ | New_sized _ _ | New_fill _ _ _ | New_init _ _
  | New_reserved _ _ => []
  | New_copy _ other | New_move _ other => [other]
  | Assign_copy this rhs => [this; rhs]
  | Assign_move this other | Call_swap this other => [this; other]
  | Call_Clear this | Call_Reserve this _ | Call_Resize this _
  | Call_PushBack this _ | Call_PushBack_rvalue this _ | Call_PopBack this
  | Call_Insert this _ _ | Call_Insert_rvalue this _ _ | Call_Erase this _ =>
      [this]
  end.

(** The moves of a trivially copyable element type such as [int]: the source
    keeps its value. *)
Definition trivial_move {T : Type} (x : T) : T := x.

(** A reference argument that is bound to an object outside the vector or
    to one of its live elements. *)
Definition live_ref {T : Type} (v : SimpleVector T) (r : ref T) : Prop :=
  match r with
  | outside _ => True
  | element i => 0 <= i < size_ v
  end.

(** The value a live reference denotes when the member is called. *)
Definition ref_value {T : Type} (v : SimpleVector T) (r : ref T) : option T :=
  match r with
  | outside x => Some x
  | element i => if decide (0 <= i) then to_list v !! Z.to_nat i else None
  end.

(** What [PushBack(const Type&)] stores when its argument denoted [y] at the
    call: an element of the vector has been moved from by the time a
    reallocating call reads it. *)
Definition PushBack_reads {T : Type} (moved_from : T -> T)
           (v : SimpleVector T) (r : ref T) (y : T) : T :=
  match r with
  | outside _ => y
  | element _ =>
      if decide (size_ v + 1 <= capacity_ v) then y else moved_from y
  end.

(** Where the value that [Insert(pos, const Type&)] stores stood at the
    call: an in-place insertion shifts the elements behind [pos] before it
    reads its argument, so a reference to one of them then denotes its left
    neighbour. *)
Definition Insert_reads {T : Type} (v : SimpleVector T) (pos : Z) (r : ref T)
  : ref T :=
  match r with
  | outside _ => r
  | element i =>
      if decide (size_ v + 1 <= capacity_ v /\ pos < i) then element (i - 1)
      else r
  end.

(** The call returns a value that satisfies [P]; its behaviour is undefined
    instead only if [live] fails. *)
Definition succeeds_if {A : Type} (live : Prop) (r : outcome A)
           (P : A -> Prop) : Prop :=
  match r with
  | Ok a => P a
  | Undefined => ~ live
  | _ => False
  end.

(** As [succeeds_if], but the call may also leave with [std::bad_alloc]. *)
Definition returns_if {A : Type} (live : Prop) (r : outcome A)
           (P : A -> Prop) : Prop :=
  match r with
  | Ok a => P a
  | Throw bad_alloc => True
  | Undefined => ~ live
  | _ => False
  end.

(** The reference argument of a call, if it has one, is live in the object
    the call is made on. *)
Definition call_ref_live {T : Type} (c : @call T)
           (σ : gmap nat (SimpleVector T)) : Prop :=
  match c with
  | Call_PushBack this r | Call_PushBack_rvalue this r
  | Call_Insert this _ r | Call_Insert_rvalue this _ r =>
      forall v, σ !! this = Some v -> live_ref v r
  | _ => True
  end.
(** * Properties *)

(** ** Memory accesses and loops *)

Section MemoryFacts.
Context {T : Type}.
Variable moved_from : T -> T.
Variable self_moved : T -> T.
Implicit Types (p r : @raw_ptr T) (b : list T) (x : T).

Lemma blk_nonempty p (i : Z) :
  0 <= i < Z.of_nat (length (blk p)) -> exists b, p = Some b.
Proof.
  destruct p as [b|]; simpl; [eauto | lia].
Qed.

Lemma load_in_range p i :
  0 <= i < Z.of_nat (length (blk p)) ->
  exists x, load p i = Ok x /\ blk p !! Z.to_nat i = Some x.
Proof.
  intros Hi. destruct (blk_nonempty p i Hi) as [b ->]. simpl in *.
  destruct (lookup_lt_is_Some_2 b (Z.to_nat i)) as [x Hx]; [lia|].
  exists x. rewrite Hx. destruct (Z.leb_spec 0 i); [done | lia].
Qed.

Lemma store_in_range p i x :
  0 <= i < Z.of_nat (length (blk p)) ->
  exists r, store p i x = Ok r /\ blk r = <[Z.to_nat i := x]> (blk p).
Proof.
  intros Hi. destruct (blk_nonempty p i Hi) as [b ->]. simpl in *.
  exists (Some (<[Z.to_nat i := x]> b)).
  destruct (Z.leb_spec 0 i); [|lia].
  destruct (Z.ltb_spec i (Z.of_nat (length b))); [done | lia].
Qed.

(** A read either meets an element or leaves the block. *)
Lemma load_cases p i :
  (exists x, load p i = Ok x /\ 0 <= i < Z.of_nat (length (blk p)) /\
             blk p !! Z.to_nat i = Some x) \/
  (load p i = Undefined /\ ~ 0 <= i < Z.of_nat (length (blk p))).
Proof.
  destruct (decide (0 <= i < Z.of_nat (length (blk p)))) as [Hi|Hi].
  - left. destruct (load_in_range p i Hi) as [x [? ?]]. eauto.
  - right. split; [|done]. destruct p as [b|]; simpl in *; [|done].
    destruct (Z.leb_spec 0 i); [|done].
    rewrite lookup_ge_None_2 by lia. done.
Qed.

(** Filling [n] slots from [first] on. *)
Lemma fill_loop_spec n : forall p first x,
  0 <= first -> first + Z.of_nat n <= Z.of_nat (length (blk p)) ->
  exists r, fill_loop n p first x = Ok r /\
    length (blk r) = length (blk p) /\
    forall k : nat,
      blk r !! k =
      if decide (first <= Z.of_nat k < first + Z.of_nat n) then Some x
      else blk p !! k.
Proof.
  induction n as [|n IH]; intros p first x Hf Hl.
  - exists p. split; [done|]. split; [done|]. intros k.
    destruct (decide _); [lia | done].
  - simpl. destruct (store_in_range p first x) as [q [-> Hq]]; [lia|]. simpl.
    destruct (IH q (first + 1) x) as [r [Hr [Hlen Hk]]]; [lia| |].
    { rewrite Hq, length_insert. lia. }
    exists r. split; [done|]. split.
    { rewrite Hlen, Hq. apply length_insert. }
    intros k. rewrite Hk, Hq.
    destruct (decide (first + 1 <= _ < _)), (decide (first <= _ < _));
      try lia; try done.
    + assert (k = Z.to_nat first) as -> by lia.
      apply list_lookup_insert_eq. lia.
    + rewrite list_lookup_insert_ne by lia. done.
Qed.

(** Copying [n] elements of one block into another. *)
Lemma copy_loop_spec n : forall src first dst d_first,
  0 <= first -> first + Z.of_nat n <= Z.of_nat (length (blk src)) ->
  0 <= d_first -> d_first + Z.of_nat n <= Z.of_nat (length (blk dst)) ->
  exists r, copy_loop n src first dst d_first = Ok r /\
    length (blk r) = length (blk dst) /\
    forall k : nat,
      blk r !! k =
      if decide (d_first <= Z.of_nat k < d_first + Z.of_nat n)
      then blk src !! Z.to_nat (Z.of_nat k - d_first + first)
      else blk dst !! k.
Proof.
  induction n as [|n IH]; intros src first dst d_first Hf Hs Hd Hl.
  - exists dst. split; [done|]. split; [done|]. intros k.
    destruct (decide _); [lia | done].
  - simpl. destruct (load_in_range src first) as [x [-> Hx]]; [lia|]. simpl.
    destruct (store_in_range dst d_first x) as [q [-> Hq]]; [lia|]. simpl.
    destruct (IH src (first + 1) q (d_first + 1)) as [r [Hr [Hlen Hk]]];
      [lia | lia | lia | |].
    { rewrite Hq, length_insert. lia. }
    exists r. split; [done|]. split.
    { rewrite Hlen, Hq. apply length_insert. }
    intros k. rewrite Hk, Hq.
    destruct (decide (d_first + 1 <= _ < _)), (decide (d_first <= _ < _));
      try lia.
    + f_equal. lia.
    + assert (k = Z.to_nat d_first) as -> by lia.
      rewrite list_lookup_insert_eq by lia. rewrite <- Hx. f_equal. lia.
    + rewrite list_lookup_insert_ne by lia. done.
Qed.

(** Moving [n] elements between two blocks. *)
Lemma move_loop_spec n : forall src first dst d_first,
  0 <= first -> first + Z.of_nat n <= Z.of_nat (length (blk src)) ->
  0 <= d_first -> d_first + Z.of_nat n <= Z.of_nat (length (blk dst)) ->
  exists s r, move_loop moved_from n src first dst d_first = Ok (s, r) /\
    length (blk r) = length (blk dst) /\
    length (blk s) = length (blk src) /\
    (forall k : nat,
       blk r !! k =
       if decide (d_first <= Z.of_nat k < d_first + Z.of_nat n)
       then blk src !! Z.to_nat (Z.of_nat k - d_first + first)
       else blk dst !! k) /\
    (forall k : nat,
       blk s !! k =
       if decide (first <= Z.of_nat k < first + Z.of_nat n)
       then moved_from <$> blk src !! k
       else blk src !! k).
Proof.
  induction n as [|n IH]; intros src first dst d_first Hf Hs Hd Hl.
  - exists src, dst. split; [done|]. split_and!; try done.
    + intros k. destruct (decide _); [lia | done].
    + intros k. destruct (decide _); [lia | done].
  - simpl. destruct (load_in_range src first) as [x [-> Hx]]; [lia|]. simpl.
    destruct (store_in_range dst d_first x) as [q [-> Hq]]; [lia|]. simpl.
    destruct (store_in_range src first (moved_from x)) as [m [-> Hm]]; [lia|].
    simpl.
    destruct (IH m (first + 1) q (d_first + 1))
      as (s & r & Hr & Hrl & Hsl & Hk & Hks); [lia | | lia | |].
    { rewrite Hm, length_insert. lia. }
    { rewrite Hq, length_insert. lia. }
    exists s, r. split; [done|]. split_and!.
    + rewrite Hrl, Hq. apply length_insert.
    + rewrite Hsl, Hm. apply length_insert.
    + intros k. rewrite Hk, Hq, Hm.
      destruct (decide (d_first + 1 <= _ < _)), (decide (d_first <= _ < _));
        try lia.
      * rewrite list_lookup_insert_ne by lia. f_equal. lia.
      * assert (k = Z.to_nat d_first) as -> by lia.
        rewrite list_lookup_insert_eq by lia. rewrite <- Hx. f_equal. lia.
      * rewrite list_lookup_insert_ne by lia. done.
    + intros k. rewrite Hks, Hm.
      destruct (decide (first + 1 <= _ < _)), (decide (first <= _ < _));
        try lia.
      * rewrite list_lookup_insert_ne by lia. done.
      * assert (k = Z.to_nat first) as -> by lia.
        rewrite list_lookup_insert_eq by lia. rewrite Hx. done.
      * rewrite list_lookup_insert_ne by lia. done.
Qed.

(** [buf[d] = std::move(buf[s])] on two different slots. *)
Lemma move_assign_slot_spec p d s :
  d <> s -> 0 <= d < Z.of_nat (length (blk p)) ->
  0 <= s < Z.of_nat (length (blk p)) ->
  exists x r, blk p !! Z.to_nat s = Some x /\
    move_assign_slot moved_from self_moved p d s = Ok r /\
    blk r = <[Z.to_nat s := moved_from x]> (<[Z.to_nat d := x]> (blk p)).
Proof.
  intros Hne Hd Hs. unfold move_assign_slot.
  destruct (load_in_range p s Hs) as [x [-> Hx]]. simpl.
  destruct (Z.eqb_spec d s); [done|].
  destruct (store_in_range p d x Hd) as [q [-> Hq]]. simpl.
  destruct (store_in_range q s (moved_from x)) as [r [-> Hr]].
  { rewrite Hq, length_insert. lia. }
  exists x, r. rewrite Hr, Hq. done.
Qed.

(** [buf[d] = std::move(buf[d])]. *)
Lemma move_assign_slot_self p d :
  0 <= d < Z.of_nat (length (blk p)) ->
  exists x r, blk p !! Z.to_nat d = Some x /\
    move_assign_slot moved_from self_moved p d d = Ok r /\
    blk r = <[Z.to_nat d := self_moved x]> (blk p).
Proof.
  intros Hd. unfold move_assign_slot.
  destruct (load_in_range p d Hd) as [x [-> Hx]]. simpl.
  rewrite Z.eqb_refl.
  destruct (store_in_range p d (self_moved x) Hd) as [r [-> Hr]].
  exists x, r. done.
Qed.

(** [buf[d] = std::move(buf[s])] for a slot [d] of the block and any
    [s]. *)
Lemma move_assign_slot_cases p d s :
  0 <= d < Z.of_nat (length (blk p)) ->
  (exists x r, load p s = Ok x /\ 0 <= s < Z.of_nat (length (blk p)) /\
     blk p !! Z.to_nat s = Some x /\
     move_assign_slot moved_from self_moved p d s = Ok r /\
     blk r = if decide (d = s) then <[Z.to_nat d := self_moved x]> (blk p)
             else <[Z.to_nat s := moved_from x]> (<[Z.to_nat d := x]> (blk p))) \/
  (load p s = Undefined /\
   move_assign_slot moved_from self_moved p d s = Undefined /\
   ~ 0 <= s < Z.of_nat (length (blk p))).
Proof.
  intros Hd. destruct (load_cases p s) as [(x & Hl & Hs & Hx)|[Hl Hs]].
  - left. destruct (decide (d = s)) as [->|Hne].
    + destruct (move_assign_slot_self p s Hs) as (x' & r & Hx' & Hr & Hb).
      assert (x' = x) as -> by congruence. eauto 10.
    + destruct (move_assign_slot_spec p d s Hne Hd Hs)
        as (x' & r & Hx' & Hr & Hb).
      assert (x' = x) as -> by congruence. eauto 10.
  - right. unfold move_assign_slot. rewrite Hl. done.
Qed.

(** Moving [n] elements of a block one slot towards its beginning: the
    slot of the last one is left moved-from. *)
Lemma shift_down_loop_spec n : forall p d_first,
  0 <= d_first ->
  d_first + 1 + Z.of_nat n <= Z.of_nat (length (blk p)) ->
  exists r,
    shift_down_loop moved_from self_moved n p (d_first + 1) d_first = Ok r /\
    length (blk r) = length (blk p) /\
    forall k : nat,
      blk r !! k =
      if decide (d_first <= Z.of_nat k < d_first + Z.of_nat n)
      then blk p !! (k + 1)%nat
      else if decide (Z.of_nat k = d_first + Z.of_nat n /\ (0 < n)%nat)
           then moved_from <$> blk p !! k
           else blk p !! k.
Proof.
  induction n as [|n IH]; intros p d_first Hf Hl.
  - exists p. split; [done|]. split; [done|]. intros k.
    repeat case_decide; (lia || done).
  - simpl.
    destruct (move_assign_slot_spec p d_first (d_first + 1))
      as (x & q & Hx & -> & Hq); [lia | lia | lia |]. simpl.
    assert (Hql : length (blk q) = length (blk p))
      by (rewrite Hq, !length_insert; done).
    destruct (IH q (d_first + 1)) as (r & Hr & Hlen & Hk); [lia | lia |].
    exists r. split; [done|]. split; [lia|].
    intros k. rewrite Hk, Hq.
    rewrite !list_lookup_insert, ?length_insert.
    repeat case_decide; try lia; try done;
      match goal with
      | |- context [blk p !! ?j] =>
          replace j with (Z.to_nat (d_first + 1)) by lia
      end; rewrite Hx; done.
Qed.

(** Copying [n] elements of a block towards its end. *)
Lemma shift_up_loop_spec n : forall p last d_last,
  Z.of_nat n <= last <= d_last ->
  d_last <= Z.of_nat (length (blk p)) ->
  exists r, shift_up_loop n p last d_last = Ok r /\
    length (blk r) = length (blk p) /\
    forall k : nat,
      blk r !! k =
      if decide (d_last - Z.of_nat n <= Z.of_nat k < d_last)
      then blk p !! Z.to_nat (Z.of_nat k - d_last + last)
      else blk p !! k.
Proof.
  induction n as [|n IH]; intros p last d_last Hf Hl.
  - exists p. split; [done|]. split; [done|]. intros k.
    destruct (decide _); [lia | done].
  - simpl. destruct (load_in_range p (last - 1)) as [x [-> Hx]]; [lia|]. simpl.
    destruct (store_in_range p (d_last - 1) x) as [q [-> Hq]]; [lia|]. simpl.
    destruct (IH q (last - 1) (d_last - 1)) as [r [Hr [Hlen Hk]]]; [lia| |].
    { rewrite Hq, length_insert. lia. }
    exists r. split; [done|]. split.
    { rewrite Hlen, Hq. apply length_insert. }
    intros k. rewrite Hk, Hq.
    destruct (decide (d_last - 1 - _ <= _ < _)), (decide (d_last - _ <= _ < _));
      try lia.
    + rewrite list_lookup_insert_ne by lia. f_equal. lia.
    + assert (k = Z.to_nat (d_last - 1)) as -> by lia.
      rewrite list_lookup_insert_eq by lia. rewrite <- Hx. f_equal. lia.
    + rewrite list_lookup_insert_ne by lia. done.
Qed.

(** Moving [n] elements of a block one slot towards its end: the slot of
    the first one is left moved-from. *)
Lemma move_up_loop_spec n : forall p last,
  Z.of_nat n <= last -> last + 1 <= Z.of_nat (length (blk p)) ->
  exists r,
    move_up_loop moved_from self_moved n p last (last + 1) = Ok r /\
    length (blk r) = length (blk p) /\
    forall k : nat,
      blk r !! k =
      if decide (last - Z.of_nat n < Z.of_nat k <= last)
      then blk p !! (k - 1)%nat
      else if decide (Z.of_nat k = last - Z.of_nat n /\ (0 < n)%nat)
           then moved_from <$> blk p !! k
           else blk p !! k.
Proof.
  induction n as [|n IH]; intros p last Hf Hl.
  - exists p. split; [done|]. split; [done|]. intros k.
    repeat case_decide; (lia || done).
  - simpl.
    destruct (move_assign_slot_spec p (last + 1 - 1) (last - 1))
      as (x & q & Hx & -> & Hq); [lia | lia | lia |]. simpl.
    assert (Hql : length (blk q) = length (blk p))
      by (rewrite Hq, !length_insert; done).
    replace (last + 1 - 1) with (last - 1 + 1) by lia.
    destruct (IH q (last - 1)) as (r & Hr & Hlen & Hk); [lia | lia |].
    exists r. split; [done|]. split; [lia|].
    intros k. rewrite Hk, Hq.
    replace (Z.to_nat (last + 1 - 1)) with (Z.to_nat last) by lia.
    rewrite !list_lookup_insert, ?length_insert.
    repeat case_decide; try lia; try done;
      match goal with
      | |- context [blk p !! ?j] =>
          replace j with (Z.to_nat (last - 1)) by lia
      end; rewrite Hx; done.
Qed.

End MemoryFacts.

(** ** [size_t] arithmetic on values that fit *)

Lemma size_t_small z : 0 <= z < 2 ^ 64 -> size_t z = z.
Proof. intros H. unfold size_t. apply Z.mod_small. exact H. Qed.

Lemma PTRDIFF_MAX_val : PTRDIFF_MAX = 9223372036854775807.
Proof. reflexivity. Qed.

Lemma wf_bounds {T : Type} (v : SimpleVector T) :
  wf v ->
  0 <= size_ v /\ size_ v <= capacity_ v /\
  capacity_ v <= Z.of_nat (length (block (items_ v))) /\
  Z.of_nat (length (block (items_ v))) <= 9223372036854775807.
Proof. unfold wf. rewrite PTRDIFF_MAX_val. lia. Qed.

Lemma size_t_succ {T : Type} (v : SimpleVector T) :
  wf v -> size_t (size_ v + 1) = size_ v + 1.
Proof. intros H%wf_bounds. apply size_t_small. lia. Qed.

Lemma size_t_pred {T : Type} (v : SimpleVector T) :
  wf v -> 0 < size_ v -> size_t (size_ v - 1) = size_ v - 1.
Proof. intros H%wf_bounds ?. apply size_t_small. lia. Qed.

Lemma size_t_double {T : Type} (v : SimpleVector T) :
  wf v -> size_t (capacity_ v * 2) = 2 * capacity_ v.
Proof. intros H%wf_bounds. rewrite size_t_small; lia. Qed.

Lemma to_list_lookup {T : Type} (v : SimpleVector T) (k : nat) :
  to_list v !! k =
  if decide (Z.of_nat k < size_ v) then block (items_ v) !! k else None.
Proof.
  unfold to_list. destruct (decide _).
  - apply lookup_take_lt. lia.
  - apply lookup_take_ge. lia.
Qed.

Lemma to_list_length {T : Type} (v : SimpleVector T) :
  wf v -> Z.of_nat (length (to_list v)) = size_ v.
Proof.
  intros H%wf_bounds. unfold to_list. rewrite length_take. lia.
Qed.

(** ** Allocation *)

Section Allocation.
Context {T : Type}.
Variable dflt : T.
Variable moved_from : T -> T.
Variable heap_limit : Z.


Lemma new_array_room n :
  room heap_limit n -> new_array dflt heap_limit n = Ok (Some (replicate (Z.to_nat n) dflt)).
Proof.
  intros [H1 H2]. unfold new_array.
  destruct (Z.leb_spec n PTRDIFF_MAX); [|lia].
  destruct (Z.leb_spec n heap_limit); [done | lia].
Qed.

Lemma new_array_no_room n :
  ~ room heap_limit n -> new_array dflt heap_limit n = Throw bad_alloc.
Proof.
  intros H. unfold new_array.
  destruct (Z.leb_spec n PTRDIFF_MAX); [|done].
  destruct (Z.leb_spec n heap_limit); [|done].
  exfalso. apply H. split; lia.
Qed.

Lemma ArrayPtr_sized_room n :
  0 <= n -> n = 0 \/ room heap_limit n ->
  exists p, ArrayPtr_sized dflt heap_limit n = Ok p /\
            block p = replicate (Z.to_nat n) dflt.
Proof.
  intros Hn Hr. unfold ArrayPtr_sized.
  destruct (Z.eqb_spec n 0) as [->|Hne]; simpl.
  - eexists. split; reflexivity.
  - destruct Hr as [?|Hr]; [lia|]. rewrite new_array_room by done. simpl.
    eexists. split; reflexivity.
Qed.

Lemma ArrayPtr_sized_no_room n :
  n <> 0 -> ~ room heap_limit n -> ArrayPtr_sized dflt heap_limit n = Throw bad_alloc.
Proof.
  intros Hne Hr. unfold ArrayPtr_sized.
  destruct (Z.eqb_spec n 0); [lia|]. simpl.
  rewrite new_array_no_room by done. reflexivity.
Qed.

(** [ReallocateMove]: a block of [new_capacity] elements that starts with
    the live elements and continues with default values; the elements it
    took are left moved-from in the old block. *)
Lemma ReallocateMove_room (v : SimpleVector T) new_capacity :
  wf v -> 0 < new_capacity -> room heap_limit new_capacity ->
  exists p old,
    ReallocateMove dflt moved_from heap_limit v new_capacity = Ok (p, old) /\
    Z.of_nat (length (block p)) = new_capacity /\
    (forall k : nat,
       block p !! k =
       if decide (Z.of_nat k < Z.min new_capacity (size_ v))
       then block (items_ v) !! k
       else if decide (Z.of_nat k < new_capacity) then Some dflt else None) /\
    length (block old) = length (block (items_ v)) /\
    (forall k : nat,
       block old !! k =
       if decide (Z.of_nat k < Z.min new_capacity (size_ v))
       then moved_from <$> block (items_ v) !! k
       else block (items_ v) !! k).
Proof.
  intros Hwf%wf_bounds Hpos Hroom. unfold ReallocateMove.
  destruct (ArrayPtr_sized_room new_capacity)
    as [q [-> Hq]]; [lia|auto|].
  simpl. unfold std_move.
  destruct (Z.ltb_spec (0 + Z.min new_capacity (size_ v)) 0); [lia|].
  destruct (move_loop_spec moved_from
              (Z.to_nat (0 + Z.min new_capacity (size_ v) - 0))
              (Get (items_ v)) 0 (Get q) 0)
    as (s & r & -> & Hlen & Hslen & Hk & Hks).
  - lia.
  - unfold Get. fold (block (items_ v)). lia.
  - lia.
  - unfold Get. fold (block q). rewrite Hq, length_replicate. lia.
  - simpl. unfold ArrayPtr_adopt. eexists _, _. split; [reflexivity|].
    unfold block, Get in *; simpl.
    fold (block q) in *. fold (block (items_ v)) in *.
    split_and!.
    + rewrite Hlen, Hq, length_replicate. lia.
    + intros k. rewrite Hk, Hq.
      repeat case_decide; try lia.
      * f_equal. lia.
      * apply lookup_replicate_2. lia.
      * apply lookup_replicate_None. lia.
    + exact Hslen.
    + intros k. rewrite Hks.
      repeat case_decide; (lia || done).
Qed.

Lemma ReallocateMove_no_room (v : SimpleVector T) new_capacity :
  0 < new_capacity -> ~ room heap_limit new_capacity ->
  ReallocateMove dflt moved_from heap_limit v new_capacity = Throw bad_alloc.
Proof.
  intros Hpos Hroom. unfold ReallocateMove.
  rewrite ArrayPtr_sized_no_room by (done || lia). reflexivity.
Qed.

End Allocation.

(** ** The mutators of one object *)

Section Mutators.
Context {T : Type}.
Variable dflt : T.
Variable moved_from : T -> T.
Variable self_moved : T -> T.
Variable heap_limit : Z.
Implicit Types (v : SimpleVector T) (x y : T).

(** *** Reference arguments *)

Lemma read_ref_cases (buf : raw_ptr) r :
  (exists y, read_ref buf r = Ok y /\
     match r with
     | outside x => y = x
     | element i => 0 <= i < Z.of_nat (length (blk buf)) /\
                    blk buf !! Z.to_nat i = Some y
     end) \/
  (read_ref buf r = Undefined /\
   match r with
   | outside _ => False
   | element i => ~ 0 <= i < Z.of_nat (length (blk buf))
   end).
Proof.
  destruct r as [x|i]; simpl.
  - left. eauto.
  - destruct (load_cases buf i) as [(x & ? & ? & ?)|[? ?]]; eauto 10.
Qed.

Lemma move_from_ref_cases (buf : raw_ptr) r :
  (exists y buf', read_ref buf r = Ok y /\
     move_from_ref moved_from buf r = Ok (y, buf') /\
     length (blk buf') = length (blk buf)) \/
  (read_ref buf r = Undefined /\ move_from_ref moved_from buf r = Undefined).
Proof.
  destruct r as [x|i]; simpl.
  - left. eauto.
  - destruct (load_cases buf i) as [(x & -> & Hi & Hx)|[-> ?]]; [|by right].
    left. simpl.
    destruct (store_in_range buf i (moved_from x) Hi) as [q [-> Hq]].
    exists x, q. simpl. rewrite Hq, length_insert. done.
Qed.

Lemma move_into_cases (buf : raw_ptr) d r :
  0 <= d < Z.of_nat (length (blk buf)) ->
  (exists y buf', read_ref buf r = Ok y /\
     move_into moved_from self_moved buf d r = Ok buf' /\
     length (blk buf') = length (blk buf) /\
     blk buf' =
     match r with
     | outside _ => <[Z.to_nat d := y]> (blk buf)
     | element i =>
         if decide (d = i) then <[Z.to_nat d := self_moved y]> (blk buf)
         else <[Z.to_nat i := moved_from y]> (<[Z.to_nat d := y]> (blk buf))
     end) \/
  (read_ref buf r = Undefined /\
   move_into moved_from self_moved buf d r = Undefined).
Proof.
  intros Hd. destruct r as [x|i]; simpl.
  - left. destruct (store_in_range buf d x Hd) as [q [-> Hq]].
    exists x, q. rewrite Hq, length_insert. done.
  - destruct (move_assign_slot_cases moved_from self_moved buf d i Hd)
      as [(x & q & -> & Hi & Hx & -> & Hq)|(-> & -> & ?)]; [|by right].
    left. exists x, q. split_and!; try done.
    rewrite Hq. case_decide; rewrite ?length_insert; done.
Qed.

Lemma ref_value_Some v r y :
  ref_value v r = Some y ->
  match r with
  | outside x => y = x
  | element i => 0 <= i < size_ v /\ block (items_ v) !! Z.to_nat i = Some y
  end.
Proof.
  destruct r as [x|i]; simpl; [congruence|].
  case_decide; [|done]. rewrite to_list_lookup. case_decide; [|done].
  intros ?. split; [lia | done].
Qed.

Lemma ref_value_live v r :
  wf v -> live_ref v r -> exists y, ref_value v r = Some y.
Proof.
  intros Hwf%wf_bounds Hlive. destruct r as [x|i]; simpl in *; [eauto|].
  case_decide; [|lia]. rewrite to_list_lookup. case_decide; [|lia].
  apply lookup_lt_is_Some_2. lia.
Qed.

Lemma succeeds_if_Ok {A : Type} (live : Prop) (o : outcome A) P :
  succeeds_if live o P -> live -> exists a, o = Ok a /\ P a.
Proof. destruct o as [a|[]| | |]; simpl; try done. eauto. Qed.

Lemma succeeds_if_inv {A : Type} (live : Prop) (o : outcome A) P a :
  succeeds_if live o P -> o = Ok a -> P a.
Proof. intros H ->. exact H. Qed.

Lemma succeeds_if_weaken {A : Type} (live : Prop) (o : outcome A)
      (P Q : A -> Prop) :
  (forall a, P a -> Q a) -> succeeds_if live o P -> succeeds_if live o Q.
Proof. intros HPQ. destruct o as [a|[]| | |]; simpl; auto. Qed.

Lemma succeeds_returns_if {A : Type} (live : Prop) (o : outcome A) P :
  succeeds_if live o P -> returns_if live o P.
Proof. destruct o as [a|[]| | |]; simpl; auto. Qed.

Lemma returns_if_live {A : Type} (live : Prop) (o : outcome A) P :
  returns_if live o P -> live -> returns o P.
Proof. destruct o as [a|[]| | |]; simpl; auto. Qed.

Lemma returns_if_inv {A : Type} (live : Prop) (o : outcome A) P a :
  returns_if live o P -> o = Ok a -> P a.
Proof. intros H ->. exact H. Qed.

Lemma returns_if_weaken {A : Type} (live : Prop) (o : outcome A)
      (P Q : A -> Prop) :
  (forall a, P a -> Q a) -> returns_if live o P -> returns_if live o Q.
Proof. intros HPQ. destruct o as [a|[]| | |]; simpl; auto. Qed.

(** *** [PushBack] *)

Lemma PushBack_fit v r :
  wf v -> size_ v + 1 <= capacity_ v ->
  succeeds_if (live_ref v r) (PushBack dflt moved_from heap_limit v r)
    (fun v' =>
       size_ v' = size_ v + 1 /\ capacity_ v' = capacity_ v /\ wf v' /\
       exists y,
         block (items_ v') = <[Z.to_nat (size_ v) := y]> (block (items_ v)) /\
         forall y', ref_value v r = Some y' -> y = y').
Proof.
  intros Hwf Hfit. pose proof (wf_bounds v Hwf) as Hb.
  unfold PushBack. rewrite size_t_succ by done.
  destruct (Z.ltb_spec (capacity_ v) (size_ v + 1)); [lia|].
  unfold block, Get in *.
  destruct (read_ref_cases (_rawPtr (items_ v)) r) as [(y & -> & Hy)|[-> Hd]].
  - cbn [bind].
    destruct (store_in_range (_rawPtr (items_ v)) (size_ v) y) as [q [-> Hq]];
      [lia|].
    simpl. unfold wf, block. simpl.
    rewrite Hq, length_insert, PTRDIFF_MAX_val. split_and!; try lia.
    exists y. split; [done|]. intros y' Hy'%ref_value_Some.
    destruct r; [congruence|]. unfold block in *.
    destruct Hy, Hy'. congruence.
  - simpl. destruct r as [x|i]; [done|]. simpl. lia.
Qed.

Lemma PushBack_grow v r :
  wf v -> capacity_ v < size_ v + 1 ->
  room heap_limit (growth_policy v (size_ v + 1)) ->
  succeeds_if (live_ref v r) (PushBack dflt moved_from heap_limit v r)
    (fun v' =>
       size_ v' = size_ v + 1 /\
       capacity_ v' = growth_policy v (size_ v + 1) /\ wf v' /\
       Z.of_nat (length (block (items_ v'))) =
       growth_policy v (size_ v + 1) /\
       exists y,
         (forall k : nat,
            Z.of_nat k < size_ v + 1 ->
            block (items_ v') !! k =
            if decide (Z.of_nat k = size_ v) then Some y
            else block (items_ v) !! k) /\
         forall y', ref_value v r = Some y' ->
                    y = PushBack_reads moved_from v r y').
Proof.
  intros Hwf Hgrow Hroom. pose proof (wf_bounds v Hwf) as Hb.
  unfold PushBack. rewrite size_t_succ, size_t_double by done.
  fold (growth_policy v (size_ v + 1)).
  destruct (Z.ltb_spec (capacity_ v) (size_ v + 1)); [|lia].
  assert (Hg : size_ v + 1 <= growth_policy v (size_ v + 1))
    by (unfold growth_policy; lia).
  destruct (ReallocateMove_room dflt moved_from heap_limit v
              (growth_policy v (size_ v + 1)))
    as (p & old & -> & Hlen & Hk & Hol & Hold); [done | lia | done |].
  unfold block, Get in *. cbn [bind fst snd].
  destruct (read_ref_cases (_rawPtr old) r) as [(y & -> & Hy)|[-> Hd]].
  - cbn [bind].
    destruct (store_in_range (_rawPtr p) (size_ v) y) as [q [-> Hq]]; [lia|].
    simpl. destruct Hroom as [Hr _]. rewrite PTRDIFF_MAX_val in Hr.
    unfold wf, block. simpl. rewrite Hq, length_insert, PTRDIFF_MAX_val.
    split_and!; try lia.
    exists y. split.
    + intros k Hlt. case_decide.
      * assert (k = Z.to_nat (size_ v)) as -> by lia.
        apply list_lookup_insert_eq. lia.
      * rewrite list_lookup_insert_ne by lia. rewrite Hk.
        repeat case_decide; (lia || done).
    + intros y' Hy'%ref_value_Some. unfold PushBack_reads.
      destruct r as [x|i]; [congruence|]. unfold block in *.
      destruct Hy as [_ Hy], Hy' as [Hi Hy']. rewrite Hold in Hy.
      case_decide; [|lia]. rewrite Hy' in Hy. simpl in Hy.
      case_decide; [lia|]. congruence.
  - simpl. destruct r as [x|i]; [done|]. simpl. lia.
Qed.

Lemma PushBack_no_room v r :
  wf v -> capacity_ v < size_ v + 1 ->
  ~ room heap_limit (growth_policy v (size_ v + 1)) ->
  PushBack dflt moved_from heap_limit v r = Throw bad_alloc.
Proof.
  intros Hwf Hgrow Hroom. pose proof (wf_bounds v Hwf) as Hb.
  unfold PushBack. rewrite size_t_succ, size_t_double by done.
  fold (growth_policy v (size_ v + 1)).
  destruct (Z.ltb_spec (capacity_ v) (size_ v + 1)); [|lia].
  rewrite ReallocateMove_no_room; [done | unfold growth_policy; lia | done].
Qed.

(** When they reallocate, the two overloads of [PushBack] build the same
    vector: the block the rvalue overload moves its argument out of is the
    one it gives up. *)
Lemma PushBack_rvalue_grow_eq v r :
  capacity_ v < size_t (size_ v + 1) ->
  PushBack_rvalue dflt moved_from self_moved heap_limit v r =
  PushBack dflt moved_from heap_limit v r.
Proof.
  intros Hgrow. unfold PushBack_rvalue, PushBack.
  destruct (Z.ltb_spec (capacity_ v) (size_t (size_ v + 1))); [|lia].
  destruct (ReallocateMove _ _ _ _ _) as [[p old]|e| | |]; try done.
  cbn [bind fst snd].
  destruct (move_from_ref_cases (Get old) r)
    as [(y & buf' & -> & -> & _)|[-> ->]]; done.
Qed.

Lemma PushBack_rvalue_fit v r :
  wf v -> size_ v + 1 <= capacity_ v ->
  succeeds_if (live_ref v r)
    (PushBack_rvalue dflt moved_from self_moved heap_limit v r)
    (fun v' =>
       size_ v' = size_ v + 1 /\ capacity_ v' = capacity_ v /\ wf v' /\
       forall y, ref_value v r = Some y ->
         block (items_ v') =
         match r with
         | outside _ => <[Z.to_nat (size_ v) := y]> (block (items_ v))
         | element i =>
             <[Z.to_nat i := moved_from y]>
               (<[Z.to_nat (size_ v) := y]> (block (items_ v)))
         end).
Proof.
  intros Hwf Hfit. pose proof (wf_bounds v Hwf) as Hb.
  unfold PushBack_rvalue. rewrite size_t_succ by done.
  destruct (Z.ltb_spec (capacity_ v) (size_ v + 1)); [lia|].
  unfold block, Get in *.
  destruct (move_into_cases (_rawPtr (items_ v)) (size_ v) r)
    as [(y & q & Hy & -> & Hql & Hq)|[Hy ->]]; [lia | |].
  - simpl. unfold wf, block. simpl. rewrite Hql, PTRDIFF_MAX_val.
    split_and!; try lia.
    intros y' Hy'%ref_value_Some. rewrite Hq.
    destruct r as [x|i]; simpl in Hy.
    + congruence.
    + destruct Hy' as [Hi Hy']. unfold block in Hy'.
      destruct (load_cases (_rawPtr (items_ v)) i)
        as [(z & Hz & _ & Hz')|[Hz _]]; [|congruence].
      assert (y' = y) as -> by congruence.
      case_decide; [lia | done].
  - simpl. destruct (read_ref_cases (_rawPtr (items_ v)) r)
      as [(y & Hy' & _)|[_ Hd]]; [congruence|].
    destruct r as [x|i]; [done|]. simpl. lia.
Qed.

Lemma Reserve_grow v new_capacity :
  wf v -> capacity_ v < new_capacity -> room heap_limit new_capacity ->
  exists v', Reserve dflt moved_from heap_limit v new_capacity = Ok v' /\
    size_ v' = size_ v /\ capacity_ v' = new_capacity /\ wf v' /\
    to_list v' = to_list v.
Proof.
  intros Hwf Hgrow Hroom. pose proof (wf_bounds v Hwf) as Hb.
  unfold Reserve.
  destruct (Z.ltb_spec (capacity_ v) new_capacity); [|lia].
  destruct (ReallocateMove_room dflt moved_from heap_limit v new_capacity)
    as (p & old & -> & Hlen & Hk & _); [done | lia | done |].
  simpl. eexists. split; [reflexivity|].
  destruct Hroom as [Hr _]. rewrite PTRDIFF_MAX_val in Hr.
  unfold wf. simpl. destruct p as [q]. unfold block in *. simpl in *.
  rewrite PTRDIFF_MAX_val. repeat split; try lia.
  apply list_eq. intros k. rewrite !to_list_lookup. unfold block. simpl.
  case_decide; [|done]. rewrite Hk. case_decide; [done | lia].
Qed.

Lemma Reserve_no_room v new_capacity :
  wf v -> capacity_ v < new_capacity -> ~ room heap_limit new_capacity ->
  Reserve dflt moved_from heap_limit v new_capacity = Throw bad_alloc.
Proof.
  intros Hwf Hgrow Hroom. pose proof (wf_bounds v Hwf) as Hb.
  unfold Reserve.
  destruct (Z.ltb_spec (capacity_ v) new_capacity); [|lia].
  rewrite ReallocateMove_no_room; [done | lia | done].
Qed.

Lemma Reserve_enough v new_capacity :
  new_capacity <= capacity_ v ->
  Reserve dflt moved_from heap_limit v new_capacity = Ok v.
Proof.
  intros H. unfold Reserve.
  destruct (Z.ltb_spec (capacity_ v) new_capacity); [lia | done].
Qed.

Lemma FillWithDefaultValue_spec (p : raw_ptr) from to :
  0 <= from <= to -> to <= Z.of_nat (length (blk p)) ->
  exists r, FillWithDefaultValue dflt p from to = Ok r /\
    length (blk r) = length (blk p) /\
    forall k : nat,
      blk r !! k =
      if decide (from <= Z.of_nat k < to) then Some dflt else blk p !! k.
Proof.
  intros Hf Ht. unfold FillWithDefaultValue.
  destruct (Z.ltb_spec to from); [lia|].
  destruct (fill_loop_spec (Z.to_nat (to - from)) p from dflt)
    as [r [-> [Hlen Hk]]]; [lia | lia |].
  exists r. split; [done|]. split; [done|].
  intros k. rewrite Hk. repeat case_decide; (lia || done).
Qed.


Lemma Resize_grow v new_size :
  wf v -> capacity_ v < new_size ->
  room heap_limit (growth_policy v new_size) ->
  exists v', Resize dflt moved_from heap_limit v new_size = Ok v' /\
    size_ v' = new_size /\ capacity_ v' = growth_policy v new_size /\ wf v' /\
    (forall k, to_list v' !! k = resized dflt v new_size k) /\
    Z.of_nat (length (block (items_ v'))) = growth_policy v new_size.
Proof.
  intros Hwf Hgrow Hroom. pose proof (wf_bounds v Hwf) as Hb.
  unfold Resize. rewrite size_t_double by done. fold (growth_policy v new_size).
  destruct (Z.ltb_spec (capacity_ v) new_size); [|lia].
  assert (Hg : new_size <= growth_policy v new_size)
    by (unfold growth_policy; lia).
  destruct (ReallocateMove_room dflt moved_from heap_limit v
              (growth_policy v new_size))
    as (p & old & -> & Hlen & Hk & _); [done | lia | done |].
  unfold block, Get in *. simpl.
  destruct (FillWithDefaultValue_spec (_rawPtr p) (size_ v) new_size)
    as [r [-> [Hrl Hr]]]; [lia | lia |].
  simpl. eexists. split; [reflexivity|].
  destruct Hroom as [Hroom _]. rewrite PTRDIFF_MAX_val in Hroom.
  unfold wf, block. simpl. rewrite Hrl, PTRDIFF_MAX_val.
  repeat split; try lia.
  intros k. rewrite to_list_lookup. unfold resized, block. simpl.
  rewrite Hr, Hk. repeat case_decide; (lia || done).
Qed.

Lemma Resize_no_room v new_size :
  wf v -> capacity_ v < new_size ->
  ~ room heap_limit (growth_policy v new_size) ->
  Resize dflt moved_from heap_limit v new_size = Throw bad_alloc.
Proof.
  intros Hwf Hgrow Hroom. pose proof (wf_bounds v Hwf) as Hb.
  unfold Resize. rewrite size_t_double by done. fold (growth_policy v new_size).
  destruct (Z.ltb_spec (capacity_ v) new_size); [|lia].
  rewrite ReallocateMove_no_room;
    [done | unfold growth_policy; lia | done].
Qed.

Lemma Resize_within v new_size :
  wf v -> 0 <= new_size <= capacity_ v ->
  exists v', Resize dflt moved_from heap_limit v new_size = Ok v' /\
    size_ v' = new_size /\ capacity_ v' = capacity_ v /\ wf v' /\
    forall k, to_list v' !! k = resized dflt v new_size k.
Proof.
  intros Hwf Hin. pose proof (wf_bounds v Hwf) as Hb.
  unfold Resize.
  destruct (Z.ltb_spec (capacity_ v) new_size); [lia|].
  destruct (Z.ltb_spec (size_ v) new_size).
  - destruct (Z.leb_spec new_size (capacity_ v)); [|lia]. simpl.
    unfold block, Get in *.
    destruct (FillWithDefaultValue_spec (_rawPtr (items_ v)) (size_ v) new_size)
      as [r [-> [Hrl Hr]]]; [lia | lia |].
    simpl. eexists. split; [reflexivity|].
    unfold wf, block. simpl. rewrite Hrl, PTRDIFF_MAX_val.
    repeat split; try lia.
    intros k. rewrite to_list_lookup. unfold resized, block. simpl.
    rewrite Hr. repeat case_decide; (lia || done).
  - eexists. split; [reflexivity|].
    unfold wf, block in *. simpl. rewrite PTRDIFF_MAX_val.
    repeat split; try lia.
    intros k. rewrite to_list_lookup. unfold resized, block. simpl.
    repeat case_decide; (lia || done).
Qed.

Lemma PopBack_spec v :
  wf v -> 0 < size_ v ->
  exists v', PopBack v = Ok v' /\
    size_ v' = size_ v - 1 /\ capacity_ v' = capacity_ v /\ wf v' /\
    items_ v' = items_ v.
Proof.
  intros Hwf Hpos. pose proof (wf_bounds v Hwf) as Hb.
  unfold PopBack, IsEmpty. rewrite size_t_pred by done.
  destruct (Z.eqb_spec (size_ v) 0); [lia|]. simpl.
  eexists. split; [reflexivity|].
  unfold wf, block in *. simpl. rewrite PTRDIFF_MAX_val.
  repeat split; lia.
Qed.

Lemma Clear_spec v :
  wf v ->
  size_ (Clear v) = 0 /\ capacity_ (Clear v) = capacity_ v /\
  items_ (Clear v) = items_ v /\ wf (Clear v).
Proof.
  intros Hwf%wf_bounds. unfold wf, Clear, block in *. simpl.
  rewrite PTRDIFF_MAX_val. repeat split; lia.
Qed.


(** *** [Insert] *)

Lemma Insert_fit v pos r :
  wf v -> 0 <= pos <= size_ v -> size_ v + 1 <= capacity_ v ->
  succeeds_if (live_ref v r) (Insert dflt heap_limit v pos r)
    (fun res =>
       fst res = pos /\ size_ (snd res) = size_ v + 1 /\
       capacity_ (snd res) = capacity_ v /\ wf (snd res) /\
       exists y,
         (forall k, to_list (snd res) !! k = inserted v pos y k) /\
         forall y', ref_value v (Insert_reads v pos r) = Some y' -> y = y').
Proof.
  intros Hwf Hpos Hfit. pose proof (wf_bounds v Hwf) as Hb.
  unfold Insert, begin, end_, cbegin, cend.
  destruct (Z.leb_spec 0 pos); [|lia].
  destruct (Z.leb_spec pos (size_ v)); [|lia]. cbn [andb assert bind].
  rewrite size_t_succ by done. rewrite (size_t_small (pos - 0)) by lia.
  destruct (Z.leb_spec (size_ v + 1) (capacity_ v)); [|lia].
  unfold std_copy_backward, block, Get in *.
  destruct (Z.ltb_spec (size_ v) pos); [lia|].
  destruct (shift_up_loop_spec (Z.to_nat (size_ v - pos))
              (_rawPtr (items_ v)) (size_ v) (size_ v + 1))
    as [sh [-> [Hrl Hr]]]; [lia | lia |].
  cbn [bind].
  destruct (read_ref_cases sh r) as [(y & -> & Hy)|[-> Hd]].
  - cbn [bind].
    destruct (store_in_range sh (0 + (pos - 0)) y) as [q [-> Hq]]; [lia|].
    simpl. split; [lia|].
    unfold wf, block. simpl. rewrite Hq, length_insert, Hrl, PTRDIFF_MAX_val.
    split_and!; try lia.
    exists y. split.
    + intros k. rewrite to_list_lookup. unfold inserted, block. simpl.
      rewrite Hq.
      repeat case_decide; try lia.
      * rewrite list_lookup_insert_ne by lia. rewrite Hr.
        case_decide; [lia | done].
      * assert (k = Z.to_nat (0 + (pos - 0))) as -> by lia.
        apply list_lookup_insert_eq. lia.
      * rewrite list_lookup_insert_ne by lia. rewrite Hr.
        case_decide; [|lia]. f_equal. lia.
      * done.
    + intros y'. unfold Insert_reads. destruct r as [x|i]; [simpl; congruence|].
      destruct Hy as [Hi Hy]. rewrite Hr in Hy.
      destruct (decide (size_ v + 1 <= capacity_ v /\ pos < i)) as [[_ ?]|?];
        intros Hy'%ref_value_Some; simpl in Hy'; destruct Hy' as [Hi' Hy'];
        unfold block in Hy'.
      * case_decide; [|lia].
        replace (Z.to_nat (Z.of_nat (Z.to_nat i) - (size_ v + 1) + size_ v))
          with (Z.to_nat (i - 1)) in Hy by lia.
        congruence.
      * case_decide; [lia|]. congruence.
  - simpl. destruct r as [x|i]; [done|]. simpl. lia.
Qed.

Lemma Insert_grow v pos r :
  wf v -> 0 <= pos <= size_ v -> capacity_ v < size_ v + 1 ->
  room heap_limit (growth_policy v (size_ v + 1)) ->
  succeeds_if (live_ref v r) (Insert dflt heap_limit v pos r)
    (fun res =>
       fst res = pos /\ size_ (snd res) = size_ v + 1 /\
       capacity_ (snd res) = growth_policy v (size_ v + 1) /\
       wf (snd res) /\
       Z.of_nat (length (block (items_ (snd res)))) =
       growth_policy v (size_ v + 1) /\
       exists y,
         (forall k, to_list (snd res) !! k = inserted v pos y k) /\
         forall y', ref_value v (Insert_reads v pos r) = Some y' -> y = y').
Proof.
  intros Hwf Hpos Hgrow Hroom. pose proof (wf_bounds v Hwf) as Hb.
  unfold Insert, begin, end_, cbegin, cend.
  destruct (Z.leb_spec 0 pos); [|lia].
  destruct (Z.leb_spec pos (size_ v)); [|lia]. cbn [andb assert bind].
  rewrite size_t_succ, size_t_double by done.
  rewrite (size_t_small (pos - 0)) by lia.
  fold (growth_policy v (size_ v + 1)).
  assert (Hg : size_ v + 1 <= growth_policy v (size_ v + 1))
    by (unfold growth_policy; lia).
  destruct (Z.leb_spec (size_ v + 1) (capacity_ v)); [lia|].
  destruct (ArrayPtr_sized_room dflt heap_limit
              (growth_policy v (size_ v + 1)))
    as [p [-> Hp]]; [lia | auto |].
  cbn [bind]. unfold std_copy, block, Get in *.
  destruct (Z.ltb_spec pos 0); [lia|].
  destruct (copy_loop_spec (Z.to_nat (pos - 0)) (_rawPtr (items_ v)) 0
              (_rawPtr p) 0) as [h [-> [Hhl Hh]]]; [lia | lia | lia | |].
  { rewrite Hp, length_replicate. lia. }
  cbn [bind]. rewrite Hp, length_replicate in Hhl.
  destruct (read_ref_cases (_rawPtr (items_ v)) r) as [(y & -> & Hy)|[-> Hd]].
  - cbn [bind].
    destruct (store_in_range h (0 + (pos - 0)) y) as [w [-> Hw]]; [lia|].
    cbn [bind].
    destruct (Z.ltb_spec (size_ v) pos); [lia|].
    destruct (copy_loop_spec (Z.to_nat (size_ v - pos)) (_rawPtr (items_ v))
                pos w (0 + (pos - 0) + 1)) as [t [-> [Htl Ht]]];
      [lia | lia | lia | |].
    { rewrite Hw, length_insert. lia. }
    simpl. split; [lia|].
    destruct Hroom as [Hroom _]. rewrite PTRDIFF_MAX_val in Hroom.
    unfold wf, block. simpl. rewrite Htl, Hw, length_insert, PTRDIFF_MAX_val.
    split_and!; try lia.
    exists y. split.
    + intros k. rewrite to_list_lookup. unfold inserted, block. simpl.
      rewrite Ht, Hw.
      repeat case_decide; try lia.
      * f_equal. lia.
      * rewrite list_lookup_insert_ne by lia. rewrite Hh.
        case_decide; [|lia]. f_equal. lia.
      * assert (k = Z.to_nat (0 + (pos - 0))) as -> by lia.
        apply list_lookup_insert_eq. lia.
      * done.
    + intros y'. unfold Insert_reads. destruct r as [x|i]; [simpl; congruence|].
      case_decide; [lia|]. intros Hy'%ref_value_Some. simpl in Hy'.
      destruct Hy' as [Hi' Hy']. unfold block in Hy'. destruct Hy. congruence.
  - simpl. destruct r as [x|i]; [done|]. simpl. lia.
Qed.

Lemma Insert_no_room v pos r :
  wf v -> 0 <= pos <= size_ v -> capacity_ v < size_ v + 1 ->
  ~ room heap_limit (growth_policy v (size_ v + 1)) ->
  Insert dflt heap_limit v pos r = Throw bad_alloc.
Proof.
  intros Hwf Hpos Hgrow Hroom. pose proof (wf_bounds v Hwf) as Hb.
  unfold Insert, begin, end_, cbegin, cend.
  destruct (Z.leb_spec 0 pos); [|lia].
  destruct (Z.leb_spec pos (size_ v)); [|lia]. simpl.
  rewrite size_t_succ, size_t_double by done.
  fold (growth_policy v (size_ v + 1)).
  destruct (Z.leb_spec (size_ v + 1) (capacity_ v)); [lia|].
  rewrite ArrayPtr_sized_no_room;
    [done | unfold growth_policy; lia | done].
Qed.

Lemma Insert_rvalue_fit v pos r :
  wf v -> 0 <= pos <= size_ v -> size_ v + 1 <= capacity_ v ->
  succeeds_if (live_ref v r)
    (Insert_rvalue dflt moved_from self_moved heap_limit v pos r)
    (fun res =>
       fst res = pos /\ size_ (snd res) = size_ v + 1 /\
       capacity_ (snd res) = capacity_ v /\ wf (snd res) /\
       forall x, r = outside x ->
         forall k, to_list (snd res) !! k = inserted v pos x k).
Proof.
  intros Hwf Hpos Hfit. pose proof (wf_bounds v Hwf) as Hb.
  unfold Insert_rvalue, begin, end_, cbegin, cend.
  destruct (Z.leb_spec 0 pos); [|lia].
  destruct (Z.leb_spec pos (size_ v)); [|lia]. cbn [andb assert bind].
  rewrite size_t_succ by done. rewrite (size_t_small (pos - 0)) by lia.
  destruct (Z.leb_spec (size_ v + 1) (capacity_ v)); [|lia].
  unfold std_move_backward, block, Get in *.
  destruct (Z.ltb_spec (size_ v) (0 + (pos - 0))); [lia|].
  destruct (move_up_loop_spec moved_from self_moved
              (Z.to_nat (size_ v - (0 + (pos - 0))))
              (_rawPtr (items_ v)) (size_ v))
    as [sh [-> [Hrl Hr]]]; [lia | lia |].
  cbn [bind].
  destruct (move_into_cases sh (0 + (pos - 0)) r)
    as [(y & q & Hy & -> & Hql & Hq)|[Hy ->]]; [lia | |].
  - simpl. split; [lia|].
    unfold wf, block. simpl. rewrite Hql, Hrl, PTRDIFF_MAX_val.
    split_and!; try lia.
    intros x ->. simpl in Hy. assert (y = x) as -> by congruence.
    intros k. rewrite to_list_lookup. unfold inserted, block. simpl.
    rewrite Hq, list_lookup_insert, Hr, Hrl.
    repeat case_decide; try lia; try done; f_equal; lia.
  - simpl. destruct (read_ref_cases sh r) as [(y & Hy' & _)|[_ Hd]];
      [congruence|].
    destruct r as [x|i]; [done|]. simpl. lia.
Qed.

Lemma Insert_rvalue_grow v pos r :
  wf v -> 0 <= pos <= size_ v -> capacity_ v < size_ v + 1 ->
  room heap_limit (growth_policy v (size_ v + 1)) ->
  succeeds_if (live_ref v r)
    (Insert_rvalue dflt moved_from self_moved heap_limit v pos r)
    (fun res =>
       fst res = pos /\ size_ (snd res) = size_ v + 1 /\
       capacity_ (snd res) = growth_policy v (size_ v + 1) /\
       wf (snd res) /\
       Z.of_nat (length (block (items_ (snd res)))) =
       growth_policy v (size_ v + 1) /\
       forall x, r = outside x ->
         forall k, to_list (snd res) !! k = inserted v pos x k).
Proof.
  intros Hwf Hpos Hgrow Hroom. pose proof (wf_bounds v Hwf) as Hb.
  unfold Insert_rvalue, begin, end_, cbegin, cend.
  destruct (Z.leb_spec 0 pos); [|lia].
  destruct (Z.leb_spec pos (size_ v)); [|lia]. cbn [andb assert bind].
  rewrite size_t_succ, size_t_double by done.
  rewrite (size_t_small (pos - 0)) by lia.
  fold (growth_policy v (size_ v + 1)).
  assert (Hg : size_ v + 1 <= growth_policy v (size_ v + 1))
    by (unfold growth_policy; lia).
  destruct (Z.leb_spec (size_ v + 1) (capacity_ v)); [lia|].
  destruct (ArrayPtr_sized_room dflt heap_limit
              (growth_policy v (size_ v + 1)))
    as [p [-> Hp]]; [lia | auto |].
  cbn [bind]. unfold std_move, block, Get in *.
  destruct (Z.ltb_spec (0 + (pos - 0)) 0); [lia|].
  destruct (move_loop_spec moved_from (Z.to_nat (0 + (pos - 0) - 0))
              (_rawPtr (items_ v)) 0 (_rawPtr p) 0)
    as (s & h & -> & Hhl & Hsl & Hh & Hs); [lia | lia | lia | |].
  { rewrite Hp, length_replicate. lia. }
  cbn [bind fst snd]. rewrite Hp, length_replicate in Hhl.
  destruct (move_from_ref_cases s r)
    as [(y & s' & Hy & Hm & Hsl')|[Hy ->]].
  - rewrite Hm. cbn [bind fst snd].
    destruct (store_in_range h (0 + (pos - 0)) y) as [w [-> Hw]]; [lia|].
    cbn [bind].
    destruct (Z.ltb_spec (size_ v) (0 + (pos - 0))); [lia|].
    destruct (move_loop_spec moved_from
                (Z.to_nat (size_ v - (0 + (pos - 0))))
                s' (0 + (pos - 0)) w (0 + (pos - 0) + 1))
      as (s'' & t & -> & Htl & _ & Ht & _); [lia | lia | lia | |].
    { rewrite Hw, length_insert. lia. }
    simpl. split; [lia|].
    destruct Hroom as [Hroom _]. rewrite PTRDIFF_MAX_val in Hroom.
    unfold wf, block. simpl. rewrite Htl, Hw, length_insert, PTRDIFF_MAX_val.
    split_and!; try lia.
    intros x ->. simpl in Hy, Hm. assert (y = x) as -> by congruence.
    assert (s' = s) as -> by congruence.
    intros k. rewrite to_list_lookup. unfold inserted, block. simpl.
    rewrite Ht, Hw.
    repeat case_decide; try lia.
    + rewrite Hs. case_decide; [lia|]. f_equal. lia.
    + rewrite list_lookup_insert_ne by lia. rewrite Hh.
      case_decide; [|lia]. f_equal. lia.
    + assert (k = Z.to_nat (0 + (pos - 0))) as -> by lia.
      apply list_lookup_insert_eq. lia.
    + done.
  - simpl. destruct (read_ref_cases s r) as [(y & Hy' & _)|[_ Hd]];
      [congruence|].
    destruct r as [x|i]; [done|]. simpl. lia.
Qed.

Lemma Insert_rvalue_no_room v pos r :
  wf v -> 0 <= pos <= size_ v -> capacity_ v < size_ v + 1 ->
  ~ room heap_limit (growth_policy v (size_ v + 1)) ->
  Insert_rvalue dflt moved_from self_moved heap_limit v pos r
  = Throw bad_alloc.
Proof.
  intros Hwf Hpos Hgrow Hroom. pose proof (wf_bounds v Hwf) as Hb.
  unfold Insert_rvalue, begin, end_, cbegin, cend.
  destruct (Z.leb_spec 0 pos); [|lia].
  destruct (Z.leb_spec pos (size_ v)); [|lia]. simpl.
  rewrite size_t_succ, size_t_double by done.
  fold (growth_policy v (size_ v + 1)).
  destruct (Z.leb_spec (size_ v + 1) (capacity_ v)); [lia|].
  rewrite ArrayPtr_sized_no_room;
    [done | unfold growth_policy; lia | done].
Qed.

(** *** [Erase] *)

(** [Erase] keeps the elements before [pos], moves the later ones one slot
    down, and leaves the slot behind the new end moved-from. *)
Lemma Erase_spec v pos :
  wf v -> 0 <= pos < size_ v ->
  exists v', Erase moved_from self_moved v pos = Ok (pos, v') /\
    size_ v' = size_ v - 1 /\ capacity_ v' = capacity_ v /\ wf v' /\
    (forall k, to_list v' !! k = erased v pos k) /\
    length (block (items_ v')) = length (block (items_ v)) /\
    forall k : nat,
      block (items_ v') !! k =
      if decide (pos <= Z.of_nat k < size_ v - 1)
      then block (items_ v) !! (k + 1)%nat
      else if decide (Z.of_nat k = size_ v - 1 /\ pos < size_ v - 1)
           then moved_from <$> block (items_ v) !! k
           else block (items_ v) !! k.
Proof.
  intros Hwf Hpos. pose proof (wf_bounds v Hwf) as Hb.
  unfold Erase, begin, end_, cbegin, cend.
  destruct (Z.leb_spec 0 pos); [|lia].
  destruct (Z.ltb_spec pos (size_ v)); [|lia]. cbn [andb assert bind].
  rewrite size_t_pred by (done || lia).
  unfold std_move_within, block, Get in *.
  destruct (Z.ltb_spec (size_ v) (0 + (pos - 0) + 1)); [lia|].
  destruct (shift_down_loop_spec moved_from self_moved
              (Z.to_nat (size_ v - (0 + (pos - 0) + 1)))
              (_rawPtr (items_ v)) (0 + (pos - 0)))
    as [r [-> [Hrl Hr]]]; [lia | lia |].
  simpl. eexists. split; [do 3 f_equal; lia|].
  unfold wf, block. simpl. rewrite Hrl, PTRDIFF_MAX_val.
  split_and!; try lia.
  - intros k. rewrite to_list_lookup. unfold erased, block. simpl. rewrite Hr.
    repeat case_decide; try (lia || done).
  - intros k. rewrite Hr. repeat case_decide; (lia || done).
Qed.

End Mutators.
(** ** Indexing *)

Section Indexing.
Context {T : Type}.
Implicit Types (v : SimpleVector T).

Lemma At_out_of_range v i :
  size_ v <= i ->
  At v i = Throw (out_of_range range_msg) /\
  At_const v i = Throw (out_of_range range_msg).
Proof.
  intros H. unfold At, At_const.
  destruct (Z.leb_spec (size_ v) i); [done | lia].
Qed.

Lemma index_const_out_of_range v i :
  size_ v <= i -> index_const v i = Terminate.
Proof.
  intros H. unfold index_const.
  destruct (Z.leb_spec (size_ v) i); [done | lia].
Qed.

Lemma index_out_of_range v i : size_ v <= i -> index v i = AssertFail.
Proof.
  intros H. unfold index.
  destruct (Z.ltb_spec i (size_ v)); [lia | done].
Qed.

(** Inside the live range the four accessors return the same element. *)
Lemma index_in_range v i :
  wf v -> 0 <= i < size_ v ->
  exists x, to_list v !! Z.to_nat i = Some x /\
    At v i = Ok x /\ At_const v i = Ok x /\
    index v i = Ok x /\ index_const v i = Ok x.
Proof.
  intros Hb%wf_bounds Hi. unfold At, At_const, index, index_const.
  destruct (Z.leb_spec (size_ v) i); [lia|].
  destruct (Z.ltb_spec i (size_ v)); [|lia]. simpl.
  unfold ArrayPtr_index, block in *.
  destruct (load_in_range (_rawPtr (items_ v)) i) as [x [-> Hx]]; [lia|].
  exists x. rewrite to_list_lookup. unfold block.
  case_decide; [done | lia].
Qed.

End Indexing.

(** ** Assignment, [swap] and move between objects of a store *)

Section ObjectFacts.
Context {T : Type}.
Variable dflt : T.
Variable heap_limit : Z.
Implicit Types (σ : gmap nat (SimpleVector T)) (t o v : SimpleVector T).

Lemma SimpleVector_eta v :
  mkSimpleVector (items_ v) (size_ v) (capacity_ v) = v.
Proof. destruct v; reflexivity. Qed.

Lemma deref_Some σ a v : σ !! a = Some v -> deref σ a = Ok v.
Proof. intros H. unfold deref. rewrite H. reflexivity. Qed.

Lemma set_items_Some σ a v p :
  σ !! a = Some v ->
  set_items a p σ = Ok (<[a := mkSimpleVector p (size_ v) (capacity_ v)]> σ).
Proof. intros H. unfold set_items. rewrite (deref_Some _ _ _ H). done. Qed.

Lemma set_size_Some σ a v n :
  σ !! a = Some v ->
  set_size a n σ = Ok (<[a := mkSimpleVector (items_ v) n (capacity_ v)]> σ).
Proof. intros H. unfold set_size. rewrite (deref_Some _ _ _ H). done. Qed.

Lemma set_capacity_Some σ a v n :
  σ !! a = Some v ->
  set_capacity a n σ = Ok (<[a := mkSimpleVector (items_ v) (size_ v) n]> σ).
Proof. intros H. unfold set_capacity. rewrite (deref_Some _ _ _ H). done. Qed.

(** Exchanging one field of two objects, which may be the same object. *)
Lemma swap_items_spec σ this other t o :
  σ !! this = Some t -> σ !! other = Some o ->
  swap_items this other σ =
  Ok (<[other := mkSimpleVector (items_ t) (size_ o) (capacity_ o)]>
        (<[this := mkSimpleVector (items_ o) (size_ t) (capacity_ t)]> σ)).
Proof.
  intros Ht Ho. unfold swap_items.
  rewrite (deref_Some _ _ _ Ht), (deref_Some _ _ _ Ho). simpl.
  rewrite (set_items_Some _ _ _ _ Ht). simpl.
  destruct (decide (this = other)) as [->|Hne].
  - rewrite Ht in Ho. injection Ho as ->.
    erewrite set_items_Some by apply lookup_insert_eq. reflexivity.
  - erewrite set_items_Some by (rewrite lookup_insert_ne; done). reflexivity.
Qed.

Lemma swap_size_spec σ this other t o :
  σ !! this = Some t -> σ !! other = Some o ->
  swap_size this other σ =
  Ok (<[other := mkSimpleVector (items_ o) (size_ t) (capacity_ o)]>
        (<[this := mkSimpleVector (items_ t) (size_ o) (capacity_ t)]> σ)).
Proof.
  intros Ht Ho. unfold swap_size.
  rewrite (deref_Some _ _ _ Ht), (deref_Some _ _ _ Ho). simpl.
  rewrite (set_size_Some _ _ _ _ Ht). simpl.
  destruct (decide (this = other)) as [->|Hne].
  - rewrite Ht in Ho. injection Ho as ->.
    erewrite set_size_Some by apply lookup_insert_eq. reflexivity.
  - erewrite set_size_Some by (rewrite lookup_insert_ne; done). reflexivity.
Qed.

Lemma swap_capacity_spec σ this other t o :
  σ !! this = Some t -> σ !! other = Some o ->
  swap_capacity this other σ =
  Ok (<[other := mkSimpleVector (items_ o) (size_ o) (capacity_ t)]>
        (<[this := mkSimpleVector (items_ t) (size_ t) (capacity_ o)]> σ)).
Proof.
  intros Ht Ho. unfold swap_capacity.
  rewrite (deref_Some _ _ _ Ht), (deref_Some _ _ _ Ho). simpl.
  rewrite (set_capacity_Some _ _ _ _ Ht). simpl.
  destruct (decide (this = other)) as [->|Hne].
  - rewrite Ht in Ho. injection Ho as ->.
    erewrite set_capacity_Some by apply lookup_insert_eq. reflexivity.
  - erewrite set_capacity_Some by (rewrite lookup_insert_ne; done).
    reflexivity.
Qed.

(** [swap] exchanges the two objects; on one object it changes nothing. *)
Lemma swap_spec σ this other t o :
  σ !! this = Some t -> σ !! other = Some o ->
  swap this other σ = Ok (<[other := t]> (<[this := o]> σ)).
Proof.
  intros Ht Ho. unfold swap.
  rewrite (swap_items_spec _ _ _ _ _ Ht Ho). simpl.
  destruct (decide (this = other)) as [->|Hne].
  - rewrite Ht in Ho. injection Ho as ->.
    rewrite !insert_insert_eq, SimpleVector_eta.
    erewrite swap_size_spec by apply lookup_insert_eq. simpl.
    rewrite !insert_insert_eq, SimpleVector_eta.
    erewrite swap_capacity_spec by apply lookup_insert_eq. simpl.
    rewrite !insert_insert_eq, SimpleVector_eta. reflexivity.
  - erewrite swap_size_spec;
      [| rewrite lookup_insert_ne by done; apply lookup_insert_eq
       | apply lookup_insert_eq ].
    simpl.
    erewrite swap_capacity_spec;
      [| rewrite lookup_insert_ne by done; apply lookup_insert_eq
       | apply lookup_insert_eq ].
    simpl. rewrite !SimpleVector_eta. f_equal.
    apply map_eq. intros i.
    destruct (decide (i = other)) as [->|?];
      [rewrite !lookup_insert_eq; done|].
    rewrite !(lookup_insert_ne _ other) by done.
    destruct (decide (i = this)) as [->|?];
      [rewrite !lookup_insert_eq; done|].
    rewrite !(lookup_insert_ne _ this) by done.
    rewrite !(lookup_insert_ne _ other) by done.
    rewrite !(lookup_insert_ne _ this) by done.
    rewrite !(lookup_insert_ne _ other) by done.
    rewrite !(lookup_insert_ne _ this) by done.
    reflexivity.
Qed.

(** Move assignment between two different objects. *)
Lemma move_assign_distinct σ this other t o :
  this <> other -> σ !! this = Some t -> σ !! other = Some o ->
  move_assign this other σ =
  Ok (<[this := o]> (<[other := mkSimpleVector (items_ t) 0 0]> σ)).
Proof.
  intros Hne Ht Ho. unfold move_assign.
  rewrite (swap_items_spec _ _ _ _ _ Ht Ho). simpl.
  erewrite deref_Some by apply lookup_insert_eq. simpl.
  erewrite set_size_Some by apply lookup_insert_eq. simpl.
  erewrite set_size_Some by
    (rewrite !(lookup_insert_ne _ other this) by done; apply lookup_insert_eq).
  simpl.
  erewrite deref_Some by
    (rewrite (lookup_insert_ne _ this other) by done; apply lookup_insert_eq).
  simpl.
  erewrite set_capacity_Some by
    (rewrite (lookup_insert_ne _ this other) by done; apply lookup_insert_eq).
  simpl.
  erewrite set_capacity_Some by
    (rewrite (lookup_insert_ne _ other this) by done; apply lookup_insert_eq).
  simpl. rewrite SimpleVector_eta. f_equal.
  apply map_eq. intros i.
  destruct (decide (i = this)) as [->|?]; [rewrite !lookup_insert_eq; done|].
  rewrite !(lookup_insert_ne _ this) by done.
  destruct (decide (i = other)) as [->|?]; [rewrite !lookup_insert_eq; done|].
  repeat (rewrite ?(lookup_insert_ne _ other) by done;
          rewrite ?(lookup_insert_ne _ this) by done).
  reflexivity.
Qed.

(** Move assignment of an object to itself. *)
Lemma move_assign_self σ a v :
  σ !! a = Some v -> move_assign a a σ = Ok σ.
Proof.
  intros Hv. unfold move_assign.
  rewrite (swap_items_spec _ _ _ _ _ Hv Hv). simpl.
  rewrite insert_insert_eq, SimpleVector_eta.
  erewrite deref_Some by apply lookup_insert_eq. simpl.
  erewrite set_size_Some by apply lookup_insert_eq. simpl.
  erewrite set_size_Some by apply lookup_insert_eq. simpl.
  erewrite deref_Some by apply lookup_insert_eq. simpl.
  erewrite set_capacity_Some by apply lookup_insert_eq. simpl.
  erewrite set_capacity_Some by apply lookup_insert_eq. simpl.
  rewrite !insert_insert_eq, SimpleVector_eta.
  f_equal. apply insert_id. exact Hv.
Qed.

End ObjectFacts.

(** ** Constructors *)

Section Constructors.
Context {T : Type}.
Variable dflt : T.
Variable heap_limit : Z.
Implicit Types (v : SimpleVector T) (x : T).


Lemma room_dec n : room heap_limit n \/ ~ room heap_limit n.
Proof. unfold room. lia. Qed.

Lemma ArrayPtr_sized_cases n :
  0 <= n ->
  (exists p, ArrayPtr_sized dflt heap_limit n = Ok p /\
             block p = replicate (Z.to_nat n) dflt /\ (n = 0 \/ room heap_limit n)) \/
  (ArrayPtr_sized dflt heap_limit n = Throw bad_alloc /\ n <> 0 /\ ~ room heap_limit n).
Proof.
  intros Hn. destruct (Z.eq_dec n 0) as [->|Hne].
  - left. destruct (ArrayPtr_sized_room dflt heap_limit 0) as [p [Hp Hb]];
      [lia | auto |]. eauto.
  - destruct (room_dec n) as [Hr|Hr].
    + left. destruct (ArrayPtr_sized_room dflt heap_limit n) as [p [Hp Hb]];
        [lia | auto |]. eauto.
    + right. split; [|done]. by apply ArrayPtr_sized_no_room.
Qed.

Lemma SimpleVector_default_wf : wf (@SimpleVector_default T).
Proof.
  unfold wf, SimpleVector_default, block. simpl. rewrite PTRDIFF_MAX_val. lia.
Qed.

Lemma SimpleVector_fill_spec size x :
  0 <= size ->
  returns (SimpleVector_fill dflt heap_limit size x) (fun v =>
    wf v /\ size_ v = size /\ capacity_ v = size /\
    to_list v = replicate (Z.to_nat size) x).
Proof.
  intros Hs. unfold SimpleVector_fill.
  destruct (ArrayPtr_sized_cases size Hs) as [[p [-> [Hb Hr]]]|[-> _]];
    [|exact I].
  simpl. unfold std_fill, block, Get in *.
  destruct (Z.ltb_spec (0 + size) 0); [lia|].
  destruct (fill_loop_spec (Z.to_nat (0 + size - 0)) (_rawPtr p) 0 x)
    as [r [-> [Hrl Hk]]]; [lia | rewrite Hb, length_replicate; lia |].
  simpl. rewrite Hb, length_replicate in Hrl.
  assert (size <= 9223372036854775807).
  { destruct Hr as [->|[Hr _]]; [lia|]. rewrite PTRDIFF_MAX_val in Hr. lia. }
  unfold wf, block. simpl. rewrite Hrl, PTRDIFF_MAX_val.
  repeat split; try lia.
  apply list_eq. intros k. rewrite to_list_lookup. unfold block. simpl.
  rewrite Hk. repeat case_decide; try lia.
  - symmetry. apply lookup_replicate_2. lia.
  - symmetry. apply lookup_replicate_None. lia.
Qed.

Lemma SimpleVector_init_spec (init : list T) :
  returns (SimpleVector_init dflt heap_limit init) (fun v =>
    wf v /\ size_ v = Z.of_nat (length init) /\
    capacity_ v = Z.of_nat (length init) /\ to_list v = init).
Proof.
  unfold SimpleVector_init.
  destruct (ArrayPtr_sized_cases (Z.of_nat (length init)))
    as [[p [-> [Hb Hr]]]|[-> _]]; [lia | | exact I].
  simpl. unfold std_copy, block, Get in *.
  destruct (Z.ltb_spec (Z.of_nat (length init)) 0); [lia|].
  destruct (copy_loop_spec (Z.to_nat (Z.of_nat (length init) - 0))
              (Some init) 0 (_rawPtr p) 0)
    as [r [-> [Hrl Hk]]];
    [lia | simpl; lia | lia | rewrite Hb, length_replicate; lia |].
  simpl. rewrite Hb, length_replicate in Hrl.
  assert (Z.of_nat (length init) <= 9223372036854775807).
  { destruct Hr as [?|[Hr _]]; [lia|]. rewrite PTRDIFF_MAX_val in Hr. lia. }
  unfold wf, block. simpl. rewrite Hrl, PTRDIFF_MAX_val.
  repeat split; try lia.
  apply list_eq. intros k. rewrite to_list_lookup. unfold block. simpl.
  rewrite Hk. repeat case_decide; try lia.
  - f_equal. lia.
  - symmetry. apply lookup_ge_None_2. lia.
Qed.

Lemma SimpleVector_copy_spec other :
  wf other ->
  returns (SimpleVector_copy dflt heap_limit other) (fun v =>
    wf v /\ size_ v = size_ other /\ capacity_ v = size_ other /\
    to_list v = to_list other).
Proof.
  intros Hwf. pose proof (wf_bounds other Hwf) as Ho.
  unfold SimpleVector_copy.
  destruct (ArrayPtr_sized_cases (size_ other))
    as [[p [-> [Hb Hr]]]|[-> _]]; [lia | | exact I].
  simpl. unfold std_copy, block, Get in *.
  destruct (Z.ltb_spec (0 + size_ other) 0); [lia|].
  destruct (copy_loop_spec (Z.to_nat (0 + size_ other - 0))
              (_rawPtr (items_ other)) 0 (_rawPtr p) 0)
    as [r [-> [Hrl Hk]]];
    [lia | lia | lia | rewrite Hb, length_replicate; lia |].
  simpl. rewrite Hb, length_replicate in Hrl.
  unfold wf, block. simpl. rewrite Hrl, PTRDIFF_MAX_val.
  repeat split; try lia.
  apply list_eq. intros k. rewrite !to_list_lookup. unfold block. simpl.
  rewrite Hk. repeat case_decide; try (lia || done).
  f_equal. lia.
Qed.

Lemma SimpleVector_reserved_spec (reserved : ReserveProxyObj) :
  0 <= capacity reserved ->
  returns (SimpleVector_reserved dflt heap_limit reserved) (fun v =>
    wf v /\ size_ v = 0 /\ capacity_ v = capacity reserved).
Proof.
  intros Hc. unfold SimpleVector_reserved.
  destruct (ArrayPtr_sized_cases (capacity reserved))
    as [[p [-> [Hb Hr]]]|[-> _]]; [lia | | exact I].
  simpl.
  assert (capacity reserved <= 9223372036854775807).
  { destruct Hr as [?|[Hr _]]; [lia|]. rewrite PTRDIFF_MAX_val in Hr. lia. }
  unfold wf. simpl. rewrite Hb, length_replicate, PTRDIFF_MAX_val.
  repeat split; lia.
Qed.

(** The move constructor hands the whole object over. *)
Lemma SimpleVector_move_spec (other : SimpleVector T) :
  SimpleVector_move other =
  (other, mkSimpleVector (mkArrayPtr None) 0 0).
Proof. destruct other as [[p] s c]. reflexivity. Qed.

End Constructors.

(** ** Every outcome of the mutators on a well-formed vector *)

Section Outcomes.
Context {T : Type}.
Variable dflt : T.
Variable moved_from : T -> T.
Variable self_moved : T -> T.
Variable heap_limit : Z.
Implicit Types (v : SimpleVector T) (x : T).

Lemma returns_Ok {A : Type} (r : outcome A) (P : A -> Prop) a :
  returns r P -> r = Ok a -> P a.
Proof. intros H ->. exact H. Qed.

Lemma returns_weaken {A : Type} (r : outcome A) (P Q : A -> Prop) :
  (forall a, P a -> Q a) -> returns r P -> returns r Q.
Proof. intros HPQ. destruct r as [a|[]| | |]; simpl; auto. Qed.

Lemma to_list_snoc v v' x :
  wf v -> size_ v' = size_ v + 1 ->
  (forall k : nat, Z.of_nat k < size_ v + 1 ->
     block (items_ v') !! k =
     if decide (Z.of_nat k = size_ v) then Some x else block (items_ v) !! k) ->
  to_list v' = to_list v ++ [x].
Proof.
  intros Hwf Hs Hk. pose proof (to_list_length v Hwf) as Hlen.
  apply list_eq. intros k. rewrite to_list_lookup, Hs.
  destruct (decide (Z.of_nat k < size_ v)).
  - rewrite lookup_app_l by lia. rewrite to_list_lookup.
    rewrite Hk by lia. repeat case_decide; (lia || done).
  - rewrite lookup_app_r by lia. case_decide.
    + rewrite Hk by lia. case_decide; [|lia].
      replace (k - length (to_list v))%nat with 0%nat by lia. done.
    + symmetry. apply lookup_ge_None_2. simpl. lia.
Qed.

Lemma PushBack_returns v r :
  wf v ->
  returns_if (live_ref v r) (PushBack dflt moved_from heap_limit v r)
    (fun v' =>
       wf v' /\ size_ v' = size_ v + 1 /\ capacity_ v <= capacity_ v' /\
       exists y, to_list v' = to_list v ++ [y] /\
         forall y', ref_value v r = Some y' ->
                    y = PushBack_reads moved_from v r y').
Proof.
  intros Hwf. pose proof (wf_bounds v Hwf) as Hb.
  destruct (Z_le_gt_dec (size_ v + 1) (capacity_ v)) as [Hfit|Hgrow].
  - apply succeeds_returns_if.
    eapply succeeds_if_weaken; [|by apply PushBack_fit].
    intros v' (Hs & Hc & Hwf' & y & Hblk & Hy).
    split_and!; try (done || lia). exists y. split.
    + apply to_list_snoc; [done | done |].
      intros k Hk. rewrite Hblk. case_decide.
      * assert (k = Z.to_nat (size_ v)) as -> by lia.
        apply list_lookup_insert_eq. lia.
      * apply list_lookup_insert_ne. lia.
    + intros y' Hy'. rewrite (Hy y' Hy'). unfold PushBack_reads.
      destruct r; [done|]. case_decide; [done | lia].
  - destruct (room_dec heap_limit (growth_policy v (size_ v + 1))) as [Hr|Hr].
    + apply succeeds_returns_if.
      eapply succeeds_if_weaken; [|apply PushBack_grow; (done || lia)].
      intros v' (Hs & Hc & Hwf' & _ & y & Hblk & Hy).
      split_and!; try done.
      * rewrite Hc. unfold growth_policy. lia.
      * exists y. split; [by apply to_list_snoc | done].
    + rewrite PushBack_no_room by (done || lia). exact I.
Qed.

Lemma PushBack_rvalue_returns v r :
  wf v ->
  returns_if (live_ref v r)
    (PushBack_rvalue dflt moved_from self_moved heap_limit v r)
    (fun v' =>
       wf v' /\ size_ v' = size_ v + 1 /\ capacity_ v <= capacity_ v' /\
       forall x, r = outside x -> to_list v' = to_list v ++ [x]).
Proof.
  intros Hwf. pose proof (wf_bounds v Hwf) as Hb.
  destruct (Z_le_gt_dec (size_ v + 1) (capacity_ v)) as [Hfit|Hgrow].
  - apply succeeds_returns_if.
    eapply succeeds_if_weaken; [|by apply PushBack_rvalue_fit].
    intros v' (Hs & Hc & Hwf' & Hblk).
    split_and!; try (done || lia). intros x ->.
    apply to_list_snoc; [done | done |].
    intros k Hk. rewrite (Hblk x) by done. case_decide.
    + assert (k = Z.to_nat (size_ v)) as -> by lia.
      apply list_lookup_insert_eq. lia.
    + apply list_lookup_insert_ne. lia.
  - rewrite PushBack_rvalue_grow_eq by (rewrite size_t_succ by done; lia).
    eapply returns_if_weaken; [|by apply PushBack_returns].
    intros v' (Hwf' & Hs & Hc & y & Hl & Hy).
    split_and!; try done. intros x ->.
    rewrite (Hy x) in Hl by done. done.
Qed.

Lemma Reserve_returns v new_capacity :
  wf v ->
  returns (Reserve dflt moved_from heap_limit v new_capacity) (fun v' =>
    wf v' /\ size_ v' = size_ v /\ capacity_ v <= capacity_ v' /\
    new_capacity <= capacity_ v' /\ to_list v' = to_list v).
Proof.
  intros Hwf.
  destruct (Z_le_gt_dec new_capacity (capacity_ v)) as [Hle|Hgt].
  - rewrite Reserve_enough by done. simpl. split_and!; (done || lia).
  - destruct (room_dec heap_limit new_capacity) as [Hr|Hr].
    + destruct (Reserve_grow dflt moved_from heap_limit v new_capacity Hwf)
        as [v' [-> [Hs [Hc [Hwf' Hl]]]]]; [lia | done |].
      simpl. split_and!; (done || lia).
    + rewrite Reserve_no_room by (done || lia). exact I.
Qed.

Lemma Resize_returns v new_size :
  wf v -> 0 <= new_size ->
  returns (Resize dflt moved_from heap_limit v new_size) (fun v' =>
    wf v' /\ size_ v' = new_size /\ capacity_ v <= capacity_ v' /\
    forall k, to_list v' !! k = resized dflt v new_size k).
Proof.
  intros Hwf Hn. pose proof (wf_bounds v Hwf) as Hb.
  destruct (Z_le_gt_dec new_size (capacity_ v)) as [Hle|Hgt].
  - destruct (Resize_within dflt moved_from heap_limit v new_size Hwf)
      as [v' [-> [Hs [Hc [Hwf' Hl]]]]]; [lia|].
    simpl. split_and!; (done || lia).
  - destruct (room_dec heap_limit (growth_policy v new_size)) as [Hr|Hr].
    + destruct (Resize_grow dflt moved_from heap_limit v new_size Hwf)
        as [v' [-> [Hs [Hc [Hwf' [Hl _]]]]]]; [lia | done |].
      simpl. split_and!; try done.
      rewrite Hc. unfold growth_policy. lia.
    + rewrite Resize_no_room by (done || lia). exact I.
Qed.

Lemma Insert_out_of_range v pos r :
  ~ 0 <= pos <= size_ v -> Insert dflt heap_limit v pos r = AssertFail.
Proof.
  intros H. unfold Insert, begin, end_.
  destruct (Z.leb_spec 0 pos); [|done].
  destruct (Z.leb_spec pos (size_ v)); [lia | done].
Qed.

Lemma Insert_rvalue_out_of_range v pos r :
  ~ 0 <= pos <= size_ v ->
  Insert_rvalue dflt moved_from self_moved heap_limit v pos r = AssertFail.
Proof.
  intros H. unfold Insert_rvalue, begin, end_.
  destruct (Z.leb_spec 0 pos); [|done].
  destruct (Z.leb_spec pos (size_ v)); [lia | done].
Qed.

Lemma Insert_returns v pos r :
  wf v -> 0 <= pos <= size_ v ->
  returns_if (live_ref v r) (Insert dflt heap_limit v pos r)
    (fun res =>
       fst res = pos /\ wf (snd res) /\ size_ (snd res) = size_ v + 1 /\
       capacity_ v <= capacity_ (snd res) /\
       exists y,
         (forall k, to_list (snd res) !! k = inserted v pos y k) /\
         forall y', ref_value v (Insert_reads v pos r) = Some y' -> y = y').
Proof.
  intros Hwf Hpos.
  destruct (Z_le_gt_dec (size_ v + 1) (capacity_ v)) as [Hfit|Hgrow].
  - apply succeeds_returns_if.
    eapply succeeds_if_weaken; [|by apply Insert_fit].
    intros res (? & ? & ? & ? & ?). split_and!; (done || lia).
  - destruct (room_dec heap_limit (growth_policy v (size_ v + 1))) as [Hr|Hr].
    + apply succeeds_returns_if.
      eapply succeeds_if_weaken; [|apply Insert_grow; (done || lia)].
      intros res (? & ? & Hc & ? & ? & ?). split_and!; try done.
      rewrite Hc. unfold growth_policy. lia.
    + rewrite Insert_no_room by (done || lia). exact I.
Qed.

Lemma Insert_rvalue_returns v pos r :
  wf v -> 0 <= pos <= size_ v ->
  returns_if (live_ref v r)
    (Insert_rvalue dflt moved_from self_moved heap_limit v pos r)
    (fun res =>
       fst res = pos /\ wf (snd res) /\ size_ (snd res) = size_ v + 1 /\
       capacity_ v <= capacity_ (snd res) /\
       forall x, r = outside x ->
         forall k, to_list (snd res) !! k = inserted v pos x k).
Proof.
  intros Hwf Hpos.
  destruct (Z_le_gt_dec (size_ v + 1) (capacity_ v)) as [Hfit|Hgrow].
  - apply succeeds_returns_if.
    eapply succeeds_if_weaken; [|by apply Insert_rvalue_fit].
    intros res (? & ? & ? & ? & ?). split_and!; (done || lia).
  - destruct (room_dec heap_limit (growth_policy v (size_ v + 1))) as [Hr|Hr].
    + apply succeeds_returns_if.
      eapply succeeds_if_weaken; [|apply Insert_rvalue_grow; (done || lia)].
      intros res (? & ? & Hc & ? & ? & ?). split_and!; try done.
      rewrite Hc. unfold growth_policy. lia.
    + rewrite Insert_rvalue_no_room by (done || lia). exact I.
Qed.

Lemma Erase_out_of_range v pos :
  ~ 0 <= pos < size_ v -> Erase moved_from self_moved v pos = AssertFail.
Proof.
  intros H. unfold Erase, begin, end_.
  destruct (Z.leb_spec 0 pos); [|done].
  destruct (Z.ltb_spec pos (size_ v)); [lia | done].
Qed.

Lemma PopBack_empty v : size_ v = 0 -> PopBack v = AssertFail.
Proof. intros H. unfold PopBack, IsEmpty. rewrite H. reflexivity. Qed.

End Outcomes.

(** ** The class invariant under every call *)

Section ObjectInvariant.
Context {T : Type}.
Variable dflt : T.
Variable heap_limit : Z.
Implicit Types (σ : gmap nat (SimpleVector T)) (v t o r : SimpleVector T).

Lemma returns_bind {A B : Type} (m : outcome A) (k : A -> outcome B)
      (P : A -> Prop) (Q : B -> Prop) :
  returns m P -> (forall a, P a -> returns (k a) Q) -> returns (bind m k) Q.
Proof. destruct m as [a|[]| | |]; simpl; auto; contradiction. Qed.

Lemma bind_Ok {A B : Type} (m : outcome A) (k : A -> outcome B) b :
  bind m k = Ok b -> exists a, m = Ok a /\ k a = Ok b.
Proof. destruct m as [a|e| | |]; simpl; [eauto | done..]. Qed.

Lemma deref_Ok σ a v : deref σ a = Ok v -> σ !! a = Some v.
Proof. unfold deref. destruct (σ !! a); [by intros [= ->] | done]. Qed.

Lemma store_wf_insert σ a v :
  store_wf σ -> wf v -> store_wf (<[a := v]> σ).
Proof.
  intros Hσ Hv b w. destruct (decide (a = b)) as [->|Hne].
  - rewrite lookup_insert_eq. by intros [= <-].
  - rewrite lookup_insert_ne by done. apply Hσ.
Qed.

Lemma store_wf_delete σ a : store_wf σ -> store_wf (delete a σ).
Proof.
  intros Hσ b w. destruct (decide (a = b)) as [->|Hne].
  - by rewrite lookup_delete_eq.
  - rewrite lookup_delete_ne by done. apply Hσ.
Qed.

Lemma on_object_Ok this member σ σ' :
  on_object this member σ = Ok σ' ->
  exists v v', σ !! this = Some v /\ member v = Ok v' /\
               σ' = <[this := v']> σ.
Proof.
  unfold on_object. intros H.
  apply bind_Ok in H as [v [Hv H]]. apply bind_Ok in H as [v' [Hv' [= <-]]].
  apply deref_Ok in Hv. eauto.
Qed.

(** Copy assignment from a different, non-empty object: the object becomes
    the copy. *)
Lemma fresh_temporary σ this :
  fresh ({[this]} ∪ dom σ) <> this /\ σ !! fresh ({[this]} ∪ dom σ) = None.
Proof.
  pose proof (is_fresh ({[this]} ∪ dom σ)) as Hf.
  split.
  - intros Heq. apply Hf. rewrite Heq at 1. set_solver.
  - apply not_elem_of_dom. set_solver.
Qed.

Lemma copy_assign_copies σ this rhs t r c :
  rhs <> this -> σ !! this = Some t -> σ !! rhs = Some r -> size_ r <> 0 ->
  SimpleVector_copy dflt heap_limit r = Ok c ->
  copy_assign dflt heap_limit this rhs σ = Ok (<[this := c]> σ).
Proof.
  intros Hne Ht Hr Hs Hc. unfold copy_assign.
  destruct (Nat.eqb_spec rhs this); [done|]. simpl.
  rewrite (deref_Some _ _ _ Hr). simpl. unfold IsEmpty.
  destruct (Z.eqb_spec (size_ r) 0); [done|].
  rewrite Hc. simpl.
  destruct (fresh_temporary σ this) as [Htmp Hfresh].
  erewrite swap_spec;
    [| rewrite lookup_insert_ne by done; exact Ht | apply lookup_insert_eq].
  simpl. f_equal.
  rewrite delete_insert_eq.
  apply map_eq. intros i.
  destruct (decide (i = fresh ({[this]} ∪ dom σ))) as [->|Hi].
  - rewrite lookup_delete_eq, lookup_insert_ne by done. by rewrite Hfresh.
  - rewrite lookup_delete_ne by done.
    destruct (decide (i = this)) as [->|Hi'].
    + by rewrite !lookup_insert_eq.
    + rewrite !(lookup_insert_ne _ this) by done.
      by rewrite lookup_insert_ne.
Qed.

(** Copy assignment from an empty object, the object itself included. *)
Lemma copy_assign_empty σ this rhs t r :
  σ !! this = Some t -> σ !! rhs = Some r -> size_ r = 0 ->
  copy_assign dflt heap_limit this rhs σ = Ok (<[this := Clear t]> σ).
Proof.
  intros Ht Hr Hs. unfold copy_assign.
  destruct (Nat.eqb_spec rhs this) as [->|Hne]; simpl.
  - rewrite Ht in Hr. injection Hr as ->. f_equal. symmetry.
    apply insert_id. rewrite Ht. f_equal.
    destruct r as [p s c]. simpl in Hs. subst s. reflexivity.
  - rewrite (deref_Some _ _ _ Hr). simpl. unfold IsEmpty. rewrite Hs. simpl.
    rewrite (deref_Some _ _ _ Ht). reflexivity.
Qed.

Lemma copy_assign_self σ a : copy_assign dflt heap_limit a a σ = Ok σ.
Proof. unfold copy_assign. rewrite Nat.eqb_refl. reflexivity. Qed.

Lemma copy_assign_wf σ this rhs σ' :
  store_wf σ -> copy_assign dflt heap_limit this rhs σ = Ok σ' -> store_wf σ'.
Proof.
  intros Hσ Hok. destruct (decide (rhs = this)) as [->|Hne].
  - rewrite copy_assign_self in Hok. by injection Hok as <-.
  - unfold copy_assign in Hok.
    destruct (Nat.eqb_spec rhs this); [done|]. simpl in Hok.
    apply bind_Ok in Hok as [r [Hr Hok]]. apply deref_Ok in Hr.
    destruct (IsEmpty r) eqn:He.
    + apply bind_Ok in Hok as [t [Ht [= <-]]]. apply deref_Ok in Ht.
      apply store_wf_insert; [done|]. apply Clear_spec. by eapply Hσ.
    + apply bind_Ok in Hok as [c [Hc Hok]].
      apply bind_Ok in Hok as [σ1 [Hswap [= <-]]].
      assert (wf c) as Hwc.
      { pose proof (returns_Ok _ _ _
          (SimpleVector_copy_spec dflt heap_limit r (Hσ _ _ Hr)) Hc) as H.
        simpl in H. tauto. }
      destruct (fresh_temporary σ this) as [Htmp Hfresh].
      destruct (σ !! this) as [t|] eqn:Ht.
      * erewrite swap_spec in Hswap;
          [| rewrite lookup_insert_ne by done; exact Ht
           | apply lookup_insert_eq].
        injection Hswap as <-.
        apply store_wf_delete.
        repeat apply store_wf_insert; try done. by eapply Hσ.
      * unfold swap, swap_items, deref in Hswap.
        rewrite lookup_insert_ne in Hswap by done.
        rewrite Ht in Hswap. done.
Qed.

Lemma move_assign_wf σ this other σ' :
  store_wf σ -> move_assign this other σ = Ok σ' -> store_wf σ'.
Proof.
  intros Hσ Hok.
  destruct (σ !! this) as [t|] eqn:Ht;
    [| unfold move_assign, swap_items, deref in Hok; by rewrite Ht in Hok].
  destruct (σ !! other) as [o|] eqn:Ho;
    [| unfold move_assign, swap_items, deref in Hok;
       by rewrite Ht, Ho in Hok].
  destruct (decide (this = other)) as [->|Hne].
  - rewrite (move_assign_self _ _ _ Ht) in Hok. by injection Hok as <-.
  - rewrite (move_assign_distinct _ _ _ _ _ Hne Ht Ho) in Hok.
    injection Hok as <-.
    apply store_wf_insert; [|by eapply Hσ].
    apply store_wf_insert; [done|].
    pose proof (wf_bounds t (Hσ _ _ Ht)) as Hb.
    unfold wf. simpl. rewrite PTRDIFF_MAX_val. lia.
Qed.

Lemma swap_wf σ this other σ' :
  store_wf σ -> swap this other σ = Ok σ' -> store_wf σ'.
Proof.
  intros Hσ Hok.
  destruct (σ !! this) as [t|] eqn:Ht;
    [| unfold swap, swap_items, deref in Hok; by rewrite Ht in Hok].
  destruct (σ !! other) as [o|] eqn:Ho;
    [| unfold swap, swap_items, deref in Hok; by rewrite Ht, Ho in Hok].
  rewrite (swap_spec _ _ _ _ _ Ht Ho) in Hok. injection Hok as <-.
  repeat apply store_wf_insert; try done; by eapply Hσ.
Qed.

Lemma construct_wf this ctor σ σ' (P : SimpleVector T -> Prop) :
  store_wf σ -> returns ctor (fun v => wf v /\ P v) ->
  construct this ctor σ = Ok σ' -> store_wf σ'.
Proof.
  intros Hσ Hret Hok. unfold construct in Hok.
  apply bind_Ok in Hok as [v [Hv [= <-]]].
  apply store_wf_insert; [done|].
  pose proof (returns_Ok _ _ _ Hret Hv) as H. simpl in H. tauto.
Qed.

End ObjectInvariant.

Section Invariant.
Context {T : Type}.
Variable dflt : T.
Variable moved_from : T -> T.
Variable self_moved : T -> T.
Variable heap_limit : Z.
Implicit Types (σ : gmap nat (SimpleVector T)) (v t o r : SimpleVector T).

(** What each member function that changes only its own object does to
    the invariant and to the capacity. *)
Lemma Clear_step v v' :
  wf v -> Ok (Clear v) = Ok v' -> wf v' /\ capacity_ v <= capacity_ v'.
Proof.
  intros Hwf [= <-]. destruct (Clear_spec v Hwf) as (_ & Hc & _ & Hw).
  split; [done | lia].
Qed.

Lemma Reserve_step v n v' :
  wf v -> Reserve dflt moved_from heap_limit v n = Ok v' ->
  wf v' /\ capacity_ v <= capacity_ v'.
Proof.
  intros Hwf Hok.
  pose proof (returns_Ok _ _ _
                (Reserve_returns dflt moved_from heap_limit v n Hwf) Hok)
    as H. simpl in H. tauto.
Qed.

Lemma Resize_step v n v' :
  wf v -> is_size_t n -> Resize dflt moved_from heap_limit v n = Ok v' ->
  wf v' /\ capacity_ v <= capacity_ v'.
Proof.
  intros Hwf [Hn _] Hok.
  pose proof (returns_Ok _ _ _
                (Resize_returns dflt moved_from heap_limit v n Hwf Hn) Hok)
    as H. simpl in H. tauto.
Qed.

Lemma PushBack_step v x v' :
  wf v -> PushBack dflt moved_from heap_limit v x = Ok v' ->
  wf v' /\ capacity_ v <= capacity_ v'.
Proof.
  intros Hwf Hok.
  pose proof (returns_if_inv _ _ _ _
                (PushBack_returns dflt moved_from heap_limit v x Hwf) Hok)
    as H. simpl in H. tauto.
Qed.

Lemma PushBack_rvalue_step v x v' :
  wf v ->
  PushBack_rvalue dflt moved_from self_moved heap_limit v x = Ok v' ->
  wf v' /\ capacity_ v <= capacity_ v'.
Proof.
  intros Hwf Hok.
  pose proof (returns_if_inv _ _ _ _
                (PushBack_rvalue_returns dflt moved_from self_moved heap_limit
                   v x Hwf) Hok)
    as H. simpl in H. tauto.
Qed.

Lemma PopBack_step v v' :
  wf v -> PopBack v = Ok v' -> wf v' /\ capacity_ v <= capacity_ v'.
Proof.
  intros Hwf Hok. pose proof (wf_bounds v Hwf) as Hb.
  destruct (Z.eq_dec (size_ v) 0) as [Hz|Hnz].
  - rewrite PopBack_empty in Hok by done. done.
  - destruct (PopBack_spec v Hwf) as [w [Hw [_ [Hc [Hwf' _]]]]]; [lia|].
    rewrite Hw in Hok. injection Hok as <-. split; [done | lia].
Qed.

Lemma Insert_step v pos x v' :
  wf v ->
  (let* r := Insert dflt heap_limit v pos x in Ok (snd r)) = Ok v' ->
  wf v' /\ capacity_ v <= capacity_ v'.
Proof.
  intros Hwf Hok. apply bind_Ok in Hok as [r [Hr [= <-]]].
  destruct (decide (0 <= pos <= size_ v)) as [Hpos|Hpos].
  - pose proof (returns_if_inv _ _ _ _
                  (Insert_returns dflt heap_limit v pos x Hwf Hpos) Hr) as H.
    simpl in H. tauto.
  - rewrite Insert_out_of_range in Hr by done. done.
Qed.

Lemma Insert_rvalue_step v pos x v' :
  wf v ->
  (let* r := Insert_rvalue dflt moved_from self_moved heap_limit v pos x in
   Ok (snd r)) = Ok v' ->
  wf v' /\ capacity_ v <= capacity_ v'.
Proof.
  intros Hwf Hok. apply bind_Ok in Hok as [r [Hr [= <-]]].
  destruct (decide (0 <= pos <= size_ v)) as [Hpos|Hpos].
  - pose proof (returns_if_inv _ _ _ _
                  (Insert_rvalue_returns dflt moved_from self_moved heap_limit
                     v pos x Hwf Hpos) Hr) as H.
    simpl in H. tauto.
  - rewrite Insert_rvalue_out_of_range in Hr by done. done.
Qed.

Lemma Erase_step v pos v' :
  wf v ->
  (let* r := Erase moved_from self_moved v pos in Ok (snd r)) = Ok v' ->
  wf v' /\ capacity_ v <= capacity_ v'.
Proof.
  intros Hwf Hok. apply bind_Ok in Hok as [r [Hr [= <-]]].
  destruct (decide (0 <= pos < size_ v)) as [Hpos|Hpos].
  - destruct (Erase_spec moved_from self_moved v pos Hwf Hpos)
      as [w [Hw [_ [Hc [Hwf' _]]]]].
    rewrite Hw in Hr. injection Hr as <-. simpl. split; [done | lia].
  - rewrite Erase_out_of_range in Hr by done. done.
Qed.

Lemma exec_wf (c : call) σ σ' :
  store_wf σ -> call_args_ok c ->
  exec dflt moved_from self_moved heap_limit c σ = Ok σ' ->
  store_wf σ'.
Proof.
  intros Hσ Hargs Hok. destruct c; simpl in *.
  - injection Hok as <-. apply store_wf_insert; [done|].
    apply SimpleVector_default_wf.
  - eapply construct_wf; [done | | exact Hok].
    apply SimpleVector_fill_spec. apply Hargs.
  - eapply construct_wf; [done | | exact Hok].
    apply SimpleVector_fill_spec. apply Hargs.
  - eapply construct_wf; [done | | exact Hok].
    apply SimpleVector_init_spec.
  - apply bind_Ok in Hok as [o [Ho Hok]]. apply deref_Ok in Ho.
    eapply construct_wf; [done | | exact Hok].
    apply SimpleVector_copy_spec. by eapply Hσ.
  - eapply construct_wf; [done | | exact Hok].
    apply SimpleVector_reserved_spec. apply Hargs.
  - unfold move_construct in Hok.
    apply bind_Ok in Hok as [o [Ho Hok]]. apply deref_Ok in Ho.
    rewrite SimpleVector_move_spec in Hok. injection Hok as <-.
    apply store_wf_insert; [|by eapply Hσ].
    apply store_wf_insert; [done|]. apply SimpleVector_default_wf.
  - by eapply copy_assign_wf.
  - by eapply move_assign_wf.
  - apply on_object_Ok in Hok as (v & v' & Hv & Hm & ->).
    apply store_wf_insert; [done|]. eapply Clear_step; [|exact Hm].
    by eapply Hσ.
  - apply on_object_Ok in Hok as (v & v' & Hv & Hm & ->).
    apply store_wf_insert; [done|]. eapply Reserve_step; [|exact Hm].
    by eapply Hσ.
  - apply on_object_Ok in Hok as (v & v' & Hv & Hm & ->).
    apply store_wf_insert; [done|]. eapply Resize_step; [| |exact Hm]; [|done].
    by eapply Hσ.
  - apply on_object_Ok in Hok as (v & v' & Hv & Hm & ->).
    apply store_wf_insert; [done|]. eapply PushBack_step; [|exact Hm].
    by eapply Hσ.
  - apply on_object_Ok in Hok as (v & v' & Hv & Hm & ->).
    apply store_wf_insert; [done|]. eapply PushBack_rvalue_step; [|exact Hm].
    by eapply Hσ.
  - apply on_object_Ok in Hok as (v & v' & Hv & Hm & ->).
    apply store_wf_insert; [done|]. eapply PopBack_step; [|exact Hm].
    by eapply Hσ.
  - by eapply swap_wf.
  - apply on_object_Ok in Hok as (v & v' & Hv & Hm & ->).
    apply store_wf_insert; [done|]. eapply Insert_step; [|exact Hm].
    by eapply Hσ.
  - apply on_object_Ok in Hok as (v & v' & Hv & Hm & ->).
    apply store_wf_insert; [done|]. eapply Insert_rvalue_step; [|exact Hm].
    by eapply Hσ.
  - apply on_object_Ok in Hok as (v & v' & Hv & Hm & ->).
    apply store_wf_insert; [done|]. eapply Erase_step; [|exact Hm].
    by eapply Hσ.
Qed.

(** No member function other than the assignment operators and [swap]
    lowers the capacity of the object it is called on. *)
Lemma exec_capacity (c : call) σ σ' this v :
  store_wf σ -> call_args_ok c -> own_mutator c = Some this ->
  σ !! this = Some v ->
  exec dflt moved_from self_moved heap_limit c σ = Ok σ' ->
  exists v', σ' !! this = Some v' /\ capacity_ v <= capacity_ v'.
Proof.
  intros Hσ Hargs Hown Hv Hok. pose proof (Hσ _ _ Hv) as Hwf.
  destruct c; simpl in *; try discriminate; injection Hown as ->;
    apply on_object_Ok in Hok as (w & v' & Hw & Hm & ->);
    rewrite Hv in Hw; injection Hw as <-;
    exists v'; (split; [apply lookup_insert_eq|]).
  - eapply Clear_step; [|exact Hm]; done.
  - eapply Reserve_step; [|exact Hm]; done.
  - eapply Resize_step; [| |exact Hm]; done.
  - eapply PushBack_step; [|exact Hm]; done.
  - eapply PushBack_rvalue_step; [|exact Hm]; done.
  - eapply PopBack_step; [|exact Hm]; done.
  - eapply Insert_step; [|exact Hm]; done.
  - eapply Insert_rvalue_step; [|exact Hm]; done.
  - eapply Erase_step; [|exact Hm]; done.
Qed.

(** A run of [PushBack] calls. *)
Lemma PushBack_all_returns (items : list (@pushed T)) : forall v,
  wf v ->
  returns (PushBack_all dflt moved_from self_moved heap_limit v items)
    (fun v' =>
       wf v' /\ capacity_ v <= capacity_ v' /\
       size_ v' = size_ v + Z.of_nat (length items) /\
       to_list v' = to_list v ++ map pushed_item items).
Proof.
  induction items as [|[x|x] rest IH]; intros v Hwf; simpl.
  - rewrite app_nil_r. split_and!; (done || lia).
  - eapply returns_bind.
    { eapply returns_if_live; [by apply PushBack_returns | exact I]. }
    intros v1 (Hw1 & Hs1 & Hc1 & y & Hl1 & Hy). simpl.
    rewrite (Hy x eq_refl) in Hl1. simpl in Hl1.
    eapply returns_weaken; [|apply IH; done].
    intros v2 (Hw2 & Hc2 & Hs2 & Hl2).
    split_and!; [done | lia | lia |].
    rewrite Hl2, Hl1, <- app_assoc. reflexivity.
  - eapply returns_bind.
    { eapply returns_if_live; [by apply PushBack_rvalue_returns | exact I]. }
    intros v1 (Hw1 & Hs1 & Hc1 & Hl1). simpl.
    specialize (Hl1 x eq_refl).
    eapply returns_weaken; [|apply IH; done].
    intros v2 (Hw2 & Hc2 & Hs2 & Hl2).
    split_and!; [done | lia | lia |].
    rewrite Hl2, Hl1, <- app_assoc. reflexivity.
Qed.

End Invariant.
(** ** Runs of calls *)

Section Runs.
Context {T : Type}.
Variable dflt : T.
Variable moved_from : T -> T.
Variable self_moved : T -> T.
Variable heap_limit : Z.

Lemma store_wf_empty : store_wf (∅ : gmap nat (SimpleVector T)).
Proof. intros a v H. by rewrite lookup_empty in H. Qed.

Lemma run_wf (cs : list (@call T)) : forall σ σ',
  store_wf σ -> Forall call_args_ok cs ->
  run dflt moved_from self_moved heap_limit cs σ = Ok σ' -> store_wf σ'.
Proof.
  induction cs as [|c cs IH]; intros σ σ' Hσ Hargs Hrun; simpl in Hrun.
  - by injection Hrun as <-.
  - apply bind_Ok in Hrun as (σ1 & Hc & Hrest).
    inversion Hargs as [|? ? Hc_ok Hcs_ok]; subst.
    eapply IH; [|done|exact Hrest].
    by eapply exec_wf.
Qed.

End Runs.

(** ** Comparison operators *)

Section CompareFacts.
Context {T : Type}.
Variable eqb : T -> T -> bool.
Variable ltb : T -> T -> bool.
Implicit Types (a b : @raw_ptr T) (v w : SimpleVector T).

Lemma window_cons (l : list T) (i : Z) (n : nat) x :
  0 <= i -> l !! Z.to_nat i = Some x ->
  take (S n) (drop (Z.to_nat i) l) = x :: take n (drop (Z.to_nat (i + 1)) l).
Proof.
  intros Hi Hx. rewrite (drop_S _ _ _ Hx). simpl.
  replace (Z.to_nat (i + 1)) with (S (Z.to_nat i)) by lia. reflexivity.
Qed.

Lemma equal_loop_spec n : forall a i b j,
  0 <= i -> i + Z.of_nat n <= Z.of_nat (length (blk a)) ->
  0 <= j -> j + Z.of_nat n <= Z.of_nat (length (blk b)) ->
  exists r, equal_loop eqb n a i b j = Ok r /\
    (r = true <->
     Forall2 (fun x y => eqb x y = true)
             (take n (drop (Z.to_nat i) (blk a)))
             (take n (drop (Z.to_nat j) (blk b)))).
Proof.
  induction n as [|n IH]; intros a i b j Hi Ha Hj Hb.
  - exists true. split; [done|]. simpl. split; [constructor | done].
  - simpl. destruct (load_in_range a i) as [x [-> Hx]]; [lia|].
    destruct (load_in_range b j) as [y [-> Hy]]; [lia|]. simpl.
    rewrite (window_cons _ _ _ _ Hi Hx), (window_cons _ _ _ _ Hj Hy).
    destruct (eqb x y) eqn:Hxy; simpl.
    + destruct (IH a (i + 1) b (j + 1)) as [r [-> Hr]]; [lia..|].
      exists r. split; [done|]. rewrite Hr. split.
      * intros H. by constructor.
      * intros H. by inversion H.
    + exists false. split; [done|]. split; [done|].
      intros H. inversion H. congruence.
Qed.

Lemma lexicographical_loop_spec n1 : forall n2 a i b j,
  0 <= i -> i + Z.of_nat n1 <= Z.of_nat (length (blk a)) ->
  0 <= j -> j + Z.of_nat n2 <= Z.of_nat (length (blk b)) ->
  exists r, lexicographical_loop ltb n1 n2 a i b j = Ok r /\
    (r = true <->
     lexicographic ltb (take n1 (drop (Z.to_nat i) (blk a)))
                       (take n2 (drop (Z.to_nat j) (blk b)))).
Proof.
  induction n1 as [|n1 IH]; intros n2 a i b j Hi Ha Hj Hb.
  - destruct n2 as [|n2]; simpl.
    + exists false. split; [done|]. split; [done|]. intros H. inversion H.
    + destruct (load_in_range b j) as [y [_ Hy]]; [lia|].
      exists true. split; [done|]. split; [|done]. intros _.
      change (take 0 (drop (Z.to_nat i) (blk a))) with (@nil T).
      rewrite (window_cons _ _ _ _ Hj Hy). constructor.
  - destruct n2 as [|n2]; simpl.
    + exists false. split; [done|]. split; [done|].
      destruct (load_in_range a i) as [x [_ Hx]]; [lia|].
      rewrite (window_cons _ _ _ _ Hi Hx). intros H. inversion H.
    + destruct (load_in_range a i) as [x [-> Hx]]; [lia|].
      destruct (load_in_range b j) as [y [-> Hy]]; [lia|]. simpl.
      rewrite (window_cons _ _ _ _ Hi Hx), (window_cons _ _ _ _ Hj Hy).
      destruct (ltb x y) eqn:Hxy.
      * exists true. split; [done|]. split; [|done]. intros _.
        by apply lex_less.
      * destruct (ltb y x) eqn:Hyx.
        -- exists false. split; [done|]. split; [done|].
           intros H. inversion H; congruence.
        -- destruct (IH n2 a (i + 1) b (j + 1)) as [r [-> Hr]]; [lia..|].
           exists r. split; [done|]. rewrite Hr. split.
           ++ intros H. by apply lex_tie.
           ++ intros H. inversion H; [congruence | done].
Qed.

Lemma operator_eq_spec v w :
  wf v -> wf w ->
  exists r, operator_eq eqb v w = Ok r /\
    (r = true <->
     size_ v = size_ w /\
     Forall2 (fun x y => eqb x y = true) (to_list v) (to_list w)).
Proof.
  intros Hv%wf_bounds Hw%wf_bounds.
  unfold operator_eq, GetSize, std_equal, begin, end_, Get, block in *.
  destruct (Z.eqb_spec (size_ v) (size_ w)) as [Heq|Hne].
  - destruct (Z.ltb_spec (size_ v) 0); [lia|].
    destruct (equal_loop_spec (Z.to_nat (size_ v - 0))
                (_rawPtr (items_ v)) 0 (_rawPtr (items_ w)) 0)
      as [r [-> Hr]]; [lia..|].
    exists r. split; [done|]. rewrite Hr. unfold to_list, block.
    rewrite <- Heq. change (Z.to_nat 0) with 0%nat. rewrite !drop_0.
    replace (Z.to_nat (size_ v - 0)) with (Z.to_nat (size_ v)) by lia.
    tauto.
  - exists false. split; [done|]. split; [done|]. intros [? _]. done.
Qed.

Lemma operator_lt_spec v w :
  wf v -> wf w ->
  exists r, operator_lt ltb v w = Ok r /\
    (r = true <-> lexicographic ltb (to_list v) (to_list w)).
Proof.
  intros Hv%wf_bounds Hw%wf_bounds.
  unfold operator_lt, std_lexicographical_compare, begin, end_, Get, block
    in *.
  destruct (Z.ltb_spec (size_ v) 0); [lia|].
  destruct (Z.ltb_spec (size_ w) 0); [lia|]. simpl.
  destruct (lexicographical_loop_spec (Z.to_nat (size_ v - 0))
              (Z.to_nat (size_ w - 0))
              (_rawPtr (items_ v)) 0 (_rawPtr (items_ w)) 0)
    as [r [-> Hr]]; [lia..|].
  exists r. split; [done|]. rewrite Hr. unfold to_list, block.
  change (Z.to_nat 0) with 0%nat. rewrite !drop_0.
  replace (Z.to_nat (size_ v - 0)) with (Z.to_nat (size_ v)) by lia.
  replace (Z.to_nat (size_ w - 0)) with (Z.to_nat (size_ w)) by lia.
  tauto.
Qed.

End CompareFacts.

(** * The properties of the specification *)

Ltac wf_concrete := unfold wf, block; simpl; rewrite PTRDIFF_MAX_val; lia.

(** C1.  For a position [>= size] the named accessor [At] (const and
    non-const) throws [std::out_of_range], which a caller can catch.  The
    checked operator form, [operator[] const], throws the same exception
    from a function declared [noexcept]: on the empty vector and position 0
    the call ends in [std::terminate] instead of a catchable error. *)
Theorem C1_checked_operator_not_catchable :
  index_const (@SimpleVector_default Z) 0 = Terminate /\
  At (@SimpleVector_default Z) 0 = Throw (out_of_range range_msg) /\
  At_const (@SimpleVector_default Z) 0 = Throw (out_of_range range_msg).
Proof. split_and!; reflexivity. Qed.

(** C2.  Growth policy: when [PushBack] or [Insert] (either overload) needs
    [size + 1] slots, or [Resize] needs [new_size] slots, and the capacity
    is smaller, then whenever the allocator can serve
    [max (2 * capacity, required)] elements the call returns, the capacity
    is that number, the block the vector owns has that many elements and the
    size is the required one; otherwise the call leaves with
    [std::bad_alloc].  The argument of [PushBack] and [Insert] is any object
    outside the vector or any of its live elements. *)
Theorem C2_growth_policy {T : Type} (dflt : T) (moved_from self_moved : T -> T)
        (heap_limit : Z) (v : SimpleVector T) :
  wf v ->
  (forall r, capacity_ v < size_ v + 1 ->
     let c := Z.max (2 * capacity_ v) (size_ v + 1) in
     (room heap_limit c -> live_ref v r ->
      (exists v', PushBack dflt moved_from heap_limit v r = Ok v' /\
                  capacity_ v' = c /\ size_ v' = size_ v + 1 /\
                  Z.of_nat (length (block (items_ v'))) = c) /\
      (exists v', PushBack_rvalue dflt moved_from self_moved heap_limit v r
                  = Ok v' /\
                  capacity_ v' = c /\ size_ v' = size_ v + 1 /\
                  Z.of_nat (length (block (items_ v'))) = c)) /\
     (~ room heap_limit c ->
      PushBack dflt moved_from heap_limit v r = Throw bad_alloc /\
      PushBack_rvalue dflt moved_from self_moved heap_limit v r
      = Throw bad_alloc)) /\
  (forall pos r, 0 <= pos <= size_ v -> capacity_ v < size_ v + 1 ->
     let c := Z.max (2 * capacity_ v) (size_ v + 1) in
     (room heap_limit c -> live_ref v r ->
      (exists v', Insert dflt heap_limit v pos r = Ok (pos, v') /\
                  capacity_ v' = c /\ size_ v' = size_ v + 1 /\
                  Z.of_nat (length (block (items_ v'))) = c) /\
      (exists v', Insert_rvalue dflt moved_from self_moved heap_limit v pos r
                  = Ok (pos, v') /\
                  capacity_ v' = c /\ size_ v' = size_ v + 1 /\
                  Z.of_nat (length (block (items_ v'))) = c)) /\
     (~ room heap_limit c ->
      Insert dflt heap_limit v pos r = Throw bad_alloc /\
      Insert_rvalue dflt moved_from self_moved heap_limit v pos r
      = Throw bad_alloc)) /\
  (forall new_size, capacity_ v < new_size ->
     let c := Z.max (2 * capacity_ v) new_size in
     (room heap_limit c ->
      exists v', Resize dflt moved_from heap_limit v new_size = Ok v' /\
                 capacity_ v' = c /\ size_ v' = new_size /\
                 Z.of_nat (length (block (items_ v'))) = c) /\
     (~ room heap_limit c ->
      Resize dflt moved_from heap_limit v new_size = Throw bad_alloc)).
Proof.
  intros Hwf. pose proof (wf_bounds v Hwf) as Hb. split_and!.
  - intros r Hgrow c. fold (growth_policy v (size_ v + 1)) in c. subst c.
    split.
    + intros Hroom Hlive.
      rewrite PushBack_rvalue_grow_eq by (rewrite size_t_succ by done; lia).
      destruct (succeeds_if_Ok _ _ _
                  (PushBack_grow dflt moved_from heap_limit v r Hwf Hgrow Hroom)
                  Hlive)
        as (v' & Hv' & Hs & Hc & _ & Hl & _).
      split; exists v'; done.
    + intros Hroom.
      rewrite PushBack_rvalue_grow_eq by (rewrite size_t_succ by done; lia).
      split; by apply PushBack_no_room.
  - intros pos r Hpos Hgrow c. fold (growth_policy v (size_ v + 1)) in c.
    subst c. split.
    + intros Hroom Hlive. split.
      * destruct (succeeds_if_Ok _ _ _
                    (Insert_grow dflt heap_limit v pos r Hwf Hpos Hgrow Hroom)
                    Hlive)
          as ([p v'] & Hv' & Hp & Hs & Hc & _ & Hl & _).
        simpl in *. subst p. exists v'. done.
      * destruct (succeeds_if_Ok _ _ _
                    (Insert_rvalue_grow dflt moved_from self_moved heap_limit
                       v pos r Hwf Hpos Hgrow Hroom) Hlive)
          as ([p v'] & Hv' & Hp & Hs & Hc & _ & Hl & _).
        simpl in *. subst p. exists v'. done.
    + intros Hroom.
      split; [by apply Insert_no_room | by apply Insert_rvalue_no_room].
  - intros new_size Hgrow c. fold (growth_policy v new_size) in c. subst c.
    split.
    + intros Hroom.
      destruct (Resize_grow dflt moved_from heap_limit v new_size Hwf Hgrow
                  Hroom)
        as (v' & Hv' & Hs & Hc & _ & _ & Hl). eauto.
    + intros Hroom. by apply Resize_no_room.
Qed.

Lemma C2_growth_policy_witness :
  wf (mkSimpleVector (mkArrayPtr (Some [1; 2])) 2 2) /\
  (exists v', PushBack 0 trivial_move 100
                (mkSimpleVector (mkArrayPtr (Some [1; 2])) 2 2) (outside 7)
              = Ok v' /\
              capacity_ v' = 4 /\ size_ v' = 3 /\
              Z.of_nat (length (block (items_ v'))) = 4) /\
  (exists v', PushBack_rvalue 0 trivial_move trivial_move 100
                (mkSimpleVector (mkArrayPtr (Some [1; 2])) 2 2) (element 0)
              = Ok v' /\
              capacity_ v' = 4 /\ size_ v' = 3 /\
              Z.of_nat (length (block (items_ v'))) = 4) /\
  (exists v', Insert 0 100
                (mkSimpleVector (mkArrayPtr (Some [1; 2])) 2 2) 1 (outside 7)
              = Ok (1, v') /\
              capacity_ v' = 4 /\ size_ v' = 3 /\
              Z.of_nat (length (block (items_ v'))) = 4) /\
  (exists v', Resize 0 trivial_move 100
                (mkSimpleVector (mkArrayPtr (Some [1; 2])) 2 2) 3
              = Ok v' /\
              capacity_ v' = 4 /\ size_ v' = 3 /\
              Z.of_nat (length (block (items_ v'))) = 4) /\
  (exists v', Resize 0 trivial_move 100
                (mkSimpleVector (mkArrayPtr (Some [1; 2])) 2 2) 7
              = Ok v' /\
              capacity_ v' = 7 /\ size_ v' = 7 /\
              Z.of_nat (length (block (items_ v'))) = 7) /\
  PushBack 0 trivial_move 3
    (mkSimpleVector (mkArrayPtr (Some [1; 2])) 2 2) (outside 7)
  = Throw bad_alloc.
Proof.
  assert (Hwf : wf (mkSimpleVector (mkArrayPtr (Some [1; 2])) 2 2))
    by wf_concrete.
  destruct (C2_growth_policy 0 trivial_move trivial_move 100
              (mkSimpleVector (mkArrayPtr (Some [1; 2])) 2 2) Hwf)
    as (Hpush & Hins & Hres).
  destruct (C2_growth_policy 0 trivial_move trivial_move 3
              (mkSimpleVector (mkArrayPtr (Some [1; 2])) 2 2) Hwf)
    as (Hpush3 & _ & _).
  split; [exact Hwf|]. split_and!.
  - destruct (Hpush (outside 7)) as [H _]; [simpl; lia|].
    apply H; [|exact I]. unfold room. simpl. rewrite PTRDIFF_MAX_val. lia.
  - destruct (Hpush (element 0)) as [H _]; [simpl; lia|].
    apply H; [|simpl; lia]. unfold room. simpl. rewrite PTRDIFF_MAX_val. lia.
  - destruct (Hins 1 (outside 7)) as [H _]; [simpl; lia | simpl; lia |].
    apply H; [|exact I]. unfold room. simpl. rewrite PTRDIFF_MAX_val. lia.
  - destruct (Hres 3) as [H _]; [simpl; lia|].
    apply H. unfold room. simpl. rewrite PTRDIFF_MAX_val. lia.
  - destruct (Hres 7) as [H _]; [simpl; lia|].
    apply H. unfold room. simpl. rewrite PTRDIFF_MAX_val. lia.
  - destruct (Hpush3 (outside 7)) as [_ H]; [simpl; lia|].
    apply H. unfold room. simpl. lia.
Defined.

(** C3.  Round trip: on a vector that satisfies the class invariant, for a
    position [pos] in [0, size], [Insert] at [pos] (when the element fits or
    the allocator can serve the grown block) returns, [Erase] at [pos] on
    the result returns, and the element sequence is the original one.  The
    copying overload may be given any object outside the vector or any of
    its live elements; the moving overload is given an object outside the
    vector. *)
Theorem C3_Insert_Erase_roundtrip {T : Type} (dflt : T)
        (moved_from self_moved : T -> T) (heap_limit : Z)
        (v : SimpleVector T) (pos : Z) :
  wf v -> 0 <= pos <= size_ v ->
  size_ v + 1 <= capacity_ v \/
  room heap_limit (Z.max (2 * capacity_ v) (size_ v + 1)) ->
  (forall r, live_ref v r ->
   exists v' v'',
     Insert dflt heap_limit v pos r = Ok (pos, v') /\
     Erase moved_from self_moved v' pos = Ok (pos, v'') /\
     to_list v'' = to_list v) /\
  (forall x,
   exists v' v'',
     Insert_rvalue dflt moved_from self_moved heap_limit v pos (outside x)
     = Ok (pos, v') /\
     Erase moved_from self_moved v' pos = Ok (pos, v'') /\
     to_list v'' = to_list v).
Proof.
  intros Hwf Hpos Hroom.
  assert (Hback : forall v' y,
            size_ v' = size_ v + 1 -> wf v' ->
            (forall k, to_list v' !! k = inserted v pos y k) ->
            exists v'', Erase moved_from self_moved v' pos = Ok (pos, v'') /\
                        to_list v'' = to_list v).
  { intros v' y Hs Hwf' Hl.
    destruct (Erase_spec moved_from self_moved v' pos Hwf')
      as (v'' & Hera & Hs' & _ & _ & Hl' & _); [lia|].
    exists v''. split; [done|].
    apply list_eq. intros k. rewrite Hl'. unfold erased.
    pose proof (Hl k) as Hk. pose proof (Hl (k + 1)%nat) as Hk1.
    rewrite to_list_lookup in Hk, Hk1. rewrite to_list_lookup.
    unfold inserted in Hk, Hk1.
    repeat case_decide; try lia; try congruence.
    all: rewrite Hk1; f_equal; lia. }
  split.
  - intros r Hlive.
    assert (succeeds_if (live_ref v r) (Insert dflt heap_limit v pos r)
              (fun res => fst res = pos /\ size_ (snd res) = size_ v + 1 /\
                 wf (snd res) /\
                 exists y,
                   forall k, to_list (snd res) !! k = inserted v pos y k))
      as Hins.
    { destruct (Z_le_gt_dec (size_ v + 1) (capacity_ v)) as [Hfit|Hgrow].
      - eapply succeeds_if_weaken; [|by apply Insert_fit].
        intros res (? & ? & ? & ? & y & ? & ?). eauto 10.
      - destruct Hroom as [?|Hroom]; [lia|].
        eapply succeeds_if_weaken; [|apply Insert_grow; (done || lia)].
        intros res (? & ? & ? & ? & ? & y & ? & ?). eauto 10. }
    destruct (succeeds_if_Ok _ _ _ Hins Hlive)
      as ([p v'] & Hv' & Hp & Hs & Hwf' & y & Hl).
    simpl in *. subst p.
    destruct (Hback v' y Hs Hwf' Hl) as (v'' & ? & ?). eauto.
  - intros x.
    assert (succeeds_if (live_ref v (outside x))
              (Insert_rvalue dflt moved_from self_moved heap_limit v pos
                 (outside x))
              (fun res => fst res = pos /\ size_ (snd res) = size_ v + 1 /\
                 wf (snd res) /\
                 forall k, to_list (snd res) !! k = inserted v pos x k))
      as Hins.
    { destruct (Z_le_gt_dec (size_ v + 1) (capacity_ v)) as [Hfit|Hgrow].
      - eapply succeeds_if_weaken; [|by apply Insert_rvalue_fit].
        intros res (? & ? & ? & ? & ?). eauto 10.
      - destruct Hroom as [?|Hroom]; [lia|].
        eapply succeeds_if_weaken; [|apply Insert_rvalue_grow; (done || lia)].
        intros res (? & ? & ? & ? & ? & ?). eauto 10. }
    destruct (succeeds_if_Ok _ _ _ Hins I)
      as ([p v'] & Hv' & Hp & Hs & Hwf' & Hl).
    simpl in *. subst p.
    destruct (Hback v' x Hs Hwf' Hl) as (v'' & ? & ?). eauto.
Qed.

Lemma C3_Insert_Erase_roundtrip_witness :
  (exists v' v'',
     Insert 0 100 (mkSimpleVector (mkArrayPtr (Some [1; 2; 3])) 3 3) 1
       (element 2)
     = Ok (1, v') /\
     Erase trivial_move trivial_move v' 1 = Ok (1, v'') /\
     to_list v'' = [1; 2; 3]) /\
  (exists v' v'',
     Insert_rvalue 0 trivial_move trivial_move 100
       (mkSimpleVector (mkArrayPtr (Some [1; 2; 3])) 3 3) 1 (outside 99)
     = Ok (1, v') /\
     Erase trivial_move trivial_move v' 1 = Ok (1, v'') /\
     to_list v'' = [1; 2; 3]).
Proof.
  destruct (C3_Insert_Erase_roundtrip 0 trivial_move trivial_move 100
              (mkSimpleVector (mkArrayPtr (Some [1; 2; 3])) 3 3) 1)
    as [Hcopy Hmove].
  - wf_concrete.
  - simpl. lia.
  - right. unfold room. simpl. rewrite PTRDIFF_MAX_val. lia.
  - split.
    + apply (Hcopy (element 2)). simpl. lia.
    + apply (Hmove 99).
Defined.

(** C4.  After every constructor and every call of a non-const member
    function the objects satisfy the class invariant, of which
    [size <= capacity] is the first part: in every store reached from the
    empty one by calls that return, and after one more call on any store
    that satisfies it.  A sequence of [PushBack] calls on a vector either
    returns a vector whose capacity is at least the original one or leaves
    with [std::bad_alloc].  No member function other than the assignment
    operators and [swap] lowers the capacity of the object it is called
    on. *)
Theorem C4_size_le_capacity {T : Type} (dflt : T)
        (moved_from self_moved : T -> T) (heap_limit : Z) :
  (forall (cs : list call) (σ : gmap nat (SimpleVector T)),
     Forall call_args_ok cs ->
     run dflt moved_from self_moved heap_limit cs ∅ = Ok σ ->
     forall a v, σ !! a = Some v -> 0 <= size_ v <= capacity_ v) /\
  (forall (c : call) (σ σ' : gmap nat (SimpleVector T)),
     store_wf σ -> call_args_ok c ->
     exec dflt moved_from self_moved heap_limit c σ = Ok σ' ->
     store_wf σ' /\
     forall a v, σ' !! a = Some v -> 0 <= size_ v <= capacity_ v) /\
  (forall (v : SimpleVector T) (items : list pushed),
     wf v ->
     returns (PushBack_all dflt moved_from self_moved heap_limit v items)
       (fun v' =>
       size_ v' <= capacity_ v' /\ capacity_ v <= capacity_ v')) /\
  (forall (c : call) (σ σ' : gmap nat (SimpleVector T)) this v,
     store_wf σ -> call_args_ok c -> own_mutator c = Some this ->
     σ !! this = Some v ->
     exec dflt moved_from self_moved heap_limit c σ = Ok σ' ->
     exists v', σ' !! this = Some v' /\ capacity_ v <= capacity_ v').
Proof.
  split_and!.
  - intros cs σ Hargs Hrun a v Hv.
    assert (store_wf σ) as Hσ
      by (eapply run_wf; [apply store_wf_empty | done | exact Hrun]).
    apply (Hσ a v Hv).
  - intros c σ σ' Hσ Hargs Hok.
    assert (store_wf σ') as Hσ' by (by eapply exec_wf).
    split; [done|]. intros a v Hv. apply (Hσ' a v Hv).
  - intros v items Hwf.
    eapply returns_weaken; [|by apply PushBack_all_returns].
    intros v' (Hwf' & Hc & _). split; [apply Hwf' | done].
  - intros c σ σ' this v. by apply exec_capacity.
Qed.

Lemma C4_size_le_capacity_witness :
  returns (PushBack_all 0 trivial_move trivial_move 100
             (@SimpleVector_default Z)
             [by_move 1; by_copy 2; by_move 3])
          (fun v' => size_ v' <= capacity_ v' /\ 0 <= capacity_ v') /\
  PushBack_all 0 trivial_move trivial_move 100 (@SimpleVector_default Z)
    [by_move 1; by_copy 2; by_move 3]
  = Ok (mkSimpleVector (mkArrayPtr (Some [1; 2; 3; 0])) 3 4).
Proof.
  split; [|reflexivity].
  destruct (C4_size_le_capacity 0 trivial_move trivial_move 100)
    as (_ & _ & H & _).
  apply (H SimpleVector_default [by_move 1; by_copy 2; by_move 3]).
  wf_concrete.
Defined.

(** C5.  Move construction and move assignment from another object: the
    destination holds the element sequence, the size and the capacity the
    source had, and the source is left with size 0 and capacity 0. *)
Theorem C5_move_empties_source {T : Type} (σ : gmap nat (SimpleVector T))
        (this other : nat) (o : SimpleVector T) :
  this <> other -> σ !! other = Some o ->
  (exists σ' d s,
     move_construct this other σ = Ok σ' /\
     σ' !! this = Some d /\ σ' !! other = Some s /\
     to_list d = to_list o /\ size_ d = size_ o /\
     capacity_ d = capacity_ o /\ size_ s = 0 /\ capacity_ s = 0) /\
  (forall t, σ !! this = Some t ->
   exists σ' d s,
     move_assign this other σ = Ok σ' /\
     σ' !! this = Some d /\ σ' !! other = Some s /\
     to_list d = to_list o /\ size_ d = size_ o /\
     capacity_ d = capacity_ o /\ size_ s = 0 /\ capacity_ s = 0).
Proof.
  intros Hne Ho. split.
  - unfold move_construct. rewrite (deref_Some _ _ _ Ho). cbn [bind].
    rewrite SimpleVector_move_spec.
    eexists _, o, _. split; [reflexivity|]. split_and!.
    + apply lookup_insert_eq.
    + rewrite lookup_insert_ne by done. apply lookup_insert_eq.
    + done.
    + done.
    + done.
    + done.
    + done.
  - intros t Ht. rewrite (move_assign_distinct _ _ _ _ _ Hne Ht Ho).
    eexists _, o, _. split; [reflexivity|]. split_and!.
    + apply lookup_insert_eq.
    + rewrite lookup_insert_ne by done. apply lookup_insert_eq.
    + done.
    + done.
    + done.
    + done.
    + done.
Qed.

Lemma C5_move_empties_source_witness :
  (exists σ' d s,
     move_construct 2 1
       (<[1%nat := mkSimpleVector (mkArrayPtr (Some [1; 2; 3; 0])) 3 4]> ∅)
     = Ok σ' /\
     σ' !! 2%nat = Some d /\ σ' !! 1%nat = Some s /\
     to_list d = [1; 2; 3] /\ size_ d = 3 /\ capacity_ d = 4 /\
     size_ s = 0 /\ capacity_ s = 0) /\
  (exists σ' d s,
     move_assign 0 1
       (<[0%nat := mkSimpleVector (mkArrayPtr (Some [9])) 1 1]>
          (<[1%nat := mkSimpleVector (mkArrayPtr (Some [1; 2; 3; 0])) 3 4]> ∅))
     = Ok σ' /\
     σ' !! 0%nat = Some d /\ σ' !! 1%nat = Some s /\
     to_list d = [1; 2; 3] /\ size_ d = 3 /\ capacity_ d = 4 /\
     size_ s = 0 /\ capacity_ s = 0).
Proof.
  split.
  - apply (C5_move_empties_source
             (<[1%nat := mkSimpleVector (mkArrayPtr (Some [1; 2; 3; 0])) 3 4]>
                ∅)
             2%nat 1%nat
             (mkSimpleVector (mkArrayPtr (Some [1; 2; 3; 0])) 3 4)).
    + lia.
    + reflexivity.
  - destruct (C5_move_empties_source
                (<[0%nat := mkSimpleVector (mkArrayPtr (Some [9])) 1 1]>
                   (<[1%nat :=
                        mkSimpleVector (mkArrayPtr (Some [1; 2; 3; 0])) 3 4]>
                      ∅))
                0%nat 1%nat
                (mkSimpleVector (mkArrayPtr (Some [1; 2; 3; 0])) 3 4))
      as [_ Hassign].
    + lia.
    + reflexivity.
    + apply (Hassign (mkSimpleVector (mkArrayPtr (Some [9])) 1 1)).
      reflexivity.
Defined.

(** C6.  The concrete scenario, on a heap that can serve ten elements.  The
    elements are integers, which a move leaves in place. *)
Theorem C6_scenario (heap_limit : Z) :
  10 <= heap_limit ->
  exists v1 v2 v3 v4 v5 v6 v7 v8 v9 : SimpleVector Z,
    PushBack_rvalue 0 trivial_move trivial_move heap_limit
      SimpleVector_default (outside 1) = Ok v1 /\
    PushBack_rvalue 0 trivial_move trivial_move heap_limit v1 (outside 2)
    = Ok v2 /\
    PushBack_rvalue 0 trivial_move trivial_move heap_limit v2 (outside 3)
    = Ok v3 /\
    size_ v3 = 3 /\ to_list v3 = [1; 2; 3] /\
    Insert_rvalue 0 trivial_move trivial_move heap_limit v3 (begin v3 + 1)
      (outside 99) = Ok (begin v4 + 1, v4) /\
    to_list v4 = [1; 99; 2; 3] /\ size_ v4 = 4 /\
    Erase trivial_move trivial_move v4 (begin v4 + 1) = Ok (begin v5 + 1, v5) /\
    to_list v5 = [1; 2; 3] /\ size_ v5 = 3 /\
    Resize 0 trivial_move heap_limit v5 5 = Ok v6 /\
    to_list v6 = [1; 2; 3; 0; 0] /\ size_ v6 = 5 /\ 5 <= capacity_ v6 /\
    Clear v6 = v7 /\ size_ v7 = 0 /\ capacity_ v7 = capacity_ v6 /\
    Reserve 0 trivial_move heap_limit v7 10 = Ok v8 /\
    capacity_ v8 = 10 /\ size_ v8 = 0 /\
    Reserve 0 trivial_move heap_limit SimpleVector_default 10 = Ok v9 /\
    capacity_ v9 = 10 /\ size_ v9 = 0.
Proof.
  intros Hl.
  assert (Hroom : forall n, n <= 10 ->
            new_array 0 heap_limit n = Ok (Some (replicate (Z.to_nat n) 0))).
  { intros n Hn. apply new_array_room. unfold room.
    rewrite PTRDIFF_MAX_val. lia. }
  exists (mkSimpleVector (mkArrayPtr (Some [1])) 1 1).
  exists (mkSimpleVector (mkArrayPtr (Some [1; 2])) 2 2).
  exists (mkSimpleVector (mkArrayPtr (Some [1; 2; 3; 0])) 3 4).
  exists (mkSimpleVector (mkArrayPtr (Some [1; 99; 2; 3])) 4 4).
  exists (mkSimpleVector (mkArrayPtr (Some [1; 2; 3; 3])) 3 4).
  exists (mkSimpleVector (mkArrayPtr (Some [1; 2; 3; 0; 0; 0; 0; 0])) 5 8).
  exists (mkSimpleVector (mkArrayPtr (Some [1; 2; 3; 0; 0; 0; 0; 0])) 0 8).
  exists (mkSimpleVector (mkArrayPtr (Some (replicate 10 0))) 0 10).
  exists (mkSimpleVector (mkArrayPtr (Some (replicate 10 0))) 0 10).
  split_and!; try reflexivity; try (simpl; lia).
  all: unfold PushBack_rvalue, Resize, Reserve, ReallocateMove, ArrayPtr_sized;
    rewrite Hroom by (vm_compute; discriminate); vm_compute; reflexivity.
Qed.

Lemma C6_scenario_witness :
  10 <= 10 /\
  exists v5 v6 : SimpleVector Z,
    to_list v5 = [1; 2; 3] /\ Resize 0 trivial_move 10 v5 5 = Ok v6 /\
    to_list v6 = [1; 2; 3; 0; 0].
Proof.
  split; [lia|].
  destruct (C6_scenario 10) as
    (v1 & v2 & v3 & v4 & v5 & v6 & v7 & v8 & v9 & _ & _ & _ & _ & _ & _ & _
     & _ & _ & H5 & _ & H6 & H7 & _); [lia|].
  exists v5, v6. split; [exact H5|]. split; [exact H6 | exact H7].
Defined.

(** C7.  Copy assignment from an empty source sets the size of the target
    to 0 and keeps its capacity and its buffer; no other object changes. *)
Theorem C7_copy_assign_from_empty {T : Type} (dflt : T) (heap_limit : Z)
        (σ : gmap nat (SimpleVector T)) (this rhs : nat)
        (t r : SimpleVector T) :
  σ !! this = Some t -> σ !! rhs = Some r -> size_ r = 0 ->
  exists σ' t',
    copy_assign dflt heap_limit this rhs σ = Ok σ' /\
    σ' !! this = Some t' /\
    size_ t' = 0 /\ capacity_ t' = capacity_ t /\ items_ t' = items_ t /\
    forall a, a <> this -> σ' !! a = σ !! a.
Proof.
  intros Ht Hr Hs. exists (<[this := Clear t]> σ), (Clear t).
  split; [by eapply copy_assign_empty|]. split_and!.
  - apply lookup_insert_eq.
  - reflexivity.
  - reflexivity.
  - reflexivity.
  - intros a Ha. by rewrite lookup_insert_ne.
Qed.

Lemma C7_copy_assign_from_empty_witness :
  exists σ' t',
    copy_assign 0 100 0 1
      (<[0%nat := mkSimpleVector (mkArrayPtr (Some [1; 2; 3; 0])) 3 4]>
         (<[1%nat := SimpleVector_default]> ∅))
    = Ok σ' /\
    σ' !! 0%nat = Some t' /\
    size_ t' = 0 /\ capacity_ t' = 4 /\
    items_ t' = mkArrayPtr (Some [1; 2; 3; 0]) /\
    forall a, a <> 0%nat ->
      σ' !! a =
      (<[0%nat := mkSimpleVector (mkArrayPtr (Some [1; 2; 3; 0])) 3 4]>
         (<[1%nat := SimpleVector_default]> ∅)
       : gmap nat (SimpleVector Z)) !! a.
Proof.
  apply (C7_copy_assign_from_empty 0 100
           (<[0%nat := mkSimpleVector (mkArrayPtr (Some [1; 2; 3; 0])) 3 4]>
              (<[1%nat := SimpleVector_default]> ∅))
           0%nat 1%nat
           (mkSimpleVector (mkArrayPtr (Some [1; 2; 3; 0])) 3 4)
           SimpleVector_default).
  - reflexivity.
  - reflexivity.
  - reflexivity.
Defined.

(** C8.  Copy self-assignment [a = a] changes nothing: the store, and with
    it the size, the capacity and the elements of [a], is the same. *)
Theorem C8_copy_self_assignment {T : Type} (dflt : T) (heap_limit : Z)
        (σ : gmap nat (SimpleVector T)) (a : nat) :
  copy_assign dflt heap_limit a a σ = Ok σ.
Proof. apply copy_assign_self. Qed.

(** C9.  [operator==] is true exactly when the sizes are equal and the
    elements are pairwise equal in order; [operator<] is the lexicographic
    order of the element sequences; [!=], [>], [<=] and [>=] are the
    negation of [==], [<] with the operands exchanged, the negation of
    that, and the negation of [<]; and the three sample comparisons
    hold. *)
Theorem C9_comparisons {T : Type} (eqb ltb : T -> T -> bool)
        (v w : SimpleVector T) :
  wf v -> wf w ->
  (exists r, operator_eq eqb v w = Ok r /\
     (r = true <->
      size_ v = size_ w /\
      Forall2 (fun x y => eqb x y = true) (to_list v) (to_list w))) /\
  (exists r, operator_lt ltb v w = Ok r /\
     (r = true <-> lexicographic ltb (to_list v) (to_list w))) /\
  operator_ne eqb v w = (let* r := operator_eq eqb v w in Ok (negb r)) /\
  operator_gt ltb v w = operator_lt ltb w v /\
  operator_le ltb v w = (let* r := operator_lt ltb w v in Ok (negb r)) /\
  operator_ge ltb v w = (let* r := operator_lt ltb v w in Ok (negb r)) /\
  (let* a := SimpleVector_init 0 3 [1; 2; 3] in
   let* b := SimpleVector_init 0 3 [1; 2; 4] in
   operator_lt Z.ltb a b) = Ok true /\
  (let* a := SimpleVector_init 0 3 [1; 2] in
   let* b := SimpleVector_init 0 3 [1; 2; 3] in
   operator_lt Z.ltb a b) = Ok true /\
  (let* a := SimpleVector_init 0 3 [1; 2; 3] in
   let* b := SimpleVector_init 0 3 [1; 2; 3] in
   operator_eq Z.eqb a b) = Ok true.
Proof.
  intros Hv Hw. split_and!; try reflexivity.
  - by apply operator_eq_spec.
  - by apply operator_lt_spec.
Qed.

Lemma C9_comparisons_witness :
  exists r,
    operator_lt Z.ltb (mkSimpleVector (mkArrayPtr (Some [1; 2; 3])) 3 3)
                      (mkSimpleVector (mkArrayPtr (Some [1; 2; 4; 0])) 3 4)
    = Ok r /\
    (r = true <-> lexicographic Z.ltb [1; 2; 3] [1; 2; 4]).
Proof.
  destruct (C9_comparisons Z.eqb Z.ltb
              (mkSimpleVector (mkArrayPtr (Some [1; 2; 3])) 3 3)
              (mkSimpleVector (mkArrayPtr (Some [1; 2; 4; 0])) 3 4))
    as (_ & Hlt & _).
  - wf_concrete.
  - wf_concrete.
  - exact Hlt.
Defined.

(** C10.  Move self-assignment [a = std::move(a)] changes nothing, although
    the operator has no guard: exchanging the handle of [a] with itself
    leaves it in place, and each of [size_] and [capacity_] is set to 0 and
    then back to the value read before. *)
Theorem C10_move_self_assignment {T : Type} (σ : gmap nat (SimpleVector T))
        (a : nat) (v : SimpleVector T) :
  σ !! a = Some v ->
  swap_items a a σ = Ok σ /\ move_assign a a σ = Ok σ.
Proof.
  intros Hv. split; [|by eapply move_assign_self].
  rewrite (swap_items_spec _ _ _ _ _ Hv Hv).
  rewrite insert_insert_eq, SimpleVector_eta. f_equal. by apply insert_id.
Qed.

Lemma C10_move_self_assignment_witness :
  move_assign 0 0
    (<[0%nat := mkSimpleVector (mkArrayPtr (Some [1; 2; 3; 0])) 3 4]> ∅)
  = Ok (<[0%nat := mkSimpleVector (mkArrayPtr (Some [1; 2; 3; 0])) 3 4]> ∅).
Proof.
  apply (C10_move_self_assignment
           (<[0%nat := mkSimpleVector (mkArrayPtr (Some [1; 2; 3; 0])) 3 4]> ∅)
           0%nat (mkSimpleVector (mkArrayPtr (Some [1; 2; 3; 0])) 3 4)).
  reflexivity.
Defined.

(** * Further properties of the code *)

(** ** Element sequences as lists *)

Section Sequences.
Context {T : Type}.
Variable dflt : T.
Implicit Types (v : SimpleVector T) (x : T) (l : list T).

Lemma block_to_list v (k : nat) :
  Z.of_nat k < size_ v -> block (items_ v) !! k = to_list v !! k.
Proof. intros H. rewrite to_list_lookup. case_decide; [done | lia]. Qed.

Lemma to_list_beyond v (k : nat) :
  size_ v <= Z.of_nat k -> to_list v !! k = None.
Proof. intros H. rewrite to_list_lookup. case_decide; [lia | done]. Qed.

Lemma inserted_list v pos x l :
  wf v -> 0 <= pos <= size_ v ->
  (forall k, l !! k = inserted v pos x k) ->
  l = take (Z.to_nat pos) (to_list v) ++ x :: drop (Z.to_nat pos) (to_list v).
Proof.
  intros Hwf Hpos Hl. pose proof (to_list_length v Hwf) as Hlen.
  apply list_eq. intros k. rewrite Hl. unfold inserted.
  assert (Htake : length (take (Z.to_nat pos) (to_list v)) = Z.to_nat pos)
    by (rewrite length_take; lia).
  destruct (decide (Z.of_nat k < pos)).
  - rewrite lookup_app_l by lia. rewrite lookup_take_lt by lia.
    apply block_to_list. lia.
  - rewrite lookup_app_r by lia. rewrite Htake.
    destruct (decide (Z.of_nat k = pos)).
    + replace (k - Z.to_nat pos)%nat with 0%nat by lia. done.
    + replace (k - Z.to_nat pos)%nat with (S (k - Z.to_nat pos - 1)) by lia.
      simpl. rewrite lookup_drop.
      replace (Z.to_nat pos + (k - Z.to_nat pos - 1))%nat with (k - 1)%nat
        by lia.
      case_decide.
      * apply block_to_list. lia.
      * symmetry. apply to_list_beyond. lia.
Qed.

Lemma erased_list v pos l :
  wf v -> 0 <= pos < size_ v ->
  (forall k, l !! k = erased v pos k) ->
  l = take (Z.to_nat pos) (to_list v) ++ drop (Z.to_nat pos + 1) (to_list v).
Proof.
  intros Hwf Hpos Hl. pose proof (to_list_length v Hwf) as Hlen.
  apply list_eq. intros k. rewrite Hl. unfold erased.
  assert (Htake : length (take (Z.to_nat pos) (to_list v)) = Z.to_nat pos)
    by (rewrite length_take; lia).
  destruct (decide (Z.of_nat k < pos)).
  - rewrite lookup_app_l by lia. rewrite lookup_take_lt by lia.
    apply block_to_list. lia.
  - rewrite lookup_app_r by lia. rewrite Htake, lookup_drop.
    replace (Z.to_nat pos + 1 + (k - Z.to_nat pos))%nat with (k + 1)%nat by lia.
    case_decide.
    + apply block_to_list. lia.
    + symmetry. apply to_list_beyond. lia.
Qed.

Lemma resized_list v new_size l :
  wf v -> 0 <= new_size ->
  (forall k, l !! k = resized dflt v new_size k) ->
  l = take (Z.to_nat new_size) (to_list v) ++
      replicate (Z.to_nat (new_size - size_ v)) dflt.
Proof.
  intros Hwf Hn Hl. pose proof (to_list_length v Hwf) as Hlen.
  apply list_eq. intros k. rewrite Hl. unfold resized.
  assert (Htake : Z.of_nat (length (take (Z.to_nat new_size) (to_list v)))
                  = Z.min (size_ v) new_size)
    by (rewrite length_take; lia).
  destruct (decide (Z.of_nat k < Z.min (size_ v) new_size)).
  - rewrite lookup_app_l by lia. rewrite lookup_take_lt by lia.
    apply block_to_list. lia.
  - rewrite lookup_app_r by lia. case_decide.
    + symmetry. apply lookup_replicate_2. lia.
    + symmetry. apply lookup_replicate_None. lia.
Qed.

End Sequences.

(** ** Element access *)

(** X1.  Inside the live range the checked accessors [At], [At const] and
    [operator[] const] and the unchecked [operator[]] all return the
    element at that position of the sequence. *)
Theorem X1_access_in_range {T : Type} (v : SimpleVector T) (i : Z) :
  wf v -> 0 <= i < size_ v ->
  exists x, to_list v !! Z.to_nat i = Some x /\
    At v i = Ok x /\ At_const v i = Ok x /\
    index v i = Ok x /\ index_const v i = Ok x.
Proof. apply index_in_range. Qed.

Lemma X1_access_in_range_witness :
  exists x, to_list (mkSimpleVector (mkArrayPtr (Some [5; 6; 7; 0])) 3 4)
            !! Z.to_nat 2 = Some x /\
    At (mkSimpleVector (mkArrayPtr (Some [5; 6; 7; 0])) 3 4) 2 = Ok x /\
    At_const (mkSimpleVector (mkArrayPtr (Some [5; 6; 7; 0])) 3 4) 2 = Ok x /\
    index (mkSimpleVector (mkArrayPtr (Some [5; 6; 7; 0])) 3 4) 2 = Ok x /\
    index_const (mkSimpleVector (mkArrayPtr (Some [5; 6; 7; 0])) 3 4) 2 = Ok x.
Proof.
  apply (X1_access_in_range
           (mkSimpleVector (mkArrayPtr (Some [5; 6; 7; 0])) 3 4) 2).
  - wf_concrete.
  - simpl. lia.
Defined.

(** X2.  At a position [>= size], also one that lies inside the allocated
    capacity, no accessor reads the buffer: [At] and [At const] throw
    [std::out_of_range], [operator[] const] ends in [std::terminate], and
    [operator[]] stops at its assertion.  This holds for every state of the
    three fields. *)
Theorem X2_access_out_of_range {T : Type} (v : SimpleVector T) (i : Z) :
  size_ v <= i ->
  At v i = Throw (out_of_range range_msg) /\
  At_const v i = Throw (out_of_range range_msg) /\
  index_const v i = Terminate /\
  index v i = AssertFail.
Proof.
  intros H. destruct (At_out_of_range v i H) as [H1 H2].
  split_and!; [done | done | by apply index_const_out_of_range
              | by apply index_out_of_range].
Qed.

Lemma X2_access_out_of_range_witness :
  At (mkSimpleVector (mkArrayPtr (Some [5; 6; 7; 0])) 3 4) 3
  = Throw (out_of_range range_msg) /\
  At_const (mkSimpleVector (mkArrayPtr (Some [5; 6; 7; 0])) 3 4) 3
  = Throw (out_of_range range_msg) /\
  index_const (mkSimpleVector (mkArrayPtr (Some [5; 6; 7; 0])) 3 4) 3
  = Terminate /\
  index (mkSimpleVector (mkArrayPtr (Some [5; 6; 7; 0])) 3 4) 3 = AssertFail.
Proof.
  apply (X2_access_out_of_range
           (mkSimpleVector (mkArrayPtr (Some [5; 6; 7; 0])) 3 4) 3).
  simpl. lia.
Defined.

(** ** [PushBack] *)

Section PushBackFacts.
Context {T : Type}.
Variable dflt : T.
Variable moved_from : T -> T.
Variable self_moved : T -> T.
Variable heap_limit : Z.
Implicit Types (v : SimpleVector T) (x y : T).

Lemma At_last v l x :
  wf v -> 0 < size_ v -> to_list v = l ++ [x] -> At v (size_ v - 1) = Ok x.
Proof.
  intros Hwf Hs Hl. pose proof (to_list_length v Hwf) as Hlen.
  destruct (index_in_range v (size_ v - 1) Hwf) as (y & Hy & HAt & _);
    [lia|].
  rewrite HAt. f_equal. rewrite Hl in Hy, Hlen.
  rewrite length_app in Hlen. simpl in Hlen.
  rewrite lookup_app_r in Hy by lia.
  replace (Z.to_nat (size_ v - 1) - length l)%nat with 0%nat in Hy by lia.
  by injection Hy.
Qed.

Lemma ref_value_is_live v (r : ref T) y :
  ref_value v r = Some y -> live_ref v r.
Proof. intros H%ref_value_Some. destruct r; [exact I | apply H]. Qed.

Lemma PushBack_appends v (r : ref T) y :
  wf v -> ref_value v r = Some y ->
  returns (PushBack dflt moved_from heap_limit v r) (fun v' =>
    size_ v' = size_ v + 1 /\
    to_list v' = to_list v ++ [PushBack_reads moved_from v r y] /\
    At v' (size_ v) = Ok (PushBack_reads moved_from v r y)).
Proof.
  intros Hwf Hy.
  eapply returns_weaken;
    [|eapply returns_if_live;
       [by apply PushBack_returns | by eapply ref_value_is_live]].
  intros v' (Hwf' & Hs & _ & z & Hl & Hz).
  rewrite (Hz y Hy) in Hl. split_and!; [done | done |].
  replace (size_ v) with (size_ v' - 1) by lia.
  eapply At_last; [done | |exact Hl].
  pose proof (wf_bounds v Hwf). lia.
Qed.

Lemma PushBack_rvalue_appends v x :
  wf v ->
  returns (PushBack_rvalue dflt moved_from self_moved heap_limit v (outside x))
    (fun v' =>
       size_ v' = size_ v + 1 /\ to_list v' = to_list v ++ [x] /\
       At v' (size_ v) = Ok x).
Proof.
  intros Hwf.
  eapply returns_weaken;
    [|eapply returns_if_live; [by apply PushBack_rvalue_returns | exact I]].
  intros v' (Hwf' & Hs & _ & Hl). specialize (Hl x eq_refl).
  split_and!; [done | done |].
  replace (size_ v) with (size_ v' - 1) by lia.
  eapply At_last; [done | |exact Hl].
  pose proof (wf_bounds v Hwf). lia.
Qed.

(** One [PushBack] of an object outside the vector, by either overload. *)
Lemma pushed_fit v (p : @pushed T) :
  wf v -> size_ v + 1 <= capacity_ v ->
  exists v1, PushBack_all dflt moved_from self_moved heap_limit v [p] = Ok v1 /\
    size_ v1 = size_ v + 1 /\ capacity_ v1 = capacity_ v /\ wf v1 /\
    block (items_ v1) =
    <[Z.to_nat (size_ v) := pushed_item p]> (block (items_ v)).
Proof.
  intros Hwf Hfit. destruct p as [x|x]; simpl.
  - destruct (succeeds_if_Ok _ _ _
                (PushBack_fit dflt moved_from heap_limit v (outside x) Hwf Hfit)
                I)
      as (v1 & -> & Hs & Hc & Hwf1 & y & Hb & Hy).
    rewrite (Hy x eq_refl) in Hb. simpl. eauto 10.
  - destruct (succeeds_if_Ok _ _ _
                (PushBack_rvalue_fit dflt moved_from self_moved heap_limit v
                   (outside x) Hwf Hfit) I)
      as (v1 & -> & Hs & Hc & Hwf1 & Hb).
    specialize (Hb x eq_refl). simpl. eauto 10.
Qed.

Lemma pushed_grow v (p : @pushed T) :
  wf v -> capacity_ v < size_ v + 1 ->
  room heap_limit (growth_policy v (size_ v + 1)) ->
  exists v1, PushBack_all dflt moved_from self_moved heap_limit v [p] = Ok v1 /\
    size_ v1 = size_ v + 1 /\
    capacity_ v1 = growth_policy v (size_ v + 1) /\ wf v1.
Proof.
  intros Hwf Hgrow Hroom.
  destruct (succeeds_if_Ok _ _ _
              (PushBack_grow dflt moved_from heap_limit v
                 (outside (pushed_item p)) Hwf Hgrow Hroom) I)
    as (v1 & Hv1 & Hs & Hc & Hwf1 & _).
  exists v1. split; [|done]. destruct p as [x|x]; simpl in *.
  - by rewrite Hv1.
  - rewrite PushBack_rvalue_grow_eq
      by (rewrite size_t_succ by done; lia).
    by rewrite Hv1.
Qed.

Lemma pushed_no_room v (p : @pushed T) :
  wf v -> capacity_ v < size_ v + 1 ->
  ~ room heap_limit (growth_policy v (size_ v + 1)) ->
  PushBack_all dflt moved_from self_moved heap_limit v [p] = Throw bad_alloc.
Proof.
  intros Hwf Hgrow Hroom. destruct p as [x|x]; simpl.
  - by rewrite PushBack_no_room.
  - rewrite PushBack_rvalue_grow_eq
      by (rewrite size_t_succ by done; lia).
    by rewrite PushBack_no_room.
Qed.

Lemma PushBack_all_cons v (p : @pushed T) rest :
  PushBack_all dflt moved_from self_moved heap_limit v (p :: rest) =
  let* v1 := PushBack_all dflt moved_from self_moved heap_limit v [p] in
  PushBack_all dflt moved_from self_moved heap_limit v1 rest.
Proof.
  destruct p as [x|x]; simpl.
  - by destruct (PushBack _ _ _ _ _) as [?|?| | |].
  - by destruct (PushBack_rvalue _ _ _ _ _ _) as [?|?| | |].
Qed.

(** While the elements fit, a run of [PushBack] calls stays in the block
    it started with. *)
Lemma PushBack_all_fit (items : list (@pushed T)) : forall v,
  wf v -> size_ v + Z.of_nat (length items) <= capacity_ v ->
  exists v', PushBack_all dflt moved_from self_moved heap_limit v items
             = Ok v' /\
    wf v' /\ capacity_ v' = capacity_ v /\
    length (block (items_ v')) = length (block (items_ v)) /\
    size_ v' = size_ v + Z.of_nat (length items) /\
    to_list v' = to_list v ++ map pushed_item items.
Proof.
  induction items as [|p rest IH]; intros v Hwf Hfit.
  - exists v. simpl. rewrite app_nil_r. split_and!; (done || lia).
  - simpl in Hfit.
    destruct (pushed_fit v p Hwf) as (v1 & Hv1 & Hs1 & Hc1 & Hwf1 & Hb1);
      [lia|].
    assert (Hl1 : to_list v1 = to_list v ++ [pushed_item p]).
    { apply to_list_snoc; [done | done |].
      intros k Hk. rewrite Hb1. pose proof (wf_bounds v Hwf). case_decide.
      - assert (k = Z.to_nat (size_ v)) as -> by lia.
        apply list_lookup_insert_eq. lia.
      - apply list_lookup_insert_ne. lia. }
    destruct (IH v1 Hwf1) as (v' & Hv' & Hwf' & Hc' & Hb' & Hs' & Hl');
      [lia|].
    exists v'. split.
    { rewrite PushBack_all_cons, Hv1. exact Hv'. }
    split_and!; try (done || lia).
    + rewrite Hb', Hb1. apply length_insert.
    + rewrite Hs', Hs1. simpl length. lia.
    + rewrite Hl', Hl1, <- app_assoc. reflexivity.
Qed.

(** The capacity a run of [PushBack] calls reaches: the one it started
    with, or at most twice the size. *)
Lemma PushBack_all_bound (items : list (@pushed T)) : forall v bound,
  wf v -> capacity_ v <= Z.max bound (2 * size_ v) ->
  returns (PushBack_all dflt moved_from self_moved heap_limit v items)
    (fun v' => capacity_ v' <= Z.max bound (2 * size_ v')).
Proof.
  induction items as [|p rest IH]; intros v bound Hwf Hb; [exact Hb|].
  rewrite PushBack_all_cons.
  assert (Hstep : returns
            (PushBack_all dflt moved_from self_moved heap_limit v [p])
            (fun v1 => wf v1 /\ capacity_ v1 <= Z.max bound (2 * size_ v1))).
  { pose proof (wf_bounds v Hwf) as Hv.
    destruct (Z_le_gt_dec (size_ v + 1) (capacity_ v)) as [Hfit|Hgrow].
    - destruct (pushed_fit v p Hwf Hfit) as (v1 & -> & Hs1 & Hc1 & Hwf1 & _).
      simpl. split; [done | lia].
    - destruct (room_dec heap_limit (growth_policy v (size_ v + 1)))
        as [Hr|Hr].
      + destruct (pushed_grow v p Hwf) as (v1 & -> & Hs1 & Hc1 & Hwf1);
          [lia | done |].
        simpl. split; [done|]. rewrite Hc1. unfold growth_policy. lia.
      + rewrite pushed_no_room by (done || lia). exact I. }
  eapply returns_bind; [exact Hstep|].
  intros v1 [Hwf1 Hb1]. by apply IH.
Qed.

End PushBackFacts.

(** X3.  [PushBack] on a vector that satisfies the class invariant returns
    or leaves with [std::bad_alloc]; when it returns the size has grown by
    one, the element sequence is the old one followed by one new element,
    and [At] at the old size yields that element.  For an argument outside
    the vector the new element is its value, with either overload.  For the
    copying overload and an argument that is the live element [v[i]] of the
    vector itself, the new element is [v[i]] when the call does not
    reallocate, and what a move leaves of [v[i]] when it does:
    [ReallocateMove] has moved the elements out of the old block before the
    argument is read. *)
Theorem X3_PushBack_appends {T : Type} (dflt : T)
        (moved_from self_moved : T -> T) (heap_limit : Z)
        (v : SimpleVector T) (x : T) (i : Z) (y : T) :
  wf v ->
  returns (PushBack dflt moved_from heap_limit v (outside x)) (fun v' =>
    size_ v' = size_ v + 1 /\ to_list v' = to_list v ++ [x] /\
    At v' (size_ v) = Ok x) /\
  returns (PushBack_rvalue dflt moved_from self_moved heap_limit v (outside x))
    (fun v' =>
       size_ v' = size_ v + 1 /\ to_list v' = to_list v ++ [x] /\
       At v' (size_ v) = Ok x) /\
  (0 <= i < size_ v -> to_list v !! Z.to_nat i = Some y ->
   let appended :=
     if decide (size_ v + 1 <= capacity_ v) then y else moved_from y in
   returns (PushBack dflt moved_from heap_limit v (element i)) (fun v' =>
     size_ v' = size_ v + 1 /\ to_list v' = to_list v ++ [appended] /\
     At v' (size_ v) = Ok appended)).
Proof.
  intros Hwf. split_and!.
  - exact (PushBack_appends dflt moved_from heap_limit v (outside x) x Hwf
             eq_refl).
  - by apply PushBack_rvalue_appends.
  - intros Hi Hy.
    apply (PushBack_appends dflt moved_from heap_limit v (element i) y Hwf).
    simpl. case_decide; [done | lia].
Qed.

Lemma X3_PushBack_appends_witness :
  returns (PushBack EmptyString (fun _ => EmptyString) 100
             (mkSimpleVector (mkArrayPtr (Some ["a"%string])) 1 1) (element 0))
    (fun v' =>
       size_ v' = 2 /\ to_list v' = ["a"%string; EmptyString] /\
       At v' 1 = Ok EmptyString) /\
  PushBack EmptyString (fun _ => EmptyString) 100
    (mkSimpleVector (mkArrayPtr (Some ["a"%string])) 1 1) (element 0)
  = Ok (mkSimpleVector (mkArrayPtr (Some ["a"%string; EmptyString])) 2 2) /\
  PushBack EmptyString (fun _ => EmptyString) 100
    (mkSimpleVector (mkArrayPtr (Some ["a"%string; "b"%string])) 1 2)
    (element 0)
  = Ok (mkSimpleVector (mkArrayPtr (Some ["a"%string; "a"%string])) 2 2).
Proof.
  split; [|split; reflexivity].
  destruct (X3_PushBack_appends EmptyString (fun _ => EmptyString)
              (fun s => s) 100
              (mkSimpleVector (mkArrayPtr (Some ["a"%string])) 1 1)
              "b"%string 0 "a"%string) as (_ & _ & H).
  - wf_concrete.
  - apply H; [simpl; lia | reflexivity].
Defined.

(** X4.  While the elements fit in the capacity, a sequence of [PushBack]
    calls never allocates: it returns whatever the allocator could serve,
    keeps the capacity and the block, and appends the elements in order.
    This is what makes the storage kept by [Clear] and obtained by
    [Reserve] reusable. *)
Theorem X4_PushBack_within_capacity {T : Type} (dflt : T)
        (moved_from self_moved : T -> T) (heap_limit : Z)
        (v : SimpleVector T) (items : list pushed) :
  wf v -> size_ v + Z.of_nat (length items) <= capacity_ v ->
  exists v',
    PushBack_all dflt moved_from self_moved heap_limit v items = Ok v' /\
    wf v' /\ capacity_ v' = capacity_ v /\
    length (block (items_ v')) = length (block (items_ v)) /\
    size_ v' = size_ v + Z.of_nat (length items) /\
    to_list v' = to_list v ++ map pushed_item items.
Proof. intros Hwf Hfit. by apply PushBack_all_fit. Qed.

Lemma X4_PushBack_within_capacity_witness :
  exists v',
    PushBack_all 0 trivial_move trivial_move (-1)
      (Clear (mkSimpleVector (mkArrayPtr (Some [5; 6; 7; 0])) 3 4))
      [by_copy 1; by_move 2] = Ok v' /\
    wf v' /\ capacity_ v' = 4 /\
    length (block (items_ v')) = 4%nat /\
    size_ v' = 2 /\ to_list v' = [1; 2].
Proof.
  apply (X4_PushBack_within_capacity 0 trivial_move trivial_move (-1)
           (Clear (mkSimpleVector (mkArrayPtr (Some [5; 6; 7; 0])) 3 4))
           [by_copy 1; by_move 2]).
  - wf_concrete.
  - simpl. lia.
Defined.

(** X5.  Doubling never over-allocates: after a sequence of [PushBack]
    calls that returns, the capacity is at most the larger of the capacity
    before the sequence and twice the size reached. *)
Theorem X5_PushBack_capacity_bound {T : Type} (dflt : T)
        (moved_from self_moved : T -> T) (heap_limit : Z)
        (v : SimpleVector T) (items : list pushed) :
  wf v ->
  returns (PushBack_all dflt moved_from self_moved heap_limit v items)
    (fun v' => capacity_ v' <= Z.max (capacity_ v) (2 * size_ v')).
Proof. intros Hwf. apply PushBack_all_bound; [done | lia]. Qed.

Lemma X5_PushBack_capacity_bound_witness :
  returns (PushBack_all 0 trivial_move trivial_move 100 SimpleVector_default
             [by_copy 1; by_copy 2; by_copy 3; by_copy 4; by_copy 5])
    (fun v' => capacity_ v' <= Z.max 0 (2 * size_ v')) /\
  exists v', PushBack_all 0 trivial_move trivial_move 100 SimpleVector_default
               [by_copy 1; by_copy 2; by_copy 3; by_copy 4; by_copy 5]
             = Ok v' /\ capacity_ v' = 8 /\ size_ v' = 5.
Proof.
  split.
  - apply (X5_PushBack_capacity_bound 0 trivial_move trivial_move 100
             SimpleVector_default
             [by_copy 1; by_copy 2; by_copy 3; by_copy 4; by_copy 5]).
    wf_concrete.
  - eexists. split; [reflexivity|]. split; reflexivity.
Defined.

(** ** [Reserve], [Resize] and [ReallocateMove] *)

Section CapacityFacts.
Context {T : Type}.
Variable dflt : T.
Variable moved_from : T -> T.
Variable heap_limit : Z.
Implicit Types (v : SimpleVector T) (x : T).

Lemma Reserve_max v new_capacity :
  wf v ->
  returns (Reserve dflt moved_from heap_limit v new_capacity) (fun v' =>
    wf v' /\ size_ v' = size_ v /\ to_list v' = to_list v /\
    capacity_ v' = Z.max (capacity_ v) new_capacity).
Proof.
  intros Hwf.
  destruct (Z_le_gt_dec new_capacity (capacity_ v)) as [Hle|Hgt].
  - rewrite Reserve_enough by done. simpl. split_and!; (done || lia).
  - destruct (room_dec heap_limit new_capacity) as [Hr|Hr].
    + destruct (Reserve_grow dflt moved_from heap_limit v new_capacity Hwf)
        as (v' & -> & Hs & Hc & Hwf' & Hl); [lia | done |].
      simpl. split_and!; (done || lia).
    + rewrite Reserve_no_room by (done || lia). exact I.
Qed.

Lemma Resize_list v new_size :
  wf v -> 0 <= new_size ->
  returns (Resize dflt moved_from heap_limit v new_size) (fun v' =>
    wf v' /\ size_ v' = new_size /\
    to_list v' = take (Z.to_nat new_size) (to_list v) ++
                 replicate (Z.to_nat (new_size - size_ v)) dflt).
Proof.
  intros Hwf Hn. eapply returns_weaken; [|by apply Resize_returns].
  intros v' (Hwf' & Hs & _ & Hl). split_and!; [done | done |].
  by apply resized_list.
Qed.

Lemma ReallocateMove_list v new_capacity :
  wf v -> 0 < new_capacity -> room heap_limit new_capacity ->
  exists p old,
    ReallocateMove dflt moved_from heap_limit v new_capacity = Ok (p, old) /\
    block p = take (Z.to_nat new_capacity) (to_list v) ++
              replicate (Z.to_nat (new_capacity - size_ v)) dflt /\
    block old =
      (moved_from <$> take (Z.to_nat new_capacity) (to_list v)) ++
      drop (Z.to_nat (Z.min new_capacity (size_ v))) (block (items_ v)).
Proof.
  intros Hwf Hpos Hroom. pose proof (wf_bounds v Hwf) as Hb.
  destruct (ReallocateMove_room dflt moved_from heap_limit v new_capacity Hwf
              Hpos Hroom)
    as (p & old & Hp & _ & Hk & Hol & Hold).
  exists p, old. split; [done|]. split.
  - apply resized_list; [done | lia |].
    intros k. rewrite Hk. unfold resized.
    repeat case_decide; (lia || done).
  - apply list_eq. intros k. rewrite Hold.
    assert (Hlen : length (moved_from <$>
                             take (Z.to_nat new_capacity) (to_list v))
                   = Z.to_nat (Z.min new_capacity (size_ v))).
    { rewrite length_fmap, length_take.
      pose proof (to_list_length v Hwf). lia. }
    case_decide.
    + rewrite lookup_app_l by lia. rewrite list_lookup_fmap.
      rewrite lookup_take_lt by lia. rewrite block_to_list by lia. done.
    + rewrite lookup_app_r by lia. rewrite Hlen, lookup_drop.
      f_equal. lia.
Qed.

End CapacityFacts.

(** X6.  [Reserve] returns or leaves with [std::bad_alloc]; when it returns,
    the size and the elements are the same and the capacity is the larger of
    the old capacity and the request, so it never shrinks.  A request that
    does not exceed the capacity returns the vector as it is. *)
Theorem X6_Reserve {T : Type} (dflt : T) (moved_from : T -> T)
        (heap_limit : Z)
        (v : SimpleVector T) (new_capacity : Z) :
  wf v ->
  returns (Reserve dflt moved_from heap_limit v new_capacity) (fun v' =>
    wf v' /\ size_ v' = size_ v /\ to_list v' = to_list v /\
    capacity_ v' = Z.max (capacity_ v) new_capacity) /\
  (new_capacity <= capacity_ v ->
   Reserve dflt moved_from heap_limit v new_capacity = Ok v).
Proof.
  intros Hwf. split; [by apply Reserve_max | apply Reserve_enough].
Qed.

Lemma X6_Reserve_witness :
  returns (Reserve 0 trivial_move 100
             (mkSimpleVector (mkArrayPtr (Some [5; 6; 7])) 2 3) 6)
    (fun v' =>
       wf v' /\ size_ v' = 2 /\ to_list v' = [5; 6] /\ capacity_ v' = 6) /\
  Reserve 0 trivial_move 100
    (mkSimpleVector (mkArrayPtr (Some [5; 6; 7])) 2 3) 6
  = Ok (mkSimpleVector (mkArrayPtr (Some [5; 6; 0; 0; 0; 0])) 2 6).
Proof.
  split; [|reflexivity].
  destruct (X6_Reserve 0 trivial_move 100
              (mkSimpleVector (mkArrayPtr (Some [5; 6; 7])) 2 3) 6) as [H _].
  - wf_concrete.
  - exact H.
Defined.

(** X7.  [Resize(n)] returns or leaves with [std::bad_alloc]; when it
    returns, the size is [n] and the elements are the first [n] old ones
    followed by default values.  Slots beyond the old size are always
    overwritten, so a value left behind by [PopBack], [Erase] or [Clear]
    never reappears. *)
Theorem X7_Resize_content {T : Type} (dflt : T) (moved_from : T -> T)
        (heap_limit : Z)
        (v : SimpleVector T) (new_size : Z) :
  wf v -> 0 <= new_size ->
  returns (Resize dflt moved_from heap_limit v new_size) (fun v' =>
    wf v' /\ size_ v' = new_size /\
    to_list v' = take (Z.to_nat new_size) (to_list v) ++
                 replicate (Z.to_nat (new_size - size_ v)) dflt).
Proof. intros Hwf Hn. by apply Resize_list. Qed.

Lemma X7_Resize_content_witness :
  returns (Resize 0 trivial_move 100
             (mkSimpleVector (mkArrayPtr (Some [5; 6; 7; 8])) 2 4) 3)
    (fun v' => wf v' /\ size_ v' = 3 /\ to_list v' = [5; 6; 0]) /\
  Resize 0 trivial_move 100
    (mkSimpleVector (mkArrayPtr (Some [5; 6; 7; 8])) 2 4) 3
  = Ok (mkSimpleVector (mkArrayPtr (Some [5; 6; 0; 8])) 3 4).
Proof.
  split; [|reflexivity].
  apply (X7_Resize_content 0 trivial_move 100
           (mkSimpleVector (mkArrayPtr (Some [5; 6; 7; 8])) 2 4) 3).
  - wf_concrete.
  - lia.
Defined.

(** X8.  [ReallocateMove(n)] for [n > 0]: with room for [n] elements it
    returns a block of the first [n] live elements followed by default
    values, and leaves the elements it took moved-from in the block of the
    vector, although the member is [const]; without room it leaves with
    [std::bad_alloc]. *)
Theorem X8_ReallocateMove {T : Type} (dflt : T) (moved_from : T -> T)
        (heap_limit : Z) (v : SimpleVector T) (new_capacity : Z) :
  wf v -> 0 < new_capacity ->
  (room heap_limit new_capacity ->
   exists p old,
     ReallocateMove dflt moved_from heap_limit v new_capacity = Ok (p, old) /\
     block p = take (Z.to_nat new_capacity) (to_list v) ++
               replicate (Z.to_nat (new_capacity - size_ v)) dflt /\
     block old =
       (moved_from <$> take (Z.to_nat new_capacity) (to_list v)) ++
       drop (Z.to_nat (Z.min new_capacity (size_ v))) (block (items_ v))) /\
  (~ room heap_limit new_capacity ->
   ReallocateMove dflt moved_from heap_limit v new_capacity
   = Throw bad_alloc).
Proof.
  intros Hwf Hpos. split.
  - by apply ReallocateMove_list.
  - by apply ReallocateMove_no_room.
Qed.

Lemma X8_ReallocateMove_witness :
  (exists p old,
     ReallocateMove 0 (fun _ => -1) 100
       (mkSimpleVector (mkArrayPtr (Some [5; 6; 7])) 2 3) 4
     = Ok (p, old) /\
     block p = [5; 6; 0; 0] /\ block old = [-1; -1; 7]) /\
  ReallocateMove 0 (fun _ => -1) 3
    (mkSimpleVector (mkArrayPtr (Some [5; 6; 7])) 2 3) 4
  = Throw bad_alloc.
Proof.
  split.
  - destruct (X8_ReallocateMove 0 (fun _ => -1) 100
                (mkSimpleVector (mkArrayPtr (Some [5; 6; 7])) 2 3) 4)
      as [H _]; [wf_concrete | lia |].
    apply H. unfold room. rewrite PTRDIFF_MAX_val. lia.
  - destruct (X8_ReallocateMove 0 (fun _ => -1) 3
                (mkSimpleVector (mkArrayPtr (Some [5; 6; 7])) 2 3) 4)
      as [_ H]; [wf_concrete | lia |].
    apply H. unfold room. lia.
Defined.

(** ** [Insert], [Erase] and [PopBack] *)

Section InsertEraseFacts.
Context {T : Type}.
Variable dflt : T.
Variable moved_from : T -> T.
Variable self_moved : T -> T.
Variable heap_limit : Z.
Implicit Types (v : SimpleVector T) (x y : T).

Lemma At_inserted v v' pos y :
  wf v' -> 0 <= pos <= size_ v -> size_ v' = size_ v + 1 ->
  (forall k, to_list v' !! k = inserted v pos y k) ->
  At v' pos = Ok y.
Proof.
  intros Hwf' Hpos Hs Hl.
  destruct (index_in_range v' pos Hwf') as (z & Hz & HAt & _); [lia|].
  rewrite HAt. f_equal. rewrite Hl in Hz. unfold inserted in Hz.
  repeat case_decide; try lia. by injection Hz.
Qed.

Lemma Insert_list v pos (r : ref T) y :
  wf v -> 0 <= pos <= size_ v -> live_ref v r ->
  ref_value v (Insert_reads v pos r) = Some y ->
  returns (Insert dflt heap_limit v pos r) (fun res =>
    fst res = pos /\ wf (snd res) /\ size_ (snd res) = size_ v + 1 /\
    to_list (snd res) =
      take (Z.to_nat pos) (to_list v) ++ y :: drop (Z.to_nat pos) (to_list v) /\
    At (snd res) (fst res) = Ok y).
Proof.
  intros Hwf Hpos Hlive Hy.
  eapply returns_weaken;
    [|eapply returns_if_live; [by apply Insert_returns | done]].
  intros [it v'] (Hit & Hwf' & Hs & _ & z & Hl & Hz). simpl in *. subst it.
  rewrite (Hz y Hy) in Hl.
  split_and!; [done | done | done | by apply inserted_list |].
  by eapply At_inserted.
Qed.

Lemma Insert_rvalue_list v pos x :
  wf v -> 0 <= pos <= size_ v ->
  returns
    (Insert_rvalue dflt moved_from self_moved heap_limit v pos (outside x))
    (fun res =>
       fst res = pos /\ wf (snd res) /\ size_ (snd res) = size_ v + 1 /\
       to_list (snd res) =
         take (Z.to_nat pos) (to_list v) ++
         x :: drop (Z.to_nat pos) (to_list v) /\
       At (snd res) (fst res) = Ok x).
Proof.
  intros Hwf Hpos.
  eapply returns_weaken;
    [|eapply returns_if_live; [by apply Insert_rvalue_returns | exact I]].
  intros [it v'] (Hit & Hwf' & Hs & _ & Hl). simpl in *. subst it.
  specialize (Hl x eq_refl).
  split_and!; [done | done | done | by apply inserted_list |].
  by eapply At_inserted.
Qed.

Lemma Erase_list v pos :
  wf v -> 0 <= pos < size_ v ->
  exists v', Erase moved_from self_moved v pos = Ok (pos, v') /\
    wf v' /\ size_ v' = size_ v - 1 /\ capacity_ v' = capacity_ v /\
    to_list v' =
      take (Z.to_nat pos) (to_list v) ++ drop (Z.to_nat pos + 1) (to_list v).
Proof.
  intros Hwf Hpos.
  destruct (Erase_spec moved_from self_moved v pos Hwf Hpos)
    as (v' & He & Hs & Hc & Hwf' & Hl & _).
  exists v'. split_and!; try done. by apply erased_list.
Qed.

Lemma PopBack_list v :
  wf v -> 0 < size_ v ->
  exists v', PopBack v = Ok v' /\
    wf v' /\ size_ v' = size_ v - 1 /\ capacity_ v' = capacity_ v /\
    items_ v' = items_ v /\
    to_list v' = take (Z.to_nat (size_ v - 1)) (to_list v).
Proof.
  intros Hwf Hs.
  destruct (PopBack_spec v Hwf Hs) as (v' & Hp & Hs' & Hc & Hwf' & Hi).
  exists v'. split_and!; try done.
  unfold to_list. rewrite Hi, Hs', take_take. f_equal. lia.
Qed.

(** Erasing the last element is [PopBack]: no element is moved. *)
Lemma Erase_last v :
  wf v -> 0 < size_ v ->
  exists v', Erase moved_from self_moved v (size_ v - 1)
             = Ok (size_ v - 1, v') /\
             PopBack v = Ok v'.
Proof.
  intros Hwf Hs. pose proof (wf_bounds v Hwf) as Hb.
  unfold Erase, PopBack, IsEmpty, begin, end_, cbegin, std_move_within, Get.
  destruct (Z.leb_spec 0 (size_ v - 1)); [|lia].
  destruct (Z.ltb_spec (size_ v - 1) (size_ v)); [|lia].
  destruct (Z.eqb_spec (size_ v) 0); [lia|]. simpl.
  destruct (Z.ltb_spec (size_ v) (0 + (size_ v - 1 - 0) + 1)); [lia|].
  replace (Z.to_nat (size_ v - (0 + (size_ v - 1 - 0) + 1))) with 0%nat by lia.
  simpl. eexists. split; [|reflexivity].
  destruct v as [[p] s c]. simpl. do 2 f_equal. lia.
Qed.

End InsertEraseFacts.

(** X9.  [Insert] at a position in [0, size] returns or leaves with
    [std::bad_alloc]; when it returns, the iterator is the position asked
    for, the size has grown by one, the elements are the old ones before the
    position, one new element, and the old ones from the position on, and
    [At] at the returned position yields the new element.  For an argument
    outside the vector the new element is its value, with either overload.
    For the copying overload and an argument that is the live element
    [v[i]] of the vector itself, the new element is [v[i]], except in an
    insertion in place in front of it ([pos < i], no reallocation): there
    [std::copy_backward] has shifted the block before the argument is read,
    and the new element is [v[i - 1]]. *)
Theorem X9_Insert_content {T : Type} (dflt : T)
        (moved_from self_moved : T -> T) (heap_limit : Z)
        (v : SimpleVector T) (pos : Z) (x : T) (i : Z) (y : T) :
  wf v -> 0 <= pos <= size_ v ->
  returns (Insert dflt heap_limit v pos (outside x)) (fun r =>
    fst r = pos /\ wf (snd r) /\ size_ (snd r) = size_ v + 1 /\
    to_list (snd r) =
      take (Z.to_nat pos) (to_list v) ++ x :: drop (Z.to_nat pos) (to_list v) /\
    At (snd r) (fst r) = Ok x) /\
  returns
    (Insert_rvalue dflt moved_from self_moved heap_limit v pos (outside x))
    (fun r =>
       fst r = pos /\ wf (snd r) /\ size_ (snd r) = size_ v + 1 /\
       to_list (snd r) =
         take (Z.to_nat pos) (to_list v) ++
         x :: drop (Z.to_nat pos) (to_list v) /\
       At (snd r) (fst r) = Ok x) /\
  (0 <= i < size_ v ->
   to_list v !! Z.to_nat (if decide (size_ v + 1 <= capacity_ v /\ pos < i)
                          then i - 1 else i) = Some y ->
   returns (Insert dflt heap_limit v pos (element i)) (fun r =>
     fst r = pos /\ wf (snd r) /\ size_ (snd r) = size_ v + 1 /\
     to_list (snd r) =
       take (Z.to_nat pos) (to_list v) ++ y :: drop (Z.to_nat pos) (to_list v) /\
     At (snd r) (fst r) = Ok y)).
Proof.
  intros Hwf Hpos. split_and!.
  - by apply Insert_list.
  - by apply Insert_rvalue_list.
  - intros Hi Hy. apply Insert_list; [done | done | exact Hi |].
    unfold Insert_reads. case_decide; simpl; (case_decide; [done | lia]).
Qed.

Lemma X9_Insert_content_witness :
  returns (Insert 0 100 (mkSimpleVector (mkArrayPtr (Some [1; 2; 3; 0])) 3 4)
             0 (element 2))
    (fun r =>
       fst r = 0 /\ wf (snd r) /\ size_ (snd r) = 4 /\
       to_list (snd r) = [2; 1; 2; 3] /\ At (snd r) (fst r) = Ok 2) /\
  Insert 0 100 (mkSimpleVector (mkArrayPtr (Some [1; 2; 3; 0])) 3 4)
    0 (element 2)
  = Ok (0, mkSimpleVector (mkArrayPtr (Some [2; 1; 2; 3])) 4 4) /\
  Insert 0 100 (mkSimpleVector (mkArrayPtr (Some [1; 2; 3])) 3 3)
    0 (element 2)
  = Ok (0, mkSimpleVector (mkArrayPtr (Some [3; 1; 2; 3; 0; 0])) 4 6) /\
  Insert 0 100 (mkSimpleVector (mkArrayPtr (Some [5; 6; 7])) 3 3) 1 (outside 9)
  = Ok (1, mkSimpleVector (mkArrayPtr (Some [5; 9; 6; 7; 0; 0])) 4 6).
Proof.
  split; [|split_and!; reflexivity].
  destruct (X9_Insert_content 0 trivial_move trivial_move 100
              (mkSimpleVector (mkArrayPtr (Some [1; 2; 3; 0])) 3 4) 0 9 2 2)
    as (_ & _ & H).
  - wf_concrete.
  - simpl. lia.
  - apply H; [simpl; lia | reflexivity].
Defined.

(** X10.  [Erase] at a position in [0, size) always returns, for it never
    allocates: the iterator is the position asked for, the size has dropped
    by one, the capacity is the same, and the elements are the old ones
    without the one at the position. *)
Theorem X10_Erase_content {T : Type} (moved_from self_moved : T -> T)
        (v : SimpleVector T) (pos : Z) :
  wf v -> 0 <= pos < size_ v ->
  exists v', Erase moved_from self_moved v pos = Ok (pos, v') /\
    wf v' /\ size_ v' = size_ v - 1 /\ capacity_ v' = capacity_ v /\
    to_list v' =
      take (Z.to_nat pos) (to_list v) ++ drop (Z.to_nat pos + 1) (to_list v).
Proof. apply Erase_list. Qed.

Lemma X10_Erase_content_witness :
  exists v',
    Erase trivial_move trivial_move
      (mkSimpleVector (mkArrayPtr (Some [5; 6; 7; 0])) 3 4) 0
    = Ok (0, v') /\
    wf v' /\ size_ v' = 2 /\ capacity_ v' = 4 /\ to_list v' = [6; 7].
Proof.
  apply (X10_Erase_content trivial_move trivial_move
           (mkSimpleVector (mkArrayPtr (Some [5; 6; 7; 0])) 3 4) 0).
  - wf_concrete.
  - simpl. lia.
Defined.

(** X11.  A violated precondition stops at the assertion before anything
    is written: [Insert] (either overload, whatever the argument) at a
    position outside [0, size], [Erase] at a position outside [0, size) -
    every position of an empty vector - and [PopBack] on an empty vector. *)
Theorem X11_precondition_asserts {T : Type} (dflt : T)
        (moved_from self_moved : T -> T) (heap_limit : Z)
        (v : SimpleVector T) :
  (forall pos r, ~ 0 <= pos <= size_ v ->
     Insert dflt heap_limit v pos r = AssertFail /\
     Insert_rvalue dflt moved_from self_moved heap_limit v pos r
     = AssertFail) /\
  (forall pos, ~ 0 <= pos < size_ v ->
     Erase moved_from self_moved v pos = AssertFail) /\
  (size_ v = 0 -> forall pos, Erase moved_from self_moved v pos = AssertFail) /\
  (size_ v = 0 -> PopBack v = AssertFail).
Proof.
  split_and!.
  - intros pos x H. split;
      [by apply Insert_out_of_range | by apply Insert_rvalue_out_of_range].
  - intros pos H. by apply Erase_out_of_range.
  - intros Hs pos. apply Erase_out_of_range. lia.
  - apply PopBack_empty.
Qed.

Lemma X11_precondition_asserts_witness :
  Insert 0 100 (mkSimpleVector (mkArrayPtr (Some [5; 6; 7; 0])) 3 4) 4
    (outside 9)
  = AssertFail /\
  Erase trivial_move trivial_move
    (mkSimpleVector (mkArrayPtr (Some [5; 6; 7; 0])) 3 4) 3 = AssertFail /\
  PopBack (@SimpleVector_default Z) = AssertFail /\
  Erase trivial_move trivial_move (@SimpleVector_default Z) 0 = AssertFail.
Proof.
  destruct (X11_precondition_asserts 0 trivial_move trivial_move 100
              (mkSimpleVector (mkArrayPtr (Some [5; 6; 7; 0])) 3 4))
    as (Hi & He & _ & _).
  destruct (X11_precondition_asserts 0 trivial_move trivial_move 100
              (@SimpleVector_default Z))
    as (_ & _ & He0 & Hp0).
  split_and!.
  - apply Hi. simpl. lia.
  - apply He. simpl. lia.
  - apply Hp0. reflexivity.
  - apply He0. reflexivity.
Defined.

(** X12.  [PopBack] on a non-empty vector returns the vector without its
    last element, with the same buffer and capacity; it undoes a
    [PushBack]: pushing an element - an object outside the vector or one of
    its live elements - and popping it gives back the original elements and
    size. *)
Theorem X12_PopBack {T : Type} (dflt : T) (moved_from : T -> T)
        (heap_limit : Z) (v : SimpleVector T) (r : ref T) :
  wf v ->
  (0 < size_ v ->
   exists v', PopBack v = Ok v' /\
     wf v' /\ size_ v' = size_ v - 1 /\ capacity_ v' = capacity_ v /\
     items_ v' = items_ v /\
     to_list v' = take (Z.to_nat (size_ v - 1)) (to_list v)) /\
  (live_ref v r ->
   returns (PushBack dflt moved_from heap_limit v r) (fun v' =>
     exists v'', PopBack v' = Ok v'' /\
       size_ v'' = size_ v /\ to_list v'' = to_list v)).
Proof.
  intros Hwf. split; [by apply PopBack_list|]. intros Hlive.
  eapply returns_weaken;
    [|eapply returns_if_live; [by apply PushBack_returns | done]].
  intros v' (Hwf' & Hs & _ & y & Hl & _).
  pose proof (wf_bounds v Hwf) as Hb.
  pose proof (to_list_length v Hwf) as Hlen.
  destruct (PopBack_list v' Hwf') as (v'' & Hp & _ & Hs'' & _ & _ & Hl'');
    [lia|].
  exists v''. split_and!; [done | lia |].
  rewrite Hl'', Hl. apply take_app_length'. lia.
Qed.

Lemma X12_PopBack_witness :
  (exists v',
     PopBack (mkSimpleVector (mkArrayPtr (Some [5; 6; 7; 0])) 3 4) = Ok v' /\
     wf v' /\ size_ v' = 2 /\ capacity_ v' = 4 /\
     items_ v' = mkArrayPtr (Some [5; 6; 7; 0]) /\ to_list v' = [5; 6]) /\
  returns (PushBack 0 trivial_move 100
             (mkSimpleVector (mkArrayPtr (Some [5; 6; 7; 0])) 3 4)
             (outside 9))
    (fun v' => exists v'', PopBack v' = Ok v'' /\
       size_ v'' = 3 /\ to_list v'' = [5; 6; 7]).
Proof.
  destruct (X12_PopBack 0 trivial_move 100
              (mkSimpleVector (mkArrayPtr (Some [5; 6; 7; 0])) 3 4)
              (outside 9))
    as [Hpop Hpush].
  - wf_concrete.
  - split; [apply Hpop; simpl; lia | apply Hpush; exact I].
Defined.

(** X13.  Erasing the element at a position and inserting a copy of it that
    was taken before - an object outside the vector - at that position
    restores the element sequence and keeps the capacity; neither step
    allocates, so the pair returns whatever the allocator could serve, with
    either overload of [Insert]. *)
Theorem X13_Erase_Insert_roundtrip {T : Type} (dflt : T)
        (moved_from self_moved : T -> T) (heap_limit : Z)
        (v : SimpleVector T) (pos : Z) (x : T) :
  wf v -> 0 <= pos < size_ v -> to_list v !! Z.to_nat pos = Some x ->
  exists v' v'' w'',
    Erase moved_from self_moved v pos = Ok (pos, v') /\
    Insert dflt heap_limit v' pos (outside x) = Ok (pos, v'') /\
    Insert_rvalue dflt moved_from self_moved heap_limit v' pos (outside x)
    = Ok (pos, w'') /\
    to_list v'' = to_list v /\ size_ v'' = size_ v /\
    capacity_ v'' = capacity_ v /\
    to_list w'' = to_list v /\ size_ w'' = size_ v /\
    capacity_ w'' = capacity_ v.
Proof.
  intros Hwf Hpos Hx. pose proof (wf_bounds v Hwf) as Hb.
  assert (Hx' : block (items_ v) !! Z.to_nat pos = Some x).
  { rewrite <- Hx. apply block_to_list. lia. }
  destruct (Erase_spec moved_from self_moved v pos Hwf Hpos)
    as (v' & He & Hs & Hc & Hwf' & Hl & _).
  assert (Hback : forall u, size_ u = size_ v' + 1 ->
            (forall k, to_list u !! k = inserted v' pos x k) ->
            to_list u = to_list v).
  { intros u Hu Hl'. apply list_eq. intros k. rewrite Hl'. unfold inserted.
    pose proof (Hl k) as Hk. pose proof (Hl (k - 1)%nat) as Hk1.
    rewrite to_list_lookup in Hk, Hk1. unfold erased in Hk, Hk1.
    rewrite to_list_lookup.
    repeat case_decide; try lia; try congruence.
    all: first [ assert (k = Z.to_nat pos) as -> by lia; by rewrite Hx'
               | rewrite Hk1; f_equal; lia ]. }
  destruct (succeeds_if_Ok _ _ _
              (Insert_fit dflt heap_limit v' pos (outside x) Hwf'
                 ltac:(lia) ltac:(lia)) I)
    as ([p v''] & Hi & Hp & Hs' & Hc' & _ & y & Hl' & Hy).
  simpl in *. subst p. assert (y = x) as -> by (by apply Hy).
  destruct (succeeds_if_Ok _ _ _
              (Insert_rvalue_fit dflt moved_from self_moved heap_limit v' pos
                 (outside x) Hwf' ltac:(lia) ltac:(lia)) I)
    as ([p w''] & Hi2 & Hp2 & Hs2 & Hc2 & _ & Hl2).
  simpl in *. subst p. specialize (Hl2 x eq_refl).
  exists v', v'', w''. split_and!; try (done || lia).
  - by apply Hback.
  - by apply Hback.
Qed.

Lemma X13_Erase_Insert_roundtrip_witness :
  exists v' v'' w'',
    Erase trivial_move trivial_move
      (mkSimpleVector (mkArrayPtr (Some [5; 6; 7])) 3 3) 1 = Ok (1, v') /\
    Insert 0 (-1) v' 1 (outside 6) = Ok (1, v'') /\
    Insert_rvalue 0 trivial_move trivial_move (-1) v' 1 (outside 6)
    = Ok (1, w'') /\
    to_list v'' = [5; 6; 7] /\ size_ v'' = 3 /\ capacity_ v'' = 3 /\
    to_list w'' = [5; 6; 7] /\ size_ w'' = 3 /\ capacity_ w'' = 3.
Proof.
  apply (X13_Erase_Insert_roundtrip 0 trivial_move trivial_move (-1)
           (mkSimpleVector (mkArrayPtr (Some [5; 6; 7])) 3 3) 1 6).
  - wf_concrete.
  - simpl. lia.
  - reflexivity.
Defined.

(** X14.  For an argument outside the vector [Insert] at [end()] is
    [PushBack]: the two calls return together or leave with
    [std::bad_alloc] together, and when they return the iterator is the old
    [end()] and the two vectors have the same elements, size and capacity.
    For an argument that is a live element [v[i]] of the vector they agree
    only while the element fits: when they reallocate, [Insert] appends
    [v[i]] and [PushBack] what a move leaves of it.  Erasing the last
    element is [PopBack]: the two calls return the same vector. *)
Theorem X14_end_operations {T : Type} (dflt : T)
        (moved_from self_moved : T -> T) (heap_limit : Z)
        (v : SimpleVector T) (x : T) (i : Z) (y : T) :
  wf v ->
  match PushBack dflt moved_from heap_limit v (outside x),
        Insert dflt heap_limit v (end_ v) (outside x) with
  | Ok v', Ok (it, v'') =>
      it = size_ v /\ to_list v'' = to_list v' /\
      size_ v'' = size_ v' /\ capacity_ v'' = capacity_ v'
  | Throw bad_alloc, Throw bad_alloc => True
  | _, _ => False
  end /\
  (0 <= i < size_ v -> to_list v !! Z.to_nat i = Some y ->
   match PushBack dflt moved_from heap_limit v (element i),
         Insert dflt heap_limit v (end_ v) (element i) with
   | Ok v', Ok (it, v'') =>
       it = size_ v /\
       to_list v'' = to_list v ++ [y] /\
       to_list v' =
         to_list v ++
         [if decide (size_ v + 1 <= capacity_ v) then y else moved_from y] /\
       size_ v'' = size_ v' /\ capacity_ v'' = capacity_ v'
   | Throw bad_alloc, Throw bad_alloc => True
   | _, _ => False
   end) /\
  (0 < size_ v ->
   exists v', Erase moved_from self_moved v (end_ v - 1)
              = Ok (end_ v - 1, v') /\
              PopBack v = Ok v').
Proof.
  intros Hwf. pose proof (wf_bounds v Hwf) as Hb.
  pose proof (to_list_length v Hwf) as Hlen. unfold end_.
  assert (Hlist : forall l z,
            (forall k, l !! k = inserted v (size_ v) z k) ->
            l = to_list v ++ [z]).
  { intros l z Hl.
    rewrite (inserted_list v (size_ v) z l Hwf ltac:(lia) Hl).
    rewrite take_ge, drop_ge by lia. done. }
  assert (Hboth : forall (r : ref T) z, live_ref v r ->
            ref_value v r = Some z ->
            match PushBack dflt moved_from heap_limit v r,
                  Insert dflt heap_limit v (size_ v) r with
            | Ok v', Ok (it, v'') =>
                it = size_ v /\
                to_list v'' = to_list v ++ [z] /\
                to_list v' = to_list v ++ [PushBack_reads moved_from v r z] /\
                size_ v'' = size_ v' /\ capacity_ v'' = capacity_ v'
            | Throw bad_alloc, Throw bad_alloc => True
            | _, _ => False
            end).
  { intros r z Hlive Hz.
    assert (Hz' : ref_value v (Insert_reads v (size_ v) r) = Some z).
    { unfold Insert_reads. destruct r as [?|j]; [done|].
      simpl in Hlive. case_decide; [lia | done]. }
    destruct (Z_le_gt_dec (size_ v + 1) (capacity_ v)) as [Hfit|Hgrow].
    - destruct (succeeds_if_Ok _ _ _
                  (PushBack_fit dflt moved_from heap_limit v r Hwf Hfit) Hlive)
        as (v' & Hp & Hs & Hc & Hwf' & _).
      destruct (succeeds_if_Ok _ _ _
                  (Insert_fit dflt heap_limit v (size_ v) r Hwf
                     ltac:(lia) Hfit) Hlive)
        as ([p v''] & Hi & Hp' & Hs' & Hc' & _ & u & Hl' & Hu).
      simpl in *. subst p. rewrite (Hu z Hz') in Hl'.
      pose proof (returns_if_inv _ _ _ _
                    (PushBack_returns dflt moved_from heap_limit v r Hwf) Hp)
        as (_ & _ & _ & w & Hl & Hw).
      rewrite (Hw z Hz) in Hl.
      rewrite Hp, Hi. split_and!; try (done || lia). by apply Hlist.
    - destruct (room_dec heap_limit (growth_policy v (size_ v + 1)))
        as [Hr|Hr].
      + destruct (succeeds_if_Ok _ _ _
                    (PushBack_grow dflt moved_from heap_limit v r Hwf
                       ltac:(lia) Hr) Hlive)
          as (v' & Hp & Hs & Hc & Hwf' & _).
        destruct (succeeds_if_Ok _ _ _
                    (Insert_grow dflt heap_limit v (size_ v) r Hwf
                       ltac:(lia) ltac:(lia) Hr) Hlive)
          as ([p v''] & Hi & Hp' & Hs' & Hc' & _ & _ & u & Hl' & Hu).
        simpl in *. subst p. rewrite (Hu z Hz') in Hl'.
        pose proof (returns_if_inv _ _ _ _
                      (PushBack_returns dflt moved_from heap_limit v r Hwf) Hp)
          as (_ & _ & _ & w & Hl & Hw).
        rewrite (Hw z Hz) in Hl.
        rewrite Hp, Hi. split_and!; try (done || lia). by apply Hlist.
      + rewrite PushBack_no_room, Insert_no_room by (done || lia). exact I. }
  split_and!.
  - pose proof (Hboth (outside x) x I eq_refl) as H.
    unfold PushBack_reads in H.
    destruct (PushBack dflt moved_from heap_limit v (outside x))
      as [v'|[]| | |];
      destruct (Insert dflt heap_limit v (size_ v) (outside x))
        as [[it v'']|[]| | |]; try done.
    destruct H as (? & H1 & H2 & ? & ?). split_and!; try done.
    by rewrite H1, H2.
  - intros Hi Hy. apply (Hboth (element i) y Hi).
    simpl. case_decide; [done | lia].
  - by apply Erase_last.
Qed.

Lemma X14_end_operations_witness :
  PushBack 0 trivial_move 100
    (mkSimpleVector (mkArrayPtr (Some [5; 6])) 2 2) (outside 7)
  = Ok (mkSimpleVector (mkArrayPtr (Some [5; 6; 7; 0])) 3 4) /\
  Insert 0 100 (mkSimpleVector (mkArrayPtr (Some [5; 6])) 2 2) 2 (outside 7)
  = Ok (2, mkSimpleVector (mkArrayPtr (Some [5; 6; 7; 0])) 3 4) /\
  match PushBack EmptyString (fun _ => EmptyString) 100
          (mkSimpleVector (mkArrayPtr (Some ["a"%string])) 1 1) (element 0),
        Insert EmptyString 100
          (mkSimpleVector (mkArrayPtr (Some ["a"%string])) 1 1) 1 (element 0)
  with
  | Ok v', Ok (it, v'') =>
      to_list v'' = ["a"%string; "a"%string] /\
      to_list v' = ["a"%string; EmptyString]
  | _, _ => False
  end /\
  exists v', Erase trivial_move trivial_move
               (mkSimpleVector (mkArrayPtr (Some [5; 6])) 2 2) 1
             = Ok (1, v') /\
             PopBack (mkSimpleVector (mkArrayPtr (Some [5; 6])) 2 2) = Ok v'.
Proof.
  split; [reflexivity|]. split; [reflexivity|].
  destruct (X14_end_operations 0 trivial_move trivial_move 100
              (mkSimpleVector (mkArrayPtr (Some [5; 6])) 2 2) 7 0 5)
    as (_ & _ & H).
  { wf_concrete. }
  destruct (X14_end_operations EmptyString (fun _ => EmptyString)
              (fun s => s) 100
              (mkSimpleVector (mkArrayPtr (Some ["a"%string])) 1 1)
              "b"%string 0 "a"%string)
    as (_ & Halias & _).
  { wf_concrete. }
  split.
  - specialize (Halias ltac:(simpl; lia) eq_refl).
    vm_compute in Halias. vm_compute. tauto.
  - apply H. simpl. lia.
Defined.

(** ** Constructors and [ArrayPtr] *)

Section ConstructorFacts.
Context {T : Type}.
Variable dflt : T.
Variable heap_limit : Z.
Implicit Types (v : SimpleVector T) (x : T).

Lemma returns_not_thrown {A : Type} (r : outcome A) (P : A -> Prop) :
  returns r P -> r <> Throw bad_alloc -> exists a, r = Ok a /\ P a.
Proof. destruct r as [a|[]| | |]; simpl; intros H Hne; [eauto | done..]. Qed.

Lemma SimpleVector_fill_room size x :
  0 <= size -> size = 0 \/ room heap_limit size ->
  SimpleVector_fill dflt heap_limit size x <> Throw bad_alloc.
Proof.
  intros Hs Hr. unfold SimpleVector_fill.
  destruct (ArrayPtr_sized_room dflt heap_limit size Hs Hr) as (p & -> & Hb).
  simpl. unfold std_fill, block, Get in *.
  destruct (Z.ltb_spec (0 + size) 0); [lia|].
  destruct (fill_loop_spec (Z.to_nat (0 + size - 0)) (_rawPtr p) 0 x)
    as (r & -> & _); [lia | rewrite Hb, length_replicate; lia |].
  done.
Qed.

Lemma SimpleVector_fill_no_room size x :
  size <> 0 -> ~ room heap_limit size ->
  SimpleVector_fill dflt heap_limit size x = Throw bad_alloc.
Proof.
  intros Hs Hr. unfold SimpleVector_fill.
  rewrite ArrayPtr_sized_no_room by done. reflexivity.
Qed.

Lemma Forall2_diag (R : T -> T -> Prop) (l : list T) :
  (forall x, R x x) -> Forall2 R l l.
Proof. intros HR. induction l; constructor; auto. Qed.

End ConstructorFacts.

(** X15.  [SimpleVector(size, value)] and [SimpleVector(size)]: with
    [size = 0] or room for [size] elements the constructor returns a vector
    of [size] copies of the value (of the default value), with capacity
    [size]; for a non-zero size without room it leaves with
    [std::bad_alloc]. *)
Theorem X15_sized_constructors {T : Type} (dflt : T) (heap_limit : Z)
        (size : Z) (x : T) :
  0 <= size ->
  (size = 0 \/ room heap_limit size ->
   (exists v, SimpleVector_fill dflt heap_limit size x = Ok v /\
      wf v /\ size_ v = size /\ capacity_ v = size /\
      to_list v = replicate (Z.to_nat size) x) /\
   (exists v, SimpleVector_sized dflt heap_limit size = Ok v /\
      wf v /\ size_ v = size /\ capacity_ v = size /\
      to_list v = replicate (Z.to_nat size) dflt)) /\
  (size <> 0 -> ~ room heap_limit size ->
   SimpleVector_fill dflt heap_limit size x = Throw bad_alloc /\
   SimpleVector_sized dflt heap_limit size = Throw bad_alloc).
Proof.
  intros Hs. split.
  - intros Hr. split.
    + apply (returns_not_thrown _ _
               (SimpleVector_fill_spec dflt heap_limit size x Hs)).
      by apply SimpleVector_fill_room.
    + apply (returns_not_thrown _ _
               (SimpleVector_fill_spec dflt heap_limit size dflt Hs)).
      by apply SimpleVector_fill_room.
  - intros Hne Hr. split; by apply SimpleVector_fill_no_room.
Qed.

Lemma X15_sized_constructors_witness :
  (exists v, SimpleVector_fill 0 100 3 7 = Ok v /\
     wf v /\ size_ v = 3 /\ capacity_ v = 3 /\ to_list v = [7; 7; 7]) /\
  SimpleVector_sized 0 2 3 = Throw bad_alloc /\
  (exists v, SimpleVector_sized 0 (-1) 0 = Ok v /\
     wf v /\ size_ v = 0 /\ capacity_ v = 0 /\ to_list v = []).
Proof.
  destruct (X15_sized_constructors 0 100 3 7) as [H1 _]; [lia|].
  destruct (X15_sized_constructors 0 2 3 7) as [_ H2]; [lia|].
  destruct (X15_sized_constructors 0 (-1) 0 7) as [H3 _]; [lia|].
  split_and!.
  - apply H1. right. unfold room. rewrite PTRDIFF_MAX_val. lia.
  - apply H2; [lia | unfold room; lia].
  - apply H3. left. reflexivity.
Defined.

(** X16.  The initializer-list constructor returns or leaves with
    [std::bad_alloc]; when it returns, the elements are the list in order,
    size and capacity are its length, and [At] at each position yields the
    list element there. *)
Theorem X16_initializer_list {T : Type} (dflt : T) (heap_limit : Z)
        (init : list T) :
  returns (SimpleVector_init dflt heap_limit init) (fun v =>
    wf v /\ size_ v = Z.of_nat (length init) /\
    capacity_ v = Z.of_nat (length init) /\ to_list v = init /\
    forall (i : nat) x, init !! i = Some x -> At v (Z.of_nat i) = Ok x).
Proof.
  eapply returns_weaken; [|apply SimpleVector_init_spec].
  intros v (Hwf & Hs & Hc & Hl). split_and!; try done.
  intros i x Hx. pose proof (lookup_lt_Some _ _ _ Hx) as Hi.
  destruct (index_in_range v (Z.of_nat i) Hwf) as (y & Hy & HAt & _); [lia|].
  rewrite HAt. f_equal. rewrite Hl, Nat2Z.id in Hy. congruence.
Qed.

(** X17.  The copy constructor returns or leaves with [std::bad_alloc];
    when it returns, the copy has the elements and the size of the source,
    its capacity is the size of the source (not its capacity), and where
    [==] on elements is reflexive the copy and the source compare equal. *)
Theorem X17_copy_constructor {T : Type} (dflt : T) (heap_limit : Z)
        (eqb : T -> T -> bool) (other : SimpleVector T) :
  wf other ->
  returns (SimpleVector_copy dflt heap_limit other) (fun v =>
    wf v /\ to_list v = to_list other /\ size_ v = size_ other /\
    capacity_ v = size_ other /\
    ((forall x, eqb x x = true) ->
     operator_eq eqb v other = Ok true /\
     operator_eq eqb other v = Ok true)).
Proof.
  intros Hwf. eapply returns_weaken; [|by apply SimpleVector_copy_spec].
  intros v (Hwfv & Hs & Hc & Hl). split_and!; try done.
  intros Hrefl.
  destruct (operator_eq_spec eqb v other Hwfv Hwf) as (r1 & -> & H1).
  destruct (operator_eq_spec eqb other v Hwf Hwfv) as (r2 & -> & H2).
  split; f_equal.
  - apply H1. split; [done|]. rewrite Hl. by apply Forall2_diag.
  - apply H2. split; [done|]. rewrite Hl. by apply Forall2_diag.
Qed.

Lemma X17_copy_constructor_witness :
  returns (SimpleVector_copy 0 100
             (mkSimpleVector (mkArrayPtr (Some [5; 6; 7; 0])) 3 4))
    (fun v =>
       wf v /\ to_list v = [5; 6; 7] /\ size_ v = 3 /\ capacity_ v = 3 /\
       ((forall x, Z.eqb x x = true) ->
        operator_eq Z.eqb v
          (mkSimpleVector (mkArrayPtr (Some [5; 6; 7; 0])) 3 4) = Ok true /\
        operator_eq Z.eqb
          (mkSimpleVector (mkArrayPtr (Some [5; 6; 7; 0])) 3 4) v = Ok true)) /\
  SimpleVector_copy 0 100 (mkSimpleVector (mkArrayPtr (Some [5; 6; 7; 0])) 3 4)
  = Ok (mkSimpleVector (mkArrayPtr (Some [5; 6; 7])) 3 3).
Proof.
  split; [|reflexivity].
  apply (X17_copy_constructor 0 100 Z.eqb
           (mkSimpleVector (mkArrayPtr (Some [5; 6; 7; 0])) 3 4)).
  wf_concrete.
Defined.

(** X18.  [ArrayPtr(size)]: for [size = 0] it is the null handle and
    nothing is allocated, whatever the allocator could serve; for a
    non-zero size with room it is a non-null handle to [size]
    default values; for a non-zero size without room it leaves with
    [std::bad_alloc].  [Release] hands the block out and leaves the handle
    null. *)
Theorem X18_ArrayPtr_sized {T : Type} (dflt : T) (heap_limit : Z) (size : Z) :
  0 <= size ->
  (size = 0 -> ArrayPtr_sized dflt heap_limit size = Ok ArrayPtr_default) /\
  (size <> 0 -> room heap_limit size ->
   exists p, ArrayPtr_sized dflt heap_limit size = Ok p /\
     ArrayPtr_bool p = true /\ block p = replicate (Z.to_nat size) dflt /\
     blk (fst (Release p)) = replicate (Z.to_nat size) dflt /\
     ArrayPtr_bool (snd (Release p)) = false) /\
  (size <> 0 -> ~ room heap_limit size ->
   ArrayPtr_sized dflt heap_limit size = Throw bad_alloc).
Proof.
  intros Hs. split_and!.
  - intros ->. reflexivity.
  - intros Hne Hr. unfold ArrayPtr_sized.
    destruct (Z.eqb_spec size 0); [done|]. simpl.
    rewrite new_array_room by done. simpl.
    eexists. split; [reflexivity|]. split_and!; reflexivity.
  - intros Hne Hr. by apply ArrayPtr_sized_no_room.
Qed.

Lemma X18_ArrayPtr_sized_witness :
  (exists p, ArrayPtr_sized 0 100 2 = Ok p /\
     ArrayPtr_bool p = true /\ block p = [0; 0] /\
     blk (fst (Release p)) = [0; 0] /\
     ArrayPtr_bool (snd (Release p)) = false) /\
  ArrayPtr_sized 0 1 2 = Throw bad_alloc /\
  ArrayPtr_sized 0 (-1) 0 = Ok ArrayPtr_default.
Proof.
  destruct (X18_ArrayPtr_sized 0 100 2) as (_ & H1 & _); [lia|].
  destruct (X18_ArrayPtr_sized 0 1 2) as (_ & _ & H2); [lia|].
  destruct (X18_ArrayPtr_sized 0 (-1) 0) as (H3 & _); [lia|].
  split_and!.
  - apply H1; [lia | unfold room; rewrite PTRDIFF_MAX_val; lia].
  - apply H2; [lia | unfold room; lia].
  - apply H3. reflexivity.
Defined.

(** ** Assignment, [swap] and move *)

Section TransferFacts.
Context {T : Type}.
Variable dflt : T.
Variable heap_limit : Z.
Implicit Types (σ : gmap nat (SimpleVector T)) (t o r : SimpleVector T).

Lemma copy_assign_thrown σ this rhs r :
  rhs <> this -> σ !! rhs = Some r -> size_ r <> 0 ->
  SimpleVector_copy dflt heap_limit r = Throw bad_alloc ->
  copy_assign dflt heap_limit this rhs σ = Throw bad_alloc.
Proof.
  intros Hne Hr Hs Hc. unfold copy_assign.
  destruct (Nat.eqb_spec rhs this); [done|]. simpl.
  rewrite (deref_Some _ _ _ Hr). simpl. unfold IsEmpty.
  destruct (Z.eqb_spec (size_ r) 0); [done|].
  rewrite Hc. reflexivity.
Qed.

Lemma swap_back σ this other t o :
  σ !! this = Some t -> σ !! other = Some o ->
  swap this other (<[other := t]> (<[this := o]> σ)) = Ok σ.
Proof.
  intros Ht Ho.
  destruct (decide (this = other)) as [->|Hne].
  - rewrite Ht in Ho. injection Ho as ->.
    erewrite swap_spec by apply lookup_insert_eq.
    f_equal. rewrite !insert_insert_eq. by apply insert_id.
  - erewrite swap_spec;
      [| rewrite lookup_insert_ne by done; apply lookup_insert_eq
       | apply lookup_insert_eq].
    f_equal. apply map_eq. intros i.
    destruct (decide (i = other)) as [->|?].
    + by rewrite lookup_insert_eq.
    + rewrite lookup_insert_ne by done.
      destruct (decide (i = this)) as [->|?].
      * by rewrite lookup_insert_eq.
      * by rewrite !lookup_insert_ne.
Qed.

End TransferFacts.

(** X19.  Copy assignment from a different, non-empty source returns or
    leaves with [std::bad_alloc]; when it returns, the target has the
    elements and the size of the source, its capacity is the size of the
    source (whatever capacity it had), and the source and every other object
    are as before: the temporary copy is gone. *)
Theorem X19_copy_assign_copies {T : Type} (dflt : T) (heap_limit : Z)
        (σ : gmap nat (SimpleVector T)) (this rhs : nat)
        (t r : SimpleVector T) :
  rhs <> this -> σ !! this = Some t -> σ !! rhs = Some r ->
  wf r -> size_ r <> 0 ->
  returns (copy_assign dflt heap_limit this rhs σ) (fun σ' =>
    exists t', σ' !! this = Some t' /\
      to_list t' = to_list r /\ size_ t' = size_ r /\
      capacity_ t' = size_ r /\
      forall a, a <> this -> σ' !! a = σ !! a).
Proof.
  intros Hne Ht Hr Hwf Hs.
  pose proof (SimpleVector_copy_spec dflt heap_limit r Hwf) as Hcopy.
  destruct (SimpleVector_copy dflt heap_limit r) as [c|[]| | |] eqn:Hc;
    simpl in Hcopy; try contradiction.
  - rewrite (copy_assign_copies dflt heap_limit _ _ _ _ _ _ Hne Ht Hr Hs Hc).
    simpl. destruct Hcopy as (_ & Hsz & Hcap & Hl).
    exists c. split_and!; try done.
    + apply lookup_insert_eq.
    + intros a Ha. by rewrite lookup_insert_ne.
  - rewrite (copy_assign_thrown dflt heap_limit _ _ _ _ Hne Hr Hs Hc).
    exact I.
Qed.

Lemma X19_copy_assign_copies_witness :
  returns
    (copy_assign 0 100 0 1
       (<[0%nat := mkSimpleVector (mkArrayPtr (Some [9; 9; 9; 9; 9])) 5 5]>
          (<[1%nat := mkSimpleVector (mkArrayPtr (Some [5; 6; 7; 0])) 3 4]> ∅)))
    (fun σ' =>
       exists t', σ' !! 0%nat = Some t' /\
         to_list t' = [5; 6; 7] /\ size_ t' = 3 /\ capacity_ t' = 3 /\
         forall a, a <> 0%nat ->
           σ' !! a =
           (<[0%nat := mkSimpleVector (mkArrayPtr (Some [9; 9; 9; 9; 9])) 5 5]>
              (<[1%nat := mkSimpleVector (mkArrayPtr (Some [5; 6; 7; 0])) 3 4]>
                 ∅) : gmap nat (SimpleVector Z)) !! a) /\
  exists σ',
    copy_assign 0 100 0 1
      (<[0%nat := mkSimpleVector (mkArrayPtr (Some [9; 9; 9; 9; 9])) 5 5]>
         (<[1%nat := mkSimpleVector (mkArrayPtr (Some [5; 6; 7; 0])) 3 4]> ∅))
    = Ok σ' /\
    σ' !! 0%nat = Some (mkSimpleVector (mkArrayPtr (Some [5; 6; 7])) 3 3).
Proof.
  split.
  - apply (X19_copy_assign_copies 0 100
             (<[0%nat := mkSimpleVector (mkArrayPtr (Some [9; 9; 9; 9; 9])) 5 5]>
                (<[1%nat := mkSimpleVector (mkArrayPtr (Some [5; 6; 7; 0])) 3 4]>
                   ∅))
             0%nat 1%nat
             (mkSimpleVector (mkArrayPtr (Some [9; 9; 9; 9; 9])) 5 5)
             (mkSimpleVector (mkArrayPtr (Some [5; 6; 7; 0])) 3 4)).
    + lia.
    + reflexivity.
    + reflexivity.
    + wf_concrete.
    + simpl. lia.
  - eexists. split; [vm_compute; reflexivity | reflexivity].
Defined.

(** X20.  [swap] on two live objects, which may be the same one, always
    returns: each object gets the buffer, size and capacity of the other,
    no other object changes, and swapping again restores the store. *)
Theorem X20_swap {T : Type} (σ : gmap nat (SimpleVector T))
        (this other : nat) (t o : SimpleVector T) :
  σ !! this = Some t -> σ !! other = Some o ->
  exists σ', swap this other σ = Ok σ' /\
    σ' !! this = Some o /\ σ' !! other = Some t /\
    (forall a, a <> this -> a <> other -> σ' !! a = σ !! a) /\
    swap this other σ' = Ok σ.
Proof.
  intros Ht Ho. exists (<[other := t]> (<[this := o]> σ)).
  split; [by apply swap_spec|]. split_and!.
  - destruct (decide (this = other)) as [->|Hne].
    + rewrite lookup_insert_eq. congruence.
    + rewrite lookup_insert_ne by done. apply lookup_insert_eq.
  - apply lookup_insert_eq.
  - intros a H1 H2. by rewrite !lookup_insert_ne.
  - by apply swap_back.
Qed.

Lemma X20_swap_witness :
  exists σ',
    swap 0 1
      (<[0%nat := mkSimpleVector (mkArrayPtr (Some [9])) 1 1]>
         (<[1%nat := mkSimpleVector (mkArrayPtr (Some [5; 6; 7; 0])) 3 4]> ∅))
    = Ok σ' /\
    σ' !! 0%nat = Some (mkSimpleVector (mkArrayPtr (Some [5; 6; 7; 0])) 3 4) /\
    σ' !! 1%nat = Some (mkSimpleVector (mkArrayPtr (Some [9])) 1 1) /\
    (forall a, a <> 0%nat -> a <> 1%nat ->
       σ' !! a =
       (<[0%nat := mkSimpleVector (mkArrayPtr (Some [9])) 1 1]>
          (<[1%nat := mkSimpleVector (mkArrayPtr (Some [5; 6; 7; 0])) 3 4]> ∅)
        : gmap nat (SimpleVector Z)) !! a) /\
    swap 0 1 σ'
    = Ok (<[0%nat := mkSimpleVector (mkArrayPtr (Some [9])) 1 1]>
            (<[1%nat := mkSimpleVector (mkArrayPtr (Some [5; 6; 7; 0])) 3 4]>
               ∅)).
Proof.
  apply (X20_swap
           (<[0%nat := mkSimpleVector (mkArrayPtr (Some [9])) 1 1]>
              (<[1%nat := mkSimpleVector (mkArrayPtr (Some [5; 6; 7; 0])) 3 4]>
                 ∅))
           0%nat 1%nat
           (mkSimpleVector (mkArrayPtr (Some [9])) 1 1)
           (mkSimpleVector (mkArrayPtr (Some [5; 6; 7; 0])) 3 4)).
  - reflexivity.
  - reflexivity.
Defined.

(** X21.  Where the buffers go in a move between two different objects.
    Move construction gives the new object the source as it was and leaves
    the source with the null handle.  Move assignment gives the target the
    source as it was and leaves the source holding the former buffer of the
    target, with size 0 and capacity 0: the handles are exchanged, so the
    capacity the source reports no longer tells how much it holds. *)
Theorem X21_move_buffers {T : Type} (σ : gmap nat (SimpleVector T))
        (this other : nat) (t o : SimpleVector T) :
  this <> other -> σ !! other = Some o ->
  move_construct this other σ
  = Ok (<[this := o]> (<[other := mkSimpleVector ArrayPtr_default 0 0]> σ)) /\
  (σ !! this = Some t ->
   move_assign this other σ
   = Ok (<[this := o]> (<[other := mkSimpleVector (items_ t) 0 0]> σ))).
Proof.
  intros Hne Ho. split.
  - unfold move_construct. rewrite (deref_Some _ _ _ Ho). cbn [bind].
    rewrite SimpleVector_move_spec. reflexivity.
  - intros Ht. by apply move_assign_distinct.
Qed.

Lemma X21_move_buffers_witness :
  move_assign 0 1
    (<[0%nat := mkSimpleVector (mkArrayPtr (Some [9])) 1 1]>
       (<[1%nat := mkSimpleVector (mkArrayPtr (Some [5; 6; 7; 0])) 3 4]> ∅))
  = Ok (<[0%nat := mkSimpleVector (mkArrayPtr (Some [5; 6; 7; 0])) 3 4]>
          (<[1%nat := mkSimpleVector (mkArrayPtr (Some [9])) 0 0]>
             (<[0%nat := mkSimpleVector (mkArrayPtr (Some [9])) 1 1]>
                (<[1%nat := mkSimpleVector (mkArrayPtr (Some [5; 6; 7; 0])) 3 4]>
                   ∅)))).
Proof.
  destruct (X21_move_buffers
              (<[0%nat := mkSimpleVector (mkArrayPtr (Some [9])) 1 1]>
                 (<[1%nat :=
                      mkSimpleVector (mkArrayPtr (Some [5; 6; 7; 0])) 3 4]> ∅))
              0%nat 1%nat
              (mkSimpleVector (mkArrayPtr (Some [9])) 1 1)
              (mkSimpleVector (mkArrayPtr (Some [5; 6; 7; 0])) 3 4))
    as [_ H].
  - lia.
  - reflexivity.
  - apply H. reflexivity.
Defined.

(** ** Comparisons as relations *)

Section OrderFacts.
Context {T : Type}.
Variable eqb : T -> T -> bool.
Variable ltb : T -> T -> bool.
Implicit Types (v w : SimpleVector T) (l m : list T).

Lemma lexicographic_neither l : forall m,
  ~ lexicographic ltb l m /\ ~ lexicographic ltb m l <->
  Forall2 (fun x y => ltb x y = false /\ ltb y x = false) l m.
Proof.
  induction l as [|x xs IH]; intros [|y ys].
  - split; [constructor|]. intros _. split; intros H; inversion H.
  - split.
    + intros [H _]. exfalso. apply H. constructor.
    + intros H. inversion H.
  - split.
    + intros [_ H]. exfalso. apply H. constructor.
    + intros H. inversion H.
  - split.
    + intros [H1 H2].
      destruct (ltb x y) eqn:Hxy; [exfalso; apply H1; by apply lex_less|].
      destruct (ltb y x) eqn:Hyx; [exfalso; apply H2; by apply lex_less|].
      constructor; [done|]. apply IH. split; intros H.
      * apply H1. by apply lex_tie.
      * apply H2. by apply lex_tie.
    + intros H. inversion H as [|? ? ? ? [Hxy Hyx] Hrest]; subst.
      apply IH in Hrest as [H1 H2].
      split; intros Hlex; inversion Hlex; subst; congruence.
Qed.

Lemma lexicographic_asym :
  (forall x y, ltb x y = true -> ltb y x = false) ->
  forall l m, lexicographic ltb l m -> ~ lexicographic ltb m l.
Proof.
  intros Hasym l m H. induction H as [y ys|x xs y ys Hxy|x xs y ys Hxy Hyx H IH];
    intros Hrev; inversion Hrev; subst.
  - apply Hasym in Hxy. congruence.
  - congruence.
  - congruence.
  - by apply IH.
Qed.

Lemma bool_of_iff (a b : bool) (P : Prop) :
  (a = true <-> P) -> (b = true <-> P) -> a = b.
Proof.
  intros Ha Hb. destruct a, b; try done.
  - symmetry. apply Hb, Ha. done.
  - apply Ha, Hb. done.
Qed.

Lemma to_list_size v v' :
  wf v -> wf v' -> to_list v = to_list v' -> size_ v = size_ v'.
Proof.
  intros Hv Hv' Hl.
  rewrite <- (to_list_length v Hv), <- (to_list_length v' Hv'), Hl. done.
Qed.

End OrderFacts.

(** X22.  Where [==] on elements holds exactly when neither element is [<]
    the other, two vectors compare equal exactly when neither is [<] the
    other. *)
Theorem X22_equal_iff_unordered {T : Type} (eqb ltb : T -> T -> bool)
        (v w : SimpleVector T) :
  wf v -> wf w ->
  (forall x y, eqb x y = true <-> ltb x y = false /\ ltb y x = false) ->
  (operator_eq eqb v w = Ok true <->
   operator_lt ltb v w = Ok false /\ operator_lt ltb w v = Ok false).
Proof.
  intros Hv Hw Hcompat.
  destruct (operator_eq_spec eqb v w Hv Hw) as (e & -> & He).
  destruct (operator_lt_spec ltb v w Hv Hw) as (a & -> & Ha).
  destruct (operator_lt_spec ltb w v Hw Hv) as (b & -> & Hb).
  assert (Hiff : e = true <-> a = false /\ b = false).
  { rewrite He. split.
    - intros [_ Hall].
      assert (Forall2 (fun x y => ltb x y = false /\ ltb y x = false)
                      (to_list v) (to_list w)) as Htie.
      { eapply Forall2_impl; [exact Hall|]. intros x y. apply Hcompat. }
      apply lexicographic_neither in Htie as [H1 H2].
      split; [destruct a | destruct b]; try done; exfalso.
      + apply H1. by apply Ha.
      + apply H2. by apply Hb.
    - intros [-> ->].
      assert (Forall2 (fun x y => ltb x y = false /\ ltb y x = false)
                      (to_list v) (to_list w)) as Htie.
      { apply lexicographic_neither. split; intros H.
        - apply Ha in H. done.
        - apply Hb in H. done. }
      split.
      + rewrite <- (to_list_length v Hv), <- (to_list_length w Hw).
        by rewrite (Forall2_length _ _ _ Htie).
      + eapply Forall2_impl; [exact Htie|]. intros x y. apply Hcompat. }
  split.
  - intros [= ->]. destruct Hiff as [H _]. destruct H as [-> ->]; done.
  - intros [[= ->] [= ->]]. f_equal. by apply Hiff.
Qed.

Lemma X22_equal_iff_unordered_witness :
  operator_eq Z.eqb (mkSimpleVector (mkArrayPtr (Some [5; 6; 7])) 2 3)
                    (mkSimpleVector (mkArrayPtr (Some [5; 6; 0; 0])) 2 4)
  = Ok true <->
  operator_lt Z.ltb (mkSimpleVector (mkArrayPtr (Some [5; 6; 7])) 2 3)
                    (mkSimpleVector (mkArrayPtr (Some [5; 6; 0; 0])) 2 4)
  = Ok false /\
  operator_lt Z.ltb (mkSimpleVector (mkArrayPtr (Some [5; 6; 0; 0])) 2 4)
                    (mkSimpleVector (mkArrayPtr (Some [5; 6; 7])) 2 3)
  = Ok false.
Proof.
  apply (X22_equal_iff_unordered Z.eqb Z.ltb
           (mkSimpleVector (mkArrayPtr (Some [5; 6; 7])) 2 3)
           (mkSimpleVector (mkArrayPtr (Some [5; 6; 0; 0])) 2 4)).
  - wf_concrete.
  - wf_concrete.
  - intros x y. rewrite Z.eqb_eq, !Z.ltb_ge. lia.
Defined.

(** X23.  Where [<] on elements is asymmetric, [<] on vectors is
    asymmetric and irreflexive, and the derived operators agree with it:
    [v < w] gives [v <= w], [w > v], [w >= v] and rules out [w < v]; a
    vector is [<=] and [>=] itself. *)
Theorem X23_strict_order {T : Type} (ltb : T -> T -> bool)
        (v w : SimpleVector T) :
  wf v -> wf w ->
  (forall x y, ltb x y = true -> ltb y x = false) ->
  (operator_lt ltb v w = Ok true ->
   operator_lt ltb w v = Ok false /\ operator_le ltb v w = Ok true /\
   operator_gt ltb w v = Ok true /\ operator_ge ltb w v = Ok true) /\
  operator_lt ltb v v = Ok false /\
  operator_le ltb v v = Ok true /\ operator_ge ltb v v = Ok true.
Proof.
  intros Hv Hw Hasym.
  assert (Hirr : operator_lt ltb v v = Ok false).
  { destruct (operator_lt_spec ltb v v Hv Hv) as (a & -> & Ha).
    destruct a; [|done]. exfalso.
    assert (lexicographic ltb (to_list v) (to_list v)) as H by by apply Ha.
    by apply (lexicographic_asym ltb Hasym _ _ H). }
  split; [|split_and!;
           [done | unfold operator_le; by rewrite Hirr
                 | unfold operator_ge, operator_le; by rewrite Hirr]].
  intros Hlt.
  assert (Hrev : operator_lt ltb w v = Ok false).
  { destruct (operator_lt_spec ltb v w Hv Hw) as (a & Ha & Ha').
    destruct (operator_lt_spec ltb w v Hw Hv) as (b & -> & Hb).
    rewrite Hlt in Ha. injection Ha as <-.
    destruct b; [|done]. exfalso.
    apply (lexicographic_asym ltb Hasym (to_list v) (to_list w));
      [by apply Ha' | by apply Hb]. }
  split_and!.
  - done.
  - unfold operator_le. by rewrite Hrev.
  - unfold operator_gt. done.
  - unfold operator_ge, operator_le. by rewrite Hrev.
Qed.

Lemma X23_strict_order_witness :
  operator_lt Z.ltb (mkSimpleVector (mkArrayPtr (Some [1; 2])) 2 2)
                    (mkSimpleVector (mkArrayPtr (Some [1; 2; 3])) 3 3)
  = Ok true /\
  operator_lt Z.ltb (mkSimpleVector (mkArrayPtr (Some [1; 2; 3])) 3 3)
                    (mkSimpleVector (mkArrayPtr (Some [1; 2])) 2 2)
  = Ok false /\
  operator_le Z.ltb (mkSimpleVector (mkArrayPtr (Some [1; 2])) 2 2)
                    (mkSimpleVector (mkArrayPtr (Some [1; 2; 3])) 3 3)
  = Ok true.
Proof.
  destruct (X23_strict_order Z.ltb
              (mkSimpleVector (mkArrayPtr (Some [1; 2])) 2 2)
              (mkSimpleVector (mkArrayPtr (Some [1; 2; 3])) 3 3))
    as [H _].
  - wf_concrete.
  - wf_concrete.
  - intros x y. rewrite Z.ltb_lt, Z.ltb_ge. lia.
  - split; [reflexivity|].
    destruct (H eq_refl) as (H1 & H2 & _). split; [exact H1 | exact H2].
Defined.

(** X24.  Comparisons read the live elements only: two pairs of vectors
    with the same element sequences compare the same under [==] and [<],
    whatever their capacities and whatever lies in the slots beyond the
    size. *)
Theorem X24_compare_live_elements {T : Type} (eqb ltb : T -> T -> bool)
        (v v' w w' : SimpleVector T) :
  wf v -> wf v' -> wf w -> wf w' ->
  to_list v = to_list v' -> to_list w = to_list w' ->
  operator_eq eqb v w = operator_eq eqb v' w' /\
  operator_lt ltb v w = operator_lt ltb v' w'.
Proof.
  intros Hv Hv' Hw Hw' Elv Elw.
  destruct (operator_eq_spec eqb v w Hv Hw) as (e & -> & He).
  destruct (operator_eq_spec eqb v' w' Hv' Hw') as (e' & -> & He').
  destruct (operator_lt_spec ltb v w Hv Hw) as (a & -> & Ha).
  destruct (operator_lt_spec ltb v' w' Hv' Hw') as (a' & -> & Ha').
  rewrite <- (to_list_size v v' Hv Hv' Elv),
          <- (to_list_size w w' Hw Hw' Elw), <- Elv, <- Elw in He'.
  rewrite <- Elv, <- Elw in Ha'.
  split; f_equal; eapply bool_of_iff; eassumption.
Qed.

Lemma X24_compare_live_elements_witness :
  operator_eq Z.eqb (mkSimpleVector (mkArrayPtr (Some [5; 6; 7])) 2 3)
                    (mkSimpleVector (mkArrayPtr (Some [5; 6])) 2 2)
  = operator_eq Z.eqb (mkSimpleVector (mkArrayPtr (Some [5; 6; 0; 9])) 2 4)
                      (mkSimpleVector (mkArrayPtr (Some [5; 6; 1])) 2 3) /\
  operator_lt Z.ltb (mkSimpleVector (mkArrayPtr (Some [5; 6; 7])) 2 3)
                    (mkSimpleVector (mkArrayPtr (Some [5; 6])) 2 2)
  = operator_lt Z.ltb (mkSimpleVector (mkArrayPtr (Some [5; 6; 0; 9])) 2 4)
                      (mkSimpleVector (mkArrayPtr (Some [5; 6; 1])) 2 3).
Proof.
  apply (X24_compare_live_elements Z.eqb Z.ltb
           (mkSimpleVector (mkArrayPtr (Some [5; 6; 7])) 2 3)
           (mkSimpleVector (mkArrayPtr (Some [5; 6; 0; 9])) 2 4)
           (mkSimpleVector (mkArrayPtr (Some [5; 6])) 2 2)
           (mkSimpleVector (mkArrayPtr (Some [5; 6; 1])) 2 3)).
  - wf_concrete.
  - wf_concrete.
  - wf_concrete.
  - wf_concrete.
  - reflexivity.
  - reflexivity.
Defined.

(** ** Defined behaviour *)

Section DefinedFacts.
Context {T : Type}.
Variable dflt : T.
Variable moved_from : T -> T.
Variable self_moved : T -> T.
Variable heap_limit : Z.
Implicit Types (σ : gmap nat (SimpleVector T)) (v : SimpleVector T).

Lemma returns_defined {A : Type} (r : outcome A) (P : A -> Prop) :
  returns r P -> defined r.
Proof. destruct r as [a|[]| | |]; simpl; auto. Qed.

Lemma defined_then {A B : Type} (r : outcome A) (f : A -> B) :
  defined r -> defined (let* a := r in Ok (f a)).
Proof. destruct r as [a|[]| | |]; simpl; auto. Qed.

Lemma construct_defined this (ctor : outcome (SimpleVector T)) σ :
  defined ctor -> defined (construct this ctor σ).
Proof. unfold construct. apply defined_then. Qed.

Lemma on_object_defined this member σ v :
  σ !! this = Some v -> defined (member v) ->
  defined (on_object this member σ).
Proof.
  intros Hv Hm. unfold on_object. rewrite (deref_Some _ _ _ Hv). simpl.
  by apply defined_then.
Qed.

Lemma Insert_defined v pos (r : ref T) :
  wf v -> live_ref v r -> defined (Insert dflt heap_limit v pos r).
Proof.
  intros Hwf Hlive. destruct (decide (0 <= pos <= size_ v)) as [Hpos|Hpos].
  - eapply returns_defined.
    eapply returns_if_live; [by apply Insert_returns | done].
  - by rewrite Insert_out_of_range.
Qed.

Lemma Insert_rvalue_defined v pos (r : ref T) :
  wf v -> live_ref v r ->
  defined (Insert_rvalue dflt moved_from self_moved heap_limit v pos r).
Proof.
  intros Hwf Hlive. destruct (decide (0 <= pos <= size_ v)) as [Hpos|Hpos].
  - eapply returns_defined.
    eapply returns_if_live; [by apply Insert_rvalue_returns | done].
  - by rewrite Insert_rvalue_out_of_range.
Qed.

Lemma Erase_defined v pos :
  wf v -> defined (Erase moved_from self_moved v pos).
Proof.
  intros Hwf. destruct (decide (0 <= pos < size_ v)) as [Hpos|Hpos].
  - destruct (Erase_spec moved_from self_moved v pos Hwf Hpos)
      as (v' & -> & _). exact I.
  - by rewrite Erase_out_of_range.
Qed.

Lemma PopBack_defined v : wf v -> defined (PopBack v).
Proof.
  intros Hwf. pose proof (wf_bounds v Hwf) as Hb.
  destruct (Z.eq_dec (size_ v) 0) as [Hz|Hnz].
  - by rewrite PopBack_empty.
  - destruct (PopBack_spec v Hwf) as (v' & -> & _); [lia | exact I].
Qed.

Lemma copy_assign_defined σ this rhs t r :
  σ !! this = Some t -> σ !! rhs = Some r -> wf r ->
  defined (copy_assign dflt heap_limit this rhs σ).
Proof.
  intros Ht Hr Hwf. destruct (decide (rhs = this)) as [->|Hne].
  - by rewrite copy_assign_self.
  - destruct (Z.eq_dec (size_ r) 0) as [Hz|Hnz].
    + by erewrite copy_assign_empty.
    + pose proof (SimpleVector_copy_spec dflt heap_limit r Hwf) as Hcopy.
      destruct (SimpleVector_copy dflt heap_limit r) as [c|[]| | |] eqn:Hc;
        simpl in Hcopy; try contradiction.
      * by erewrite copy_assign_copies.
      * by erewrite copy_assign_thrown.
Qed.

Lemma move_assign_defined σ this other t o :
  σ !! this = Some t -> σ !! other = Some o ->
  defined (move_assign this other σ).
Proof.
  intros Ht Ho. destruct (decide (this = other)) as [->|Hne].
  - by erewrite move_assign_self.
  - by erewrite move_assign_distinct.
Qed.

Lemma exec_defined (c : call) σ :
  store_wf σ -> call_args_ok c ->
  Forall (fun a => is_Some (σ !! a)) (call_refs c) ->
  call_ref_live c σ ->
  defined (exec dflt moved_from self_moved heap_limit c σ).
Proof.
  intros Hσ Hargs Hrefs Hlive.
  destruct c; simpl in *;
    repeat match goal with
           | H : Forall _ (_ :: _) |- _ =>
               apply Forall_cons in H as [[? ?] H]
           end.
  - exact I.
  - apply construct_defined. eapply returns_defined.
    apply SimpleVector_fill_spec. apply Hargs.
  - apply construct_defined. eapply returns_defined.
    apply SimpleVector_fill_spec. apply Hargs.
  - apply construct_defined. eapply returns_defined.
    apply SimpleVector_init_spec.
  - erewrite deref_Some by done. simpl.
    apply construct_defined. eapply returns_defined.
    apply SimpleVector_copy_spec. by eapply Hσ.
  - apply construct_defined. eapply returns_defined.
    apply SimpleVector_reserved_spec. apply Hargs.
  - unfold move_construct. erewrite deref_Some by done. cbn [bind].
    rewrite SimpleVector_move_spec. exact I.
  - eapply copy_assign_defined; [done | done |]. by eapply Hσ.
  - by eapply move_assign_defined.
  - by eapply on_object_defined.
  - eapply on_object_defined; [done|]. eapply returns_defined.
    apply Reserve_returns. by eapply Hσ.
  - eapply on_object_defined; [done|]. eapply returns_defined.
    apply Resize_returns; [by eapply Hσ | apply Hargs].
  - eapply on_object_defined; [done|]. eapply returns_defined.
    eapply returns_if_live; [apply PushBack_returns; by eapply Hσ|].
    by apply Hlive.
  - eapply on_object_defined; [done|]. eapply returns_defined.
    eapply returns_if_live; [apply PushBack_rvalue_returns; by eapply Hσ|].
    by apply Hlive.
  - eapply on_object_defined; [done|]. apply PopBack_defined. by eapply Hσ.
  - by erewrite swap_spec.
  - eapply on_object_defined; [done|]. apply defined_then.
    apply Insert_defined; [by eapply Hσ | by apply Hlive].
  - eapply on_object_defined; [done|]. apply defined_then.
    apply Insert_rvalue_defined; [by eapply Hσ | by apply Hlive].
  - eapply on_object_defined; [done|]. apply defined_then.
    apply Erase_defined. by eapply Hσ.
Qed.

End DefinedFacts.

(** X25.  On objects that satisfy the class invariant no constructor, no
    assignment operator and no member function that changes the vector
    leaves defined behaviour: a call whose objects are live, whose [size_t]
    arguments are in range and whose reference argument, if it has one,
    denotes an object outside the vector or one of its live elements,
    returns, leaves with [std::bad_alloc], or stops at an assertion.  It
    never reads or writes outside an allocated block, and the [noexcept]
    members [PopBack], [Clear] and [swap] never end in [std::terminate].
    The non-const accessors are not among these calls: on such an object
    [At] returns the element or throws [std::out_of_range], and
    [operator[]] returns the element or stops at its assertion. *)
Theorem X25_calls_stay_defined {T : Type} (dflt : T)
        (moved_from self_moved : T -> T) (heap_limit : Z)
        (c : call) (σ : gmap nat (SimpleVector T)) :
  store_wf σ -> call_args_ok c ->
  Forall (fun a => is_Some (σ !! a)) (call_refs c) ->
  call_ref_live c σ ->
  defined (exec dflt moved_from self_moved heap_limit c σ) /\
  (forall a v i, σ !! a = Some v -> 0 <= i ->
     (exists x, At v i = Ok x /\ index v i = Ok x) \/
     (At v i = Throw (out_of_range range_msg) /\ index v i = AssertFail)).
Proof.
  intros Hσ Hargs Hrefs Hlive. split; [by apply exec_defined|].
  intros a v i Hv Hi. destruct (Z_lt_ge_dec i (size_ v)) as [Hlt|Hge].
  - left. destruct (index_in_range v i (Hσ _ _ Hv)) as (x & _ & ? & _ & ? & _);
      [lia|]. eauto.
  - right. destruct (At_out_of_range v i) as [? _]; [lia|].
    split; [done|]. apply index_out_of_range. lia.
Qed.

Lemma X25_calls_stay_defined_witness :
  defined (exec 0 trivial_move trivial_move 100
             (Call_Insert_rvalue 0 1 (element 2))
             (<[0%nat := mkSimpleVector (mkArrayPtr (Some [5; 6; 7])) 3 3]> ∅)) /\
  exists σ',
    exec 0 trivial_move trivial_move 100 (Call_Insert_rvalue 0 1 (element 2))
      (<[0%nat := mkSimpleVector (mkArrayPtr (Some [5; 6; 7])) 3 3]> ∅)
    = Ok σ' /\
    σ' !! 0%nat
    = Some (mkSimpleVector (mkArrayPtr (Some [5; 7; 6; 7; 0; 0])) 4 6).
Proof.
  split.
  - apply (X25_calls_stay_defined 0 trivial_move trivial_move 100
             (Call_Insert_rvalue 0 1 (element 2))
             (<[0%nat := mkSimpleVector (mkArrayPtr (Some [5; 6; 7])) 3 3]> ∅)).
    + intros a v Hv. destruct (decide (a = 0%nat)) as [->|Hne].
      * rewrite lookup_insert_eq in Hv. injection Hv as <-. wf_concrete.
      * rewrite lookup_insert_ne, lookup_empty in Hv by done. done.
    + exact I.
    + repeat constructor. eexists. reflexivity.
    + intros v Hv. rewrite lookup_insert_eq in Hv. injection Hv as <-.
      simpl. lia.
  - eexists. split; [vm_compute; reflexivity | reflexivity].
Defined.

(** ** Reserved and retained storage *)

Section StorageFacts.
Context {T : Type}.
Variable dflt : T.
Variable heap_limit : Z.

Lemma SimpleVector_reserved_room (n : Z) :
  0 <= n -> n = 0 \/ room heap_limit n ->
  exists v, SimpleVector_reserved dflt heap_limit (ReserveProxy n) = Ok v /\
    wf v /\ size_ v = 0 /\ capacity_ v = n /\ to_list v = [].
Proof.
  intros Hn Hr.
  pose proof (SimpleVector_reserved_spec dflt heap_limit (ReserveProxy n) Hn)
    as Hspec.
  unfold SimpleVector_reserved in *. simpl in *.
  destruct (ArrayPtr_sized_room dflt heap_limit n Hn Hr) as (p & Hp & _).
  rewrite Hp in *. simpl in *. destruct Hspec as (Hwf & Hs & Hc).
  eexists. split; [reflexivity|]. split_and!; try done.
Qed.

End StorageFacts.

(** X26.  [SimpleVector v(Reserve(n))]: with [n = 0] or room for [n]
    elements the constructor returns an empty vector of capacity [n], and
    any [PushBack] sequence of at most [n] elements on it returns without
    growing the capacity and leaves exactly the pushed elements; for a
    non-zero [n] without room the constructor leaves with
    [std::bad_alloc]. *)
Theorem X26_reserving_constructor {T : Type} (dflt : T)
        (moved_from self_moved : T -> T) (heap_limit : Z) (n : Z) :
  0 <= n ->
  (n = 0 \/ room heap_limit n ->
   exists v, SimpleVector_reserved dflt heap_limit (ReserveProxy n) = Ok v /\
     wf v /\ size_ v = 0 /\ capacity_ v = n /\ to_list v = [] /\
     forall items : list pushed,
       Z.of_nat (length items) <= n ->
       exists v',
         PushBack_all dflt moved_from self_moved heap_limit v items = Ok v' /\
         capacity_ v' = n /\ to_list v' = map pushed_item items) /\
  (n <> 0 -> ~ room heap_limit n ->
   SimpleVector_reserved dflt heap_limit (ReserveProxy n) = Throw bad_alloc).
Proof.
  intros Hn. split.
  - intros Hr.
    destruct (SimpleVector_reserved_room dflt heap_limit n Hn Hr)
      as (v & Hv & Hwf & Hs & Hc & Hl).
    exists v. split_and!; try done.
    intros items Hlen.
    destruct (PushBack_all_fit dflt moved_from self_moved heap_limit items v Hwf)
      as (v' & Hv' & _ & Hc' & _ & _ & Hl'); [lia|].
    exists v'. split_and!; [done | lia |]. by rewrite Hl', Hl.
  - intros Hne Hr. unfold SimpleVector_reserved. simpl.
    by rewrite ArrayPtr_sized_no_room.
Qed.

Lemma X26_reserving_constructor_witness :
  (exists v, SimpleVector_reserved 0 4 (ReserveProxy 4) = Ok v /\
     wf v /\ size_ v = 0 /\ capacity_ v = 4 /\ to_list v = [] /\
     forall items : list pushed,
       Z.of_nat (length items) <= 4 ->
       exists v', PushBack_all 0 trivial_move trivial_move 4 v items = Ok v' /\
         capacity_ v' = 4 /\ to_list v' = map pushed_item items) /\
  SimpleVector_reserved 0 4 (ReserveProxy 5) = Throw bad_alloc.
Proof.
  destruct (X26_reserving_constructor 0 trivial_move trivial_move 4 4)
    as [H1 _]; [lia|].
  destruct (X26_reserving_constructor 0 trivial_move trivial_move 4 5)
    as [_ H2]; [lia|].
  split.
  - apply H1. right. unfold room. rewrite PTRDIFF_MAX_val. lia.
  - apply H2; [lia | unfold room; lia].
Defined.

(** X27.  [Clear] empties the vector and keeps its buffer and capacity:
    afterwards every checked access throws, and any [PushBack] sequence of
    at most [capacity] elements returns without allocating and leaves
    exactly the pushed elements. *)
Theorem X27_Clear_keeps_storage {T : Type} (dflt : T)
        (moved_from self_moved : T -> T) (heap_limit : Z)
        (v : SimpleVector T) :
  wf v ->
  wf (Clear v) /\ to_list (Clear v) = [] /\
  capacity_ (Clear v) = capacity_ v /\ items_ (Clear v) = items_ v /\
  (forall i, 0 <= i -> At (Clear v) i = Throw (out_of_range range_msg)) /\
  (forall items : list pushed,
     Z.of_nat (length items) <= capacity_ v ->
     exists v',
       PushBack_all dflt moved_from self_moved heap_limit (Clear v) items
       = Ok v' /\
       capacity_ v' = capacity_ v /\
       length (block (items_ v')) = length (block (items_ v)) /\
       to_list v' = map pushed_item items).
Proof.
  intros Hwf. destruct (Clear_spec v Hwf) as (Hs & Hc & Hi & Hwf').
  split_and!; try done.
  - intros i Hi0. apply At_out_of_range. simpl. lia.
  - intros items Hlen.
    destruct (PushBack_all_fit dflt moved_from self_moved heap_limit items (Clear v)
                Hwf')
      as (v' & Hv' & _ & Hc' & Hb' & _ & Hl'); [simpl; lia|].
    exists v'. split_and!; done.
Qed.

Lemma X27_Clear_keeps_storage_witness :
  exists v',
    PushBack_all 0 trivial_move trivial_move (-1)
      (Clear (mkSimpleVector (mkArrayPtr (Some [5; 6; 7; 0])) 3 4))
      [by_copy 1; by_move 2; by_copy 3; by_move 4] = Ok v' /\
    capacity_ v' = 4 /\ length (block (items_ v')) = 4%nat /\
    to_list v' = [1; 2; 3; 4].
Proof.
  destruct (X27_Clear_keeps_storage 0 trivial_move trivial_move (-1)
              (mkSimpleVector (mkArrayPtr (Some [5; 6; 7; 0])) 3 4))
    as (_ & _ & _ & _ & _ & H).
  - wf_concrete.
  - apply (H [by_copy 1; by_move 2; by_copy 3; by_move 4]). simpl. lia.
Defined.

(** X28.  [FillWithDefaultValue(from, to)] on a range inside a block
    returns the block with default values at the offsets of the range and
    every other slot as it was; on an empty range it touches nothing, the
    null pointer included. *)
Theorem X28_FillWithDefaultValue {T : Type} (dflt : T) (p : @raw_ptr T)
        (from to : Z) :
  0 <= from <= to -> to <= Z.of_nat (length (blk p)) ->
  (exists r, FillWithDefaultValue dflt p from to = Ok r /\
     length (blk r) = length (blk p) /\
     forall k : nat,
       blk r !! k =
       if decide (from <= Z.of_nat k < to) then Some dflt else blk p !! k) /\
  (from = to -> FillWithDefaultValue dflt p from to = Ok p).
Proof.
  intros Hf Ht. split; [by apply FillWithDefaultValue_spec|].
  intros ->. unfold FillWithDefaultValue.
  destruct (Z.ltb_spec to to); [lia|].
  replace (Z.to_nat (to - to)) with 0%nat by lia. reflexivity.
Qed.

Lemma X28_FillWithDefaultValue_witness :
  (exists r, FillWithDefaultValue 0 (Some [5; 6; 7; 8]) 1 3 = Ok r /\
     length (blk r) = 4%nat /\
     forall k : nat,
       blk r !! k =
       if decide (1 <= Z.of_nat k < 3) then Some 0 else [5; 6; 7; 8] !! k) /\
  FillWithDefaultValue 0 (Some [5; 6; 7; 8]) 1 3 = Ok (Some [5; 0; 0; 8]).
Proof.
  split; [|reflexivity].
  destruct (X28_FillWithDefaultValue 0 (Some [5; 6; 7; 8]) 1 3) as [H _].
  - lia.
  - simpl. lia.
  - exact H.
Defined.

(** ** Moves out of the vector's own elements *)

Section MoveFacts.
Context {T : Type}.
Variable dflt : T.
Variable moved_from : T -> T.
Variable self_moved : T -> T.
Variable heap_limit : Z.
Implicit Types (v : SimpleVector T) (x y : T).

Lemma PushBack_rvalue_own v i y :
  wf v -> 0 <= i < size_ v -> to_list v !! Z.to_nat i = Some y ->
  returns
    (PushBack_rvalue dflt moved_from self_moved heap_limit v (element i))
    (fun v' =>
       wf v' /\ size_ v' = size_ v + 1 /\
       to_list v' =
       if decide (size_ v + 1 <= capacity_ v)
       then <[Z.to_nat i := moved_from y]> (to_list v) ++ [y]
       else to_list v ++ [moved_from y]).
Proof.
  intros Hwf Hi Hy. pose proof (wf_bounds v Hwf) as Hb.
  pose proof (to_list_length v Hwf) as Hlen.
  assert (Hrv : ref_value v (element i) = Some y)
    by (simpl; case_decide; [done | lia]).
  destruct (decide (size_ v + 1 <= capacity_ v)) as [Hfit|Hgrow].
  - destruct (succeeds_if_Ok _ _ _
                (PushBack_rvalue_fit dflt moved_from self_moved heap_limit v
                   (element i) Hwf Hfit) Hi)
      as (v' & -> & Hs & Hc & Hwf' & Hblk).
    specialize (Hblk y Hrv). simpl. split_and!; [done | done |].
    apply list_eq. intros k. rewrite to_list_lookup, Hs, Hblk.
    rewrite !list_lookup_insert, !length_insert.
    destruct (decide (Z.of_nat k < size_ v)).
    + rewrite lookup_app_l by (rewrite length_insert; lia).
      rewrite list_lookup_insert, to_list_lookup.
      repeat case_decide; (lia || done).
    + rewrite lookup_app_r by (rewrite length_insert; lia).
      rewrite length_insert.
      destruct (decide (Z.of_nat k = size_ v)).
      * replace (k - length (to_list v))%nat with 0%nat by lia.
        repeat case_decide; (lia || done).
      * rewrite (lookup_ge_None_2 [y]) by (simpl; lia).
        repeat case_decide; (lia || done).
  - rewrite PushBack_rvalue_grow_eq by (rewrite size_t_succ by done; lia).
    eapply returns_weaken;
      [|eapply returns_if_live; [by apply PushBack_returns | exact Hi]].
    intros v' (Hwf' & Hs & _ & z & Hl & Hz).
    rewrite (Hz y Hrv) in Hl. unfold PushBack_reads in Hl.
    case_decide; [lia|]. done.
Qed.

End MoveFacts.

(** X29.  [PushBack(std::move(v[i]))] for a live element of the vector
    itself returns or leaves with [std::bad_alloc].  Without reallocation
    the old [v[i]] is appended and position [i] holds what the move leaves
    of it.  With reallocation it is the other way round: [ReallocateMove]
    carries [v[i]] to the new block first, so position [i] keeps the value
    and what the move leaves of it is appended. *)
Theorem X29_PushBack_moves_own_element {T : Type} (dflt : T)
        (moved_from self_moved : T -> T) (heap_limit : Z)
        (v : SimpleVector T) (i : Z) (y : T) :
  wf v -> 0 <= i < size_ v -> to_list v !! Z.to_nat i = Some y ->
  returns
    (PushBack_rvalue dflt moved_from self_moved heap_limit v (element i))
    (fun v' =>
       wf v' /\ size_ v' = size_ v + 1 /\
       to_list v' =
       if decide (size_ v + 1 <= capacity_ v)
       then <[Z.to_nat i := moved_from y]> (to_list v) ++ [y]
       else to_list v ++ [moved_from y]).
Proof. apply PushBack_rvalue_own. Qed.

Lemma X29_PushBack_moves_own_element_witness :
  returns
    (PushBack_rvalue EmptyString (fun _ => EmptyString) (fun s => s) 100
       (mkSimpleVector
          (mkArrayPtr (Some ["a"%string; "b"%string; EmptyString])) 2 3)
       (element 0))
    (fun v' =>
       wf v' /\ size_ v' = 3 /\
       to_list v' = [EmptyString; "b"%string; "a"%string]) /\
  PushBack_rvalue EmptyString (fun _ => EmptyString) (fun s => s) 100
    (mkSimpleVector (mkArrayPtr (Some ["a"%string; "b"%string])) 2 2)
    (element 0)
  = Ok (mkSimpleVector
          (mkArrayPtr
             (Some ["a"%string; "b"%string; EmptyString; EmptyString])) 3 4).
Proof.
  split; [|reflexivity].
  apply (X29_PushBack_moves_own_element EmptyString (fun _ => EmptyString)
           (fun s => s) 100
           (mkSimpleVector
              (mkArrayPtr (Some ["a"%string; "b"%string; EmptyString])) 2 3)
           0 "a"%string).
  - wf_concrete.
  - simpl. lia.
  - reflexivity.
Defined.

(** X30.  What [Erase] does to the block: the slots before the position and
    the slots from the old size on keep their values, each slot from the
    position to the new end receives its right neighbour, and the slot of
    the old last element - the first one behind the new end - holds what a
    move leaves of that element, unless the erased element was the last
    one, when nothing is moved. *)
Theorem X30_Erase_block {T : Type} (moved_from self_moved : T -> T)
        (v : SimpleVector T) (pos : Z) :
  wf v -> 0 <= pos < size_ v ->
  exists v', Erase moved_from self_moved v pos = Ok (pos, v') /\
    length (block (items_ v')) = length (block (items_ v)) /\
    forall k : nat,
      block (items_ v') !! k =
      if decide (pos <= Z.of_nat k < size_ v - 1)
      then block (items_ v) !! (k + 1)%nat
      else if decide (Z.of_nat k = size_ v - 1 /\ pos < size_ v - 1)
           then moved_from <$> block (items_ v) !! k
           else block (items_ v) !! k.
Proof.
  intros Hwf Hpos.
  destruct (Erase_spec moved_from self_moved v pos Hwf Hpos)
    as (v' & He & _ & _ & _ & _ & Hlen & Hk).
  eauto.
Qed.

Lemma X30_Erase_block_witness :
  (exists v',
     Erase (fun _ => -1) (fun x => x)
       (mkSimpleVector (mkArrayPtr (Some [5; 6; 7; 8])) 3 4) 0
     = Ok (0, v') /\
     length (block (items_ v')) = 4%nat /\
     forall k : nat,
       block (items_ v') !! k =
       if decide (0 <= Z.of_nat k < 3 - 1) then [5; 6; 7; 8] !! (k + 1)%nat
       else if decide (Z.of_nat k = 3 - 1 /\ 0 < 3 - 1)
            then (fun _ => -1) <$> [5; 6; 7; 8] !! k
            else [5; 6; 7; 8] !! k) /\
  Erase (fun _ => -1) (fun x => x)
    (mkSimpleVector (mkArrayPtr (Some [5; 6; 7; 8])) 3 4) 0
  = Ok (0, mkSimpleVector (mkArrayPtr (Some [6; 7; -1; 8])) 2 4).
Proof.
  split; [|reflexivity].
  apply (X30_Erase_block (fun _ => -1) (fun x => x)
           (mkSimpleVector (mkArrayPtr (Some [5; 6; 7; 8])) 3 4) 0).
  - wf_concrete.
  - simpl. lia.
Defined.
